(** * msp430softserial: the echo example program (main.c)

    A shallow embedding of [main.c], the example application that drives the
    interrupt-driven software UART.  The program talks to two collaborators
    whose code is not part of this file: the SoftSerial driver
    (softserial.c) and the MSP430 peripherals.  Every call into the driver,
    every access to a peripheral register and every compiler intrinsic is an
    event of an interaction tree; the functions of main.c are itrees over
    these events, written in the order of the C statements. *)

From Stdlib Require Import ZArith List Lia Bool String Ascii.
From ITree Require Import ITree ITreeFacts.
Import ListNotations.
Import ITreeNotations.
Local Open Scope itree_scope.
Local Open Scope Z_scope.

Set Implicit Arguments.

(** ** Machine integers of the MSP430 (16-bit int, 8-bit char) *)

Module Int.

(** Conversion to [uint8_t] / [unsigned char]. *)
Definition to_uint8 (z : Z) : Z := z mod 256.

(** Conversion to [unsigned int] (16 bits). *)
Definition to_uint16 (z : Z) : Z := z mod 65536.

End Int.

(** ** Peripheral registers and driver entry points *)

(** The special-function registers main.c touches. *)
Inductive reg : Type :=
| WDTCTL | P1DIR | P1SEL | BCSCTL1 | BCSCTL3 | DCOCTL
| TACCTL0 | TACTL | TACCR0.

Definition reg_eqb (a b : reg) : bool :=
  match a, b with
  | WDTCTL, WDTCTL | P1DIR, P1DIR | P1SEL, P1SEL | BCSCTL1, BCSCTL1
  | BCSCTL3, BCSCTL3 | DCOCTL, DCOCTL | TACCTL0, TACCTL0 | TACTL, TACTL
  | TACCR0, TACCR0 => true
  | _, _ => false
  end.

(** Everything main.c does that is visible outside of it. *)
Inductive call : Type :=
| CInit                      (* SoftSerial_init()      *)
| CXmit (c : Z)              (* SoftSerial_xmit(c)     *)
| CEmpty                     (* SoftSerial_empty()     *)
| CRead                      (* SoftSerial_read()      *)
| CAvailable                 (* SoftSerial_available() *)
| CReadNc                    (* SoftSerial_read_nc()   *)
| CEnableInterrupt           (* __enable_interrupt()   *)
| CDisableInterrupt          (* __disable_interrupt()  *)
| CDelayCycles (n : Z)       (* __delay_cycles(n)      *)
| CLoad (r : reg)            (* volatile read of r     *)
| CStore (r : reg) (v : Z)   (* volatile write of r    *)
| CFault.                    (* read outside the object a pointer points into *)

(** A call hands a machine word back in the return register.  For a [void]
    function, or when the C statement drops the value, the program below
    simply never looks at it. *)
Variant ioE : Type -> Type :=
| Do (c : call) : ioE Z.

Definition prog := itree ioE.

(** An observed step: the call and the word that came back. *)
Definition event : Type := call * Z.
Definition trace : Type := list event.

(** ** Running a program against an environment *)

(** The registers of the timer: the hardware sets the capture flag and the
    captured count between two reads, so what a read returns is for the
    environment to say. *)
Definition hw_driven (r : reg) : bool :=
  match r with
  | TACCTL0 | TACTL | TACCR0 => true
  | _ => false
  end.

(** Width in bits of a register. *)
Definition reg_width (r : reg) : Z :=
  match r with
  | WDTCTL | TACCTL0 | TACTL | TACCR0 => 16
  | _ => 8
  end.

Definition reg_trunc (r : reg) (v : Z) : Z := v mod 2 ^ reg_width r.

Definition regfile : Type := reg -> Z.

Definition reg_set (rf : regfile) (r : reg) (v : Z) : regfile :=
  fun r' => if reg_eqb r r' then reg_trunc r v else rf r'.

(** How a run ends. *)
Inductive status (R : Type) : Type :=
| Done (r : R) (spare : nat) (* returned [r] with [spare] steps unused  *)
| Stuck (c : call)           (* the environment has no answer to [c]   *)
| OutOfFuel.
Arguments Stuck {R} c.
Arguments OutOfFuel {R}.

Section Run.

(** The driver and the timer hardware: a state and an answer, if any, to
    each call. *)
Context {Env : Type}.
Variable respond : Env -> call -> option (Z * Env).

Record machine : Type := Machine { regs : regfile; env : Env }.

Record outcome (R : Type) : Type :=
  Outcome { out_trace : trace; out_machine : machine; out_status : status R }.

(** One call.  Stores and loads of the registers the program owns act on
    the register file; everything else is answered by the environment. *)
Definition perform (m : machine) (c : call) : option (Z * machine) :=
  match c with
  | CFault => None
  | CStore r v => Some (0, Machine (reg_set (regs m) r v) (env m))
  | CLoad r =>
      if hw_driven r then
        match respond (env m) c with
        | Some (z, e') => Some (reg_trunc r z, Machine (regs m) e')
        | None => None
        end
      else Some (reg_trunc r (regs m r), m)
  | _ =>
      match respond (env m) c with
      | Some (z, e') => Some (z, Machine (regs m) e')
      | None => None
      end
  end.

Definition with_event {R} (ev : event) (o : outcome R) : outcome R :=
  Outcome (ev :: out_trace o) (out_machine o) (out_status o).

(** [run fuel t m]: at most [fuel] steps of [t] from machine [m]. *)
Fixpoint run {R} (fuel : nat) (t : prog R) (m : machine) : outcome R :=
  match fuel with
  | O => Outcome [] m OutOfFuel
  | S n =>
      match observe t with
      | RetF r => Outcome [] m (Done r (S n))
      | TauF t' => run n t' m
      | VisF e k =>
          match e in ioE X return (X -> prog R) -> outcome R with
          | Do c => fun k =>
              match perform m c with
              | Some (z, m') => with_event (c, z) (run n (k z) m')
              | None => Outcome [] m (Stuck c)
              end
          end k
      end
  end.

(** Sequencing two runs: the second starts with the fuel the first left. *)
Definition then_run {R T} (o : outcome R) (k : R -> nat -> machine -> outcome T)
  : outcome T :=
  match out_status o with
  | Done r spare =>
      let o' := k r spare (out_machine o) in
      Outcome (out_trace o ++ out_trace o') (out_machine o') (out_status o')
  | Stuck c => Outcome (out_trace o) (out_machine o) (Stuck c)
  | OutOfFuel => Outcome (out_trace o) (out_machine o) OutOfFuel
  end.

End Run.

Arguments machine : clear implicits.
Arguments outcome : clear implicits.
Arguments Outcome {Env R}.
Arguments Machine {Env}.

(** ** Constants *)

(** Bit names of the device header msp430.h. *)
Module Hw.
Definition WDTPW : Z := 0x5A00.
Definition WDTHOLD : Z := 0x0080.
Definition BIT0 : Z := 0x01.
Definition BIT4 : Z := 0x10.
Definition XCAP_0 : Z := 0x00.
Definition XCAP_3 : Z := 0x0C.
Definition DIVA_3 : Z := 0x30.
Definition CM_1 : Z := 0x4000.
Definition CCIS_1 : Z := 0x1000.
Definition CAP : Z := 0x0100.
Definition CCIFG : Z := 0x0001.
Definition TASSEL_2 : Z := 0x0200.
Definition MC_2 : Z := 0x0020.
Definition TACLR : Z := 0x0004.
End Hw.

(** The two settings of config.h that main.c reads. *)
Record config : Type := Config {
  CALIBRATE_DCO : bool;   (* is the macro defined? *)
  F_CPU : Z               (* requested clock rate, in Hz *)
}.

(** ** The calls, as the C source writes them *)

Definition do_call (c : call) : prog Z := ITree.trigger (Do c).

Definition load (r : reg) : prog Z := do_call (CLoad r).
Definition store (r : reg) (v : Z) : prog Z := do_call (CStore r v).
Definition __delay_cycles (n : Z) : prog Z := do_call (CDelayCycles n).
Definition __enable_interrupt : prog Z := do_call CEnableInterrupt.

Definition SoftSerial_init : prog Z := do_call CInit.
Definition SoftSerial_empty : prog Z := do_call CEmpty.
Definition SoftSerial_read : prog Z := do_call CRead.
Definition SoftSerial_available : prog Z := do_call CAvailable.
Definition SoftSerial_read_nc : prog Z := do_call CReadNc.

(** Modelled from the spec: the prototype of [SoftSerial_xmit] lives in
    softserial.h; the spec gives it as [transmit(byte)], so the argument is
    converted to [uint8_t] at the call. *)
Definition SoftSerial_xmit (c : Z) : prog Z := do_call (CXmit (Int.to_uint8 c)).

(** Reading through a pointer past the end of the object it points into. *)
Definition fault {R} : prog R := ITree.bind (do_call CFault) (fun _ => ITree.spin).

(** ** main.c *)

(** [int putchar(register int c)] *)
Definition putchar (c : Z) : prog Z :=
  SoftSerial_xmit c ;;
  Ret 0.

(** A string literal as it lies in memory: its characters, then NUL. *)
Definition cstring (s : string) : list Z :=
  List.map (fun a => Z.of_N (N_of_ascii a)) (list_ascii_of_string s) ++ [0].

Definition CRLF : string := String "013"%char (String "010"%char EmptyString).

(** [static const unsigned char hextbl[] = "0123456789ABCDEF";] *)
Definition hextbl : list Z := cstring "0123456789ABCDEF".

(** [void print_hexb(register unsigned char c)] *)
Definition print_hexb (c : Z) : prog unit :=
  let c := Int.to_uint8 c in
  SoftSerial_xmit (nth (Z.to_nat (Z.shiftr c 4)) hextbl 0) ;;
  SoftSerial_xmit (nth (Z.to_nat (Z.land c 0x0F)) hextbl 0) ;;
  Ret tt.

(** [void print(const char *s)].  The argument is the memory from [s] to the
    end of the object [s] points into, one [char] per element.
<<
    do { SoftSerial_xmit( *s++ ); } while ( *s );
>> *)
Fixpoint print (s : list Z) : prog unit :=
  match s with
  | [] => fault
  | c :: s' =>
      SoftSerial_xmit c ;;
      match s' with
      | [] => fault
      | c' :: _ => if c' =? 0 then Ret tt else print s'
      end
  end.

(** [while (!(CCIFG & TACCTL0));]: wait until a capture occurred. *)
Definition wait_capture : prog unit :=
  ITree.iter (fun _ : unit =>
    f <- load TACCTL0 ;;
    if Z.land Hw.CCIFG f =? 0 then Ret (inl tt) else Ret (inr tt)) tt.

(** The DCO is too fast, slow it down:
<<
    DCOCTL--;
    if (DCOCTL == 0xFF)
    if (BCSCTL1 & 0x0f)
        BCSCTL1--;
>> *)
Definition DCO_slower : prog unit :=
  d <- load DCOCTL ;; store DCOCTL (Int.to_uint8 (d - 1)) ;;
  d <- load DCOCTL ;;
  if d =? 0xFF then
    b <- load BCSCTL1 ;;
    if negb (Z.land b 0x0f =? 0) then
      b <- load BCSCTL1 ;; store BCSCTL1 (Int.to_uint8 (b - 1)) ;; Ret tt
    else Ret tt
  else Ret tt.

(** The DCO is too slow, speed it up:
<<
    DCOCTL++;
    if (DCOCTL == 0x00)
    if ((BCSCTL1 & 0x0f) != 0x0f)
        BCSCTL1++;
>> *)
Definition DCO_faster : prog unit :=
  d <- load DCOCTL ;; store DCOCTL (Int.to_uint8 (d + 1)) ;;
  d <- load DCOCTL ;;
  if d =? 0x00 then
    b <- load BCSCTL1 ;;
    if negb (Z.land b 0x0f =? 0x0f) then
      b <- load BCSCTL1 ;; store BCSCTL1 (Int.to_uint8 (b + 1)) ;; Ret tt
    else Ret tt
  else Ret tt.

(** The body of [while (1)] in [Set_DCO], from the value [Oldcapture] has
    on entry; [inl] carries its value into the next round, [inr] is the
    [break]. *)
Definition Set_DCO_body (Delta Oldcapture : Z) : prog (Z + unit) :=
  wait_capture ;;
  f <- load TACCTL0 ;; store TACCTL0 (Z.land f (Z.lnot Hw.CCIFG)) ;;
  Compare <- load TACCR0 ;;
  let Compare := Int.to_uint16 (Compare - Oldcapture) in
  Oldcapture <- load TACCR0 ;;
  if Delta =? Compare then Ret (inr tt)
  else if Delta <? Compare then DCO_slower ;; Ret (inl Oldcapture)
  else DCO_faster ;; Ret (inl Oldcapture).

(** [void Set_DCO(unsigned int Delta)] *)
Definition Set_DCO (Delta : Z) : prog unit :=
  (* unsigned int Compare, Oldcapture = 0; *)
  v <- load BCSCTL1 ;; store BCSCTL1 (Z.lor v Hw.DIVA_3) ;;
  store TACCTL0 (Z.lor (Z.lor Hw.CM_1 Hw.CCIS_1) Hw.CAP) ;;
  store TACTL (Z.lor (Z.lor Hw.TASSEL_2 Hw.MC_2) Hw.TACLR) ;;
  ITree.iter (Set_DCO_body Delta) 0 ;;
  store TACCTL0 0 ;;
  store TACTL 0 ;;
  v <- load BCSCTL1 ;; store BCSCTL1 (Z.land v (Z.lnot Hw.DIVA_3)) ;;
  Ret tt.

(** [void setup()], with [SHOW_DCO_SETTINGS] defined as main.c does.  The
    division in [F_CPU/4096] is C's: it truncates toward zero. *)
Definition setup (cfg : config) : prog unit :=
  store WDTCTL (Hw.WDTPW + Hw.WDTHOLD) ;;
  v <- load P1DIR ;; store P1DIR (Z.lor v Hw.BIT0) ;;
  v <- load P1SEL ;; store P1SEL (Z.lor v Hw.BIT0) ;;
  v <- load P1DIR ;; store P1DIR (Z.lor v Hw.BIT4) ;;
  v <- load P1SEL ;; store P1SEL (Z.lor v Hw.BIT4) ;;
  v <- load BCSCTL3 ;;
  store BCSCTL3 (Z.lor (Z.land v (Z.lnot Hw.XCAP_3)) Hw.XCAP_0) ;;
  __delay_cycles 0xffff ;;
  (if CALIBRATE_DCO cfg then
     Set_DCO (Int.to_uint16 (Z.quot (F_CPU cfg) 4096))
   else
     store DCOCTL 0x00 ;;
     store BCSCTL1 0x8F ;;
     store DCOCTL 0x7E ;;
     Ret tt) ;;
  SoftSerial_init ;;
  __enable_interrupt ;;
  print (cstring (CRLF ++ ">>Calibrated DCO values are:" ++ CRLF)%string) ;;
  print (cstring "BCSCTL1= 0x") ;;
  v <- load BCSCTL1 ;; print_hexb v ;;
  print (cstring CRLF) ;;
  print (cstring "DCOCTL = 0x") ;;
  v <- load DCOCTL ;; print_hexb v ;;
  print (cstring CRLF).

(** [void loop()], the branch main.c compiles ([#if 1]): the checked read. *)
Definition loop : prog unit :=
  ITree.forever (
    e <- SoftSerial_empty ;;
    if e =? 0 then
      ITree.iter (fun _ : unit =>
        c <- SoftSerial_read ;;
        if negb (c =? -1) then
          SoftSerial_xmit (Int.to_uint8 c) ;;
          Ret (inl tt)
        else Ret (inr tt)) tt
    else Ret tt).

(** [void loop()], the [#else] branch: the unchecked read. *)
Definition loop_nc : prog unit :=
  ITree.forever (
    cnt <- SoftSerial_available ;;
    let cnt := Int.to_uint16 cnt in
    if negb (cnt =? 0) then
      ITree.iter (fun cnt : Z =>
        c <- SoftSerial_read_nc ;;
        let c := Int.to_uint8 c in
        SoftSerial_xmit c ;;
        let cnt := Int.to_uint16 (cnt - 1) in
        if negb (cnt =? 0) then Ret (inl cnt) else Ret (inr tt)) cnt
    else Ret tt).

(** [void main(void)] *)
Definition main (cfg : config) : prog unit :=
  setup cfg ;;
  ITree.forever loop.

(** ** Environments *)

(** A scripted environment answers the calls in turn with the words of a
    list and falls silent when the list is used up: a run against it is a
    finite prefix of an execution. *)
Definition scripted (s : list Z) (c : call) : option (Z * list Z) :=
  match s with
  | [] => None
  | z :: s' => Some (z, s')
  end.

(** All registers cleared. *)
Definition regs0 : regfile := fun _ => 0.

(** ** Reading a trace *)

(** The bytes handed to [SoftSerial_xmit], in order. *)
Fixpoint xmitted (tr : trace) : list Z :=
  match tr with
  | [] => []
  | (CXmit c, _) :: tr' => c :: xmitted tr'
  | _ :: tr' => xmitted tr'
  end.

(** The values [SoftSerial_read] returned, the sentinel -1 left out. *)
Fixpoint delivered (tr : trace) : list Z :=
  match tr with
  | [] => []
  | (CRead, c) :: tr' => if c =? -1 then delivered tr' else c :: delivered tr'
  | _ :: tr' => delivered tr'
  end.

(** ** Monitors

    A monitor is a deterministic automaton over events.  It abstracts the
    control flow of a program: which call may come next, and how the word
    that comes back steers what follows. *)

Section Monitor.

Variable St : Type.

(** The step the monitor allows from a state on an event, if any. *)
Variable next : St -> event -> option St.

(** The calls a program in a given state may be waiting on. *)
Variable waits : St -> call -> Prop.

(** The state reached on a trace; [None] when the trace leaves the monitor. *)
Fixpoint mon (s : St) (tr : trace) : option St :=
  match tr with
  | [] => Some s
  | ev :: tr' =>
      match next s ev with
      | Some s' => mon s' tr'
      | None => None
      end
  end.

(** [follows t s f]: whatever the environment and however long the run, the
    trace of [t] stays in the monitor from [s]; a run that returns [r] leaves
    the monitor in [f r], and a run the environment stops answering is
    waiting on a call the monitor expects. *)
Definition follows {R} (t : prog R) (s : St) (f : R -> St) : Prop :=
  forall (Env : Type) (respond : Env -> call -> option (Z * Env))
         (fuel : nat) (m : machine Env),
    let o := run respond fuel t m in
    exists s', mon s (out_trace o) = Some s' /\
      match out_status o with
      | Done r _ => s' = f r
      | Stuck c => waits s' c
      | OutOfFuel => True
      end.

End Monitor.

(** ** The control points of the echo loop *)

(** Where [loop] stands between two calls: about to poll
    [SoftSerial_empty], about to call [SoftSerial_read], or holding a byte
    it has read and is about to pass to [SoftSerial_xmit]. *)
Inductive echo_point : Type :=
| AtPoll
| AtRead
| AtXmit (c : Z).

Definition echo_next (p : echo_point) (ev : event) : option echo_point :=
  match p, ev with
  | AtPoll, (CEmpty, e) => Some (if e =? 0 then AtRead else AtPoll)
  | AtRead, (CRead, c) => Some (if c =? -1 then AtPoll else AtXmit c)
  | AtXmit c, (CXmit b, _) => if b =? Int.to_uint8 c then Some AtRead else None
  | _, _ => None
  end.

Definition echo_waits (p : echo_point) (c : call) : Prop :=
  match p with
  | AtPoll => c = CEmpty
  | AtRead => c = CRead
  | AtXmit v => c = CXmit (Int.to_uint8 v)
  end.

(** The byte read and not yet passed on. *)
Definition echo_pending (p : echo_point) : list Z :=
  match p with
  | AtXmit c => [Int.to_uint8 c]
  | _ => []
  end.

(** An event that belongs to a drain: neither a poll nor a read of the
    sentinel. *)
Definition in_drain (ev : event) : Prop := fst ev <> CEmpty /\ ev <> (CRead, -1).

(** The calls [loop] makes. *)
Definition echo_call (c : call) : Prop :=
  match c with
  | CEmpty | CRead | CXmit _ => True
  | _ => False
  end.

(** ** Pace

    [paced a t]: a run of [t] makes a call at least every second step.  A
    run that is cut short has a trace at least half as long as the fuel it
    was given; a run that returns [r] has [a r] steps in hand on that
    bound. *)
Definition paced {R} (a : R -> nat) (t : prog R) : Prop :=
  forall (Env : Type) (respond : Env -> call -> option (Z * Env))
         (fuel : nat) (m : machine Env),
    let o := run respond fuel t m in
    match out_status o with
    | Done r spare => (fuel - spare + a r <= 2 * List.length (out_trace o))%nat
    | Stuck _ => True
    | OutOfFuel => (fuel <= 2 * List.length (out_trace o))%nat
    end.

(** ** The control points of the unchecked-read loop *)

(** Where [loop_nc] stands: about to ask [SoftSerial_available], about to
    call [SoftSerial_read_nc] with [cnt] reads still to do, or holding the
    byte [c] of the current read. *)
Inductive nc_point : Type :=
| NcPoll
| NcRead (cnt : Z)
| NcXmit (c : Z) (cnt : Z).

(** [while (--cnt)]: the point after one more byte is done. *)
Definition nc_after (cnt : Z) : nc_point :=
  let cnt := Int.to_uint16 (cnt - 1) in
  if cnt =? 0 then NcPoll else NcRead cnt.

Definition nc_next (p : nc_point) (ev : event) : option nc_point :=
  match p, ev with
  | NcPoll, (CAvailable, n) =>
      let cnt := Int.to_uint16 n in
      Some (if cnt =? 0 then NcPoll else NcRead cnt)
  | NcRead cnt, (CReadNc, c) => Some (NcXmit (Int.to_uint8 c) cnt)
  | NcXmit c cnt, (CXmit b, _) => if b =? c then Some (nc_after cnt) else None
  | _, _ => None
  end.

Definition nc_waits (p : nc_point) (c : call) : Prop :=
  match p with
  | NcPoll => c = CAvailable
  | NcRead _ => c = CReadNc
  | NcXmit v _ => c = CXmit v
  end.

(** The reads still to do at a control point. *)
Definition nc_remaining (p : nc_point) : Z :=
  match p with
  | NcPoll => 0
  | NcRead cnt => cnt
  | NcXmit _ cnt => cnt - 1
  end.

(** The counter of [loop_nc] stays within [unsigned]. *)
Definition nc_wf (p : nc_point) : Prop :=
  match p with
  | NcPoll => True
  | NcRead cnt | NcXmit _ cnt => 1 <= cnt <= 65535
  end.

(** The calls [loop_nc] makes. *)
Definition nc_call (c : call) : Prop :=
  match c with
  | CAvailable | CReadNc | CXmit _ => True
  | _ => False
  end.

(** ** Call sequences *)

Definition reg_eq_dec (a b : reg) : {a = b} + {a <> b}.
Proof. decide equality. Defined.

Definition call_eq_dec (a b : call) : {a = b} + {a <> b}.
Proof. decide equality; try apply Z.eq_dec; apply reg_eq_dec. Defined.

(** The calls of a trace, answers dropped. *)
Definition calls (tr : trace) : list call := List.map fst tr.

(** A monitor that expects a given list of calls, in order, whatever the
    answers, and nothing after them. *)
Definition expect_next (l : list call) (ev : event) : option (list call) :=
  match l with
  | [] => None
  | c :: l' => if call_eq_dec c (fst ev) then Some l' else None
  end.

Definition expect_waits (l : list call) (c : call) : Prop :=
  match l with
  | [] => False
  | c0 :: _ => c = c0
  end.

(** An environment that answers every call with the same word. *)
Definition always (z : Z) (e : unit) (c : call) : option (Z * unit) := Some (z, e).

(** ** Hexadecimal digits *)

(** The value of an upper-case hexadecimal digit character. *)
Definition hexval (d : Z) : option Z :=
  if (48 <=? d) && (d <=? 57) then Some (d - 48)
  else if (65 <=? d) && (d <=? 70) then Some (d - 55)
  else None.

(** The byte two hexadecimal digit characters spell. *)
Definition unhex2 (hi lo : Z) : option Z :=
  match hexval hi, hexval lo with
  | Some h, Some l => Some (16 * h + l)
  | _, _ => None
  end.

(** ** The start-up sequence *)

(** Register accesses and delays: what [setup] does before it starts the
    driver. *)
Definition hw_call (c : call) : bool :=
  match c with
  | CLoad _ | CStore _ _ | CDelayCycles _ => true
  | _ => false
  end.

(** The calls into the driver, and the global interrupt enable. *)
Definition driver_call (c : call) : bool :=
  match c with
  | CXmit _ | CEmpty | CRead | CAvailable | CReadNc | CEnableInterrupt => true
  | _ => false
  end.

(** The first line [setup] prints, without its terminating NUL. *)
Definition banner : list Z :=
  removelast (cstring (CRLF ++ ">>Calibrated DCO values are:" ++ CRLF)%string).

(** What [setup] does right after [SoftSerial_init()]. *)
Definition after_init : list call := CEnableInterrupt :: List.map CXmit banner.

(** Where the program stands with respect to [SoftSerial_init]: still
    configuring the clocks, with [n] register accesses and delays done; or
    past the call, with the calls [todo] to make next. *)
Inductive boot_point : Type :=
| Booting (n : nat)
| Started (todo : list call).

(** [limit], when given, bounds the number of steps before the call; they are
    counted only then. *)
Definition boot_next (limit : option nat) (p : boot_point) (ev : event)
  : option boot_point :=
  match p with
  | Booting n =>
      match fst ev with
      | CInit => Some (Started after_init)
      | c =>
          if hw_call c then
            match limit with
            | Some k => if (n <? k)%nat then Some (Booting (S n)) else None
            | None => Some (Booting n)
            end
          else None
      end
  | Started (c :: l) => if call_eq_dec c (fst ev) then Some (Started l) else None
  | Started [] =>
      match fst ev with
      | CInit => None
      | _ => Some (Started [])
      end
  end.

Definition boot_waits (p : boot_point) (c : call) : Prop :=
  match p with
  | Booting _ => hw_call c = true \/ c = CInit
  | Started (c0 :: _) => c = c0
  | Started [] => c <> CInit
  end.

(** A state from which no second [SoftSerial_init] is expected. *)
Definition init_free (p : boot_point) : Prop :=
  match p with
  | Booting _ => True
  | Started l => ~ In CInit l
  end.

(** An environment in which [SoftSerial_init] returns [r] and every other
    call returns 0. *)
Definition init_answers (r : Z) (e : unit) (c : call) : option (Z * unit) :=
  match c with
  | CInit => Some (r, e)
  | _ => Some (0, e)
  end.

(** The build of main.c with [CALIBRATE_DCO] left undefined. *)
Definition constants_build : config := Config false 16000000.

(** The build with [CALIBRATE_DCO] defined, for a 16 MHz clock. *)
Definition calibrating_build : config := Config true 16000000.

(** ** The receive queue

    Modelled from the spec: the RX queue of the driver and the operations on
    it (softserial.c is not among the sources).  The queue is a bounded FIFO
    (spec 4.4); the receive interrupt is its only producer and the caller its
    only consumer (spec 3); a byte that completes while the queue is full is
    dropped (spec 4.3).  [available()] is the number of buffered bytes,
    [read()] returns the oldest byte or the sentinel -1, and [read_nc()]
    returns the oldest byte and is undefined on an empty queue (spec 6). *)

Record rx_state : Type := RxState {
  rx_buffer : list Z;            (* buffered bytes, oldest first *)
  rx_arrivals : list (list Z)    (* bytes the interrupt completes before each
                                    of the calls to come *)
}.

(** [try_push]: the newest byte is dropped when the queue is full. *)
Definition rx_push (capacity : nat) (q : list Z) (b : Z) : list Z :=
  if (List.length q <? capacity)%nat then q ++ [b] else q.

(** The receive interrupt, run before a call is served. *)
Definition rx_isr (capacity : nat) (s : rx_state) : rx_state :=
  match rx_arrivals s with
  | [] => s
  | bs :: rest => RxState (fold_left (rx_push capacity) bs (rx_buffer s)) rest
  end.

(** The driver as an environment.  [SoftSerial_read_nc] on an empty queue
    has no answer: its behaviour is undefined. *)
Definition rx_driver (capacity : nat) (s : rx_state) (c : call)
  : option (Z * rx_state) :=
  let s := rx_isr capacity s in
  match c with
  | CAvailable => Some (Z.of_nat (List.length (rx_buffer s)), s)
  | CEmpty => Some (match rx_buffer s with [] => 1 | _ => 0 end, s)
  | CRead =>
      match rx_buffer s with
      | [] => Some (-1, s)
      | b :: q => Some (b, RxState q (rx_arrivals s))
      end
  | CReadNc =>
      match rx_buffer s with
      | [] => None
      | b :: q => Some (b, RxState q (rx_arrivals s))
      end
  | _ => Some (0, s)
  end.

(** The bytes known to be buffered at a control point of [loop_nc]. *)
Definition nc_covered (p : nc_point) (s : rx_state) : Prop :=
  match p with
  | NcPoll => True
  | NcRead cnt => 1 <= cnt <= Z.of_nat (List.length (rx_buffer s))
  | NcXmit _ cnt => 1 <= cnt <= Z.of_nat (List.length (rx_buffer s)) + 1
  end.

(** ** Replaying a trace *)

Section Replay.

Context {Env : Type}.
Variable respond : Env -> call -> option (Z * Env).

(** The machine a trace leads to, when the environment gives these answers. *)
Fixpoint replay (m : machine Env) (tr : trace) : option (machine Env) :=
  match tr with
  | [] => Some m
  | (c, z) :: tr' =>
      match perform respond m c with
      | Some (z', m') => if z' =? z then replay m' tr' else None
      | None => None
      end
  end.

End Replay.

(** The number of calls of [SoftSerial_read_nc] in a trace. *)
Definition reads_nc (tr : trace) : Z :=
  Z.of_nat (count_occ call_eq_dec (calls tr) CReadNc).

(** ** Reading the clock calibration *)

(** The value a read of register [r] returns. *)
Definition reg_get {Env} (m : machine Env) (r : reg) : Z := reg_trunc r (regs m r).

(** The RSEL field of BCSCTL1, and the bits above it. *)
Definition rsel (b : Z) : Z := Z.land b 0x0f.
Definition above_rsel (b : Z) : Z := Z.shiftr b 4.

(** The values read from TACCR0, in order. *)
Fixpoint captures (tr : trace) : list Z :=
  match tr with
  | [] => []
  | (CLoad TACCR0, v) :: tr' => v :: captures tr'
  | _ :: tr' => captures tr'
  end.

(** The capture differences [Set_DCO] measures: each round reads TACCR0
    twice, first for [Compare], then for the next [Oldcapture]. *)
Fixpoint differences (Oldcapture : Z) (caps : list Z) : list Z :=
  match caps with
  | c :: old :: rest => Int.to_uint16 (c - Oldcapture) :: differences old rest
  | _ => []
  end.

(** BCSCTL1 after one round of the calibration loop, from its value [b]
    before, the value [d'] DCOCTL has after the round, and the measured
    difference [cmp]. *)
Definition rsel_after (Delta cmp d' b : Z) : Z :=
  if Delta =? cmp then b
  else if Delta <? cmp then
    if (d' =? 0xFF) && negb (rsel b =? 0) then b - 1 else b
  else
    if (d' =? 0x00) && negb (rsel b =? 0x0f) then b + 1 else b.

(** DCOCTL after one round. *)
Definition dco_after (Delta cmp d : Z) : Z :=
  if Delta =? cmp then d
  else if Delta <? cmp then Int.to_uint8 (d - 1)
  else Int.to_uint8 (d + 1).

(** What a block that only adjusts DCOCTL and BCSCTL1 leaves behind: the
    environment untouched, no capture read, the bits above RSEL as they
    were; and, if it ran to its end, [d'] in DCOCTL and [b'] in BCSCTL1. *)
Definition adjusted {Env} (m : machine Env) (d' b' : Z) (o : outcome Env unit)
  : Prop :=
  env (out_machine o) = env m
  /\ captures (out_trace o) = []
  /\ above_rsel (reg_get (out_machine o) BCSCTL1) = above_rsel (reg_get m BCSCTL1)
  /\ (forall r n, out_status o = Done r n ->
        reg_get (out_machine o) DCOCTL = d' /\ reg_get (out_machine o) BCSCTL1 = b').

(** What one round of the calibration loop, entered with [Oldcapture] and
    with the captures [caps] already read, leaves behind: the bits above RSEL
    as they were; and, if it ran to its end, two captures [c1], [c2] read, the
    result decided by the difference [c1 - Oldcapture], and DCOCTL and
    BCSCTL1 adjusted by it. *)
Definition round_done {Env} (m : machine Env) (Delta Oldcapture : Z)
           (caps : list Z) (o : outcome Env (Z + unit)) : Prop :=
  above_rsel (reg_get (out_machine o) BCSCTL1) = above_rsel (reg_get m BCSCTL1)
  /\ (forall r n, out_status o = Done r n ->
        exists c1 c2,
          caps ++ captures (out_trace o) = [c1; c2]
          /\ r = (if Delta =? Int.to_uint16 (c1 - Oldcapture)
                  then inr tt else inl c2)
          /\ reg_get (out_machine o) DCOCTL
             = dco_after Delta (Int.to_uint16 (c1 - Oldcapture)) (reg_get m DCOCTL)
          /\ reg_get (out_machine o) BCSCTL1
             = rsel_after Delta (Int.to_uint16 (c1 - Oldcapture))
                 (reg_get (out_machine o) DCOCTL) (reg_get m BCSCTL1)).

(** ** Effects of a run that returns *)

(** [ensures t Q]: whenever a run of [t] returns, [Q] relates the registers
    it started from, the value returned, the trace and the registers it
    ends with. *)
Definition ensures {R} (t : prog R)
           (Q : regfile -> R -> trace -> regfile -> Prop) : Prop :=
  forall (Env : Type) (respond : Env -> call -> option (Z * Env))
         (fuel : nat) (m : machine Env) r n,
    let o := run respond fuel t m in
    out_status o = Done r n ->
    Q (regs m) r (out_trace o) (regs (out_machine o)).

(** An environment that has an answer to every call. *)
Definition answers {Env} (respond : Env -> call -> option (Z * Env)) : Prop :=
  forall e c, c <> CFault -> respond e c <> None.

(** [within k t]: against an environment that answers, [t] returns after at
    most [k] steps. *)
Definition within {R} (k : nat) (t : prog R) : Prop :=
  forall (Env : Type) (respond : Env -> call -> option (Z * Env))
         (fuel : nat) (m : machine Env),
    answers respond -> (k < fuel)%nat ->
    exists r n, out_status (run respond fuel t m) = Done r n /\ (fuel <= n + k)%nat.

(** ** What [setup] prints *)

(** The characters of a string literal, without the terminating NUL. *)
Definition text (s : string) : list Z :=
  List.map (fun a => Z.of_N (N_of_ascii a)) (list_ascii_of_string s).

(** The two characters [print_hexb] sends for the byte [c]. *)
Definition hex_digits (c : Z) : list Z :=
  [nth (Z.to_nat (Z.shiftr c 4)) hextbl 0; nth (Z.to_nat (Z.land c 0x0F)) hextbl 0].

(** The lines [setup] prints when BCSCTL1 holds [b] and DCOCTL holds [d]. *)
Definition dco_report (b d : Z) : list Z :=
  text (CRLF ++ ">>Calibrated DCO values are:" ++ CRLF)
  ++ text "BCSCTL1= 0x" ++ hex_digits b ++ text CRLF
  ++ text "DCOCTL = 0x" ++ hex_digits d ++ text CRLF.

(** ** Footprints *)

(** A monitor that allows the calls of a given set, and nothing else. *)
Definition only_next (allowed : call -> bool) (s : unit) (ev : event) : option unit :=
  if allowed (fst ev) then Some tt else None.

Definition only_waits (allowed : call -> bool) (s : unit) (c : call) : Prop :=
  allowed c = true.

(** The register accesses of [Set_DCO]: it reads and writes BCSCTL1 and
    DCOCTL, reads TACCTL0 and TACCR0, and writes TACCTL0 and TACTL. *)
Definition clock_call (c : call) : bool :=
  match c with
  | CLoad BCSCTL1 | CLoad DCOCTL | CLoad TACCTL0 | CLoad TACCR0 => true
  | CStore BCSCTL1 _ | CStore DCOCTL _ | CStore TACCTL0 _ | CStore TACTL _ => true
  | _ => false
  end.

(** ** Reading a trace of the unchecked-read loop *)

(** The values [SoftSerial_read_nc] returned. *)
Fixpoint delivered_nc (tr : trace) : list Z :=
  match tr with
  | [] => []
  | (CReadNc, c) :: tr' => c :: delivered_nc tr'
  | _ :: tr' => delivered_nc tr'
  end.

(** The byte [loop_nc] has read and not yet passed on. *)
Definition nc_pending (p : nc_point) : list Z :=
  match p with
  | NcXmit c _ => [c]
  | _ => []
  end.

(** ** The result of the calibration *)


(** ** The frequency ladder *)

(** RSEL and DCOCTL taken together: the range in the upper four bits, the
    DCO and modulator setting in the lower eight. *)
Definition dco_position {Env} (m : machine Env) : Z :=
  256 * rsel (reg_get m BCSCTL1) + reg_get m DCOCTL.

(** ** Results that are not looked at *)

Definition is_init (c : call) : bool :=
  match c with CInit => true | _ => false end.

Definition is_xmit (c : call) : bool :=
  match c with CXmit _ => true | _ => false end.

(** The environment [respond], except that every call selected by [sel]
    hands back the word [r]; what the call does to the environment is as in
    [respond]. *)
Definition returning {Env} (sel : call -> bool) (r : Z)
           (respond : Env -> call -> option (Z * Env)) (e : Env) (c : call)
  : option (Z * Env) :=
  if sel c then
    match respond e c with
    | Some (_, e') => Some (r, e')
    | None => None
    end
  else respond e c.

(** A trace with the answers to the selected calls replaced by [r]. *)
Definition answered (sel : call -> bool) (r : Z) (tr : trace) : trace :=
  List.map (fun ev => if sel (fst ev) then (fst ev, r) else ev) tr.

(** [blind_to sel t]: [t] does not look at what the calls selected by [sel]
    return.  Whatever word they hand back, [t] makes the same calls with the
    same arguments, gets to the same machine state and ends the same way. *)
Definition blind_to {R} (sel : call -> bool) (t : prog R) : Prop :=
  forall (Env : Type) (respond : Env -> call -> option (Z * Env)) (r : Z)
         (fuel : nat) (m : machine Env),
    let o := run respond fuel t m in
    let o' := run (returning sel r respond) fuel t m in
    out_trace o' = answered sel r (out_trace o)
    /\ out_machine o' = out_machine o
    /\ out_status o' = out_status o.

(** ** The control points of the start-up with calibration

    Where [main] stands when [CALIBRATE_DCO] is defined, as far as
    [SoftSerial_init] is concerned. *)
Inductive cal_point : Type :=
| CalWait (old : Z)     (* before the loop of [Set_DCO], or in it and waiting
                           for a capture, with [Oldcapture = old] *)
| CalAck (old : Z)      (* a capture is flagged: [TACCTL0 &= ~CCIFG] reads
                           TACCTL0 ... *)
| CalClear (old f : Z)  (* ... and, having read [f], writes it back without
                           the flag *)
| CalFirst (old : Z)    (* [Compare = TACCR0] is to come *)
| CalSecond (cmp : Z)   (* [Compare = cmp] is measured; the second read of
                           TACCR0 is to come *)
| CalEnd (k : nat)      (* the loop has ended, [k] register accesses ago *)
| CalStarted.           (* [SoftSerial_init] has been called *)

(** A write of a register, or a read of one the program owns. *)
Definition own_access (c : call) : bool :=
  match c with
  | CStore _ _ => true
  | CLoad r => negb (hw_driven r)
  | _ => false
  end.

Definition cal_next (Delta : Z) (p : cal_point) (ev : event) : option cal_point :=
  match p with
  | CalWait old =>
      match fst ev with
      | CLoad TACCTL0 =>
          Some (if Z.land Hw.CCIFG (snd ev) =? 0 then CalWait old else CalAck old)
      | CLoad TACCR0 => None
      | c => if hw_call c then Some (CalWait old) else None
      end
  | CalAck old =>
      match fst ev with
      | CLoad TACCTL0 => Some (CalClear old (snd ev))
      | _ => None
      end
  | CalClear old f =>
      match fst ev with
      | CStore TACCTL0 v =>
          if v =? Z.land f (Z.lnot Hw.CCIFG) then Some (CalFirst old) else None
      | _ => None
      end
  | CalFirst old =>
      match fst ev with
      | CLoad TACCR0 => Some (CalSecond (Int.to_uint16 (snd ev - old)))
      | _ => None
      end
  | CalSecond cmp =>
      match fst ev with
      | CLoad TACCR0 => Some (if Delta =? cmp then CalEnd 0 else CalWait (snd ev))
      | _ => None
      end
  | CalEnd k =>
      match fst ev with
      | CInit => if (k =? 4)%nat then Some CalStarted else None
      | c => if own_access c && (k <? 4)%nat then Some (CalEnd (S k)) else None
      end
  | CalStarted =>
      match fst ev with
      | CInit => None
      | _ => Some CalStarted
      end
  end.

Definition cal_waits (p : cal_point) (c : call) : Prop :=
  match p with
  | CalWait _ | CalAck _ | CalClear _ _ | CalFirst _ | CalSecond _ =>
      hw_call c = true
  | CalEnd _ => own_access c = true \/ c = CInit
  | CalStarted => c <> CInit
  end.


(** The calibration has measured [Delta], once, in its last round: with
    [Oldcapture = old] on entry and the captures [caps] already read. *)
Definition calibrated (Delta old : Z) (caps : list Z) (tr : trace) : Prop :=
  exists ds, differences old (caps ++ captures tr) = ds ++ [Delta]
             /\ Forall (fun d => d <> Delta) ds.

(** What the state [p] the monitor is in says about the trace [tr] that led
    to it. *)
Definition cal_reading (Delta old : Z) (caps : list Z) (tr : trace)
           (p : cal_point) : Prop :=
  match p with
  | CalWait _ | CalAck _ | CalClear _ _ | CalFirst _ | CalSecond _ =>
      Forall (fun d => d <> Delta) (differences old (caps ++ captures tr))
      /\ ~ In CInit (calls tr)
  | CalEnd k =>
      calibrated Delta old caps tr /\ ~ In CInit (calls tr)
      /\ (k <= 4)%nat
      /\ exists pre c post,
          tr = pre ++ (CLoad TACCR0, c) :: post /\ List.length post = k
  | CalStarted =>
      exists pre z post,
        tr = pre ++ (CInit, z) :: post
        /\ ~ In CInit (calls pre) /\ ~ In CInit (calls post)
        /\ calibrated Delta old caps pre
        /\ exists pre' c post',
            pre = pre' ++ (CLoad TACCR0, c) :: post' /\ List.length post' = 4%nat
  end.

(** ** The time the calibration takes *)

(** A read of the capture flag register. *)
Definition is_poll (c : call) : bool :=
  match c with
  | CLoad TACCTL0 => true
  | _ => false
  end.

(** The number of reads of TACCTL0 in a trace. *)
Definition polls (tr : trace) : nat :=
  List.length (List.filter (fun ev => is_poll (fst ev)) tr).

(** [spends a t b]: as long as [SoftSerial_init] has not been called, [t]
    has made at most [a] calls beyond six for every read of TACCTL0 it has
    made; when it returns [r], [b r] of this allowance is left. *)
Definition spends {R} (a : nat) (t : prog R) (b : R -> nat) : Prop :=
  forall (Env : Type) (respond : Env -> call -> option (Z * Env))
         (fuel : nat) (m : machine Env),
    let o := run respond fuel t m in
    ~ In CInit (calls (out_trace o)) ->
    (List.length (out_trace o)
     + match out_status o with Done r _ => b r | _ => 0 end
     <= a + 6 * polls (out_trace o))%nat.


(** * Properties *)

(** ** The runner *)

Section RunFacts.

Context {Env : Type}.
Variable respond : Env -> call -> option (Z * Env).

Local Abbreviation run := (run respond).

Lemma run_O R (t : prog R) m : run 0 t m = Outcome [] m OutOfFuel.
Proof. reflexivity. Qed.

Lemma run_ret R (r : R) n m : run (S n) (Ret r) m = Outcome [] m (Done r (S n)).
Proof. reflexivity. Qed.

Lemma run_tau R (t : prog R) n m : run (S n) (Tau t) m = run n t m.
Proof. reflexivity. Qed.

Lemma run_vis R (c : call) (k : Z -> prog R) n m :
  run (S n) (Vis (Do c) k) m =
  match perform respond m c with
  | Some (z, m') => with_event (c, z) (run n (k z) m')
  | None => Outcome [] m (Stuck c)
  end.
Proof. reflexivity. Qed.

(** Strongly bisimilar programs run alike. *)
Lemma run_eq_itree R fuel :
  forall (t1 t2 : prog R) m, t1 ≅ t2 -> run fuel t1 m = run fuel t2 m.
Proof.
  induction fuel as [|n IH]; intros t1 t2 m H; [reflexivity|].
  apply eqit_inv in H. cbn. unfold observe.
  destruct (_observe t1) as [r1|u1|X1 e1 k1], (_observe t2) as [r2|u2|X2 e2 k2];
    cbn in H; try contradiction; try discriminate.
  - now subst.
  - now apply IH.
  - destruct H as [p [He Hk]]. destruct p. cbn in He, Hk. subst e2.
    destruct e1 as [c]. destruct (perform respond m c) as [[z m']|]; [|reflexivity].
    now rewrite (IH _ _ m' (Hk z)).
Qed.

Lemma run_S R (t : prog R) n m :
  run (S n) t m =
  match observe t with
  | RetF r => Outcome [] m (Done r (S n))
  | TauF t' => run n t' m
  | VisF e k =>
      match e in ioE X return (X -> prog R) -> outcome Env R with
      | Do c => fun k =>
          match perform respond m c with
          | Some (z, m') => with_event (c, z) (run n (k z) m')
          | None => Outcome [] m (Stuck c)
          end
      end k
  end.
Proof. reflexivity. Qed.

Lemma then_run_with_event R T ev (o : outcome Env R)
      (k : R -> nat -> machine Env -> outcome Env T) :
  then_run (with_event ev o) k = with_event ev (then_run o k).
Proof. unfold then_run, with_event; cbn. now destruct (out_status o). Qed.

(** A run of [t ;; k] is a run of [t] followed, on what fuel is left, by a
    run of [k]. *)
Lemma run_bind R T (t : prog R) (k : R -> prog T) fuel :
  forall m,
    run fuel (ITree.bind t k) m =
    then_run (run fuel t m) (fun r n m' => run n (k r) m').
Proof.
  revert t. induction fuel as [|n IH]; intros t m; [reflexivity|].
  rewrite (run_eq_itree (S n) m (unfold_bind t k)).
  rewrite (run_S t). destruct (observe t) as [r|t'|X e h].
  - unfold then_run; cbn [out_status out_trace out_machine app].
    now destruct (run (S n) (k r) m).
  - rewrite run_tau. apply IH.
  - destruct e as [c]. rewrite run_vis.
    destruct (perform respond m c) as [[z m']|]; [|reflexivity].
    now rewrite IH, then_run_with_event.
Qed.

Lemma run_call R (c : call) (k : Z -> prog R) n m :
  run (S n) (ITree.bind (do_call c) k) m =
  match perform respond m c with
  | Some (z, m') => with_event (c, z) (run n (k z) m')
  | None => Outcome [] m (Stuck c)
  end.
Proof.
  unfold do_call. rewrite (run_eq_itree (S n) m (bind_trigger _ (Do c) k)).
  apply run_vis.
Qed.

(** A run never reports more spare fuel than it was given, and a finished
    run has at least the step that saw the result. *)
Lemma run_spare R fuel :
  forall (t : prog R) m r n,
    out_status (run fuel t m) = Done r n -> (1 <= n <= fuel)%nat.
Proof.
  induction fuel as [|k IH]; intros t m r n; [discriminate|].
  rewrite run_S. destruct (observe t) as [r'|t'|X e h].
  - cbn. intros [= _ <-]. lia.
  - intros H. apply IH in H. lia.
  - destruct e as [c]. destruct (perform respond m c) as [[z m']|]; [|discriminate].
    cbn. intros H. apply IH in H. lia.
Qed.

Lemma run_tau_pred R (t : prog R) n m : run n (Tau t) m = run (pred n) t m.
Proof. destruct n; reflexivity. Qed.

Lemma run_iter A R (body : A -> prog (A + R)) (i : A) fuel m :
  run fuel (ITree.iter body i) m =
  then_run (run fuel (body i) m)
    (fun lr n m' =>
       match lr with
       | inl i' => run (pred n) (ITree.iter body i') m'
       | inr r => run n (Ret r) m'
       end).
Proof.
  rewrite (run_eq_itree fuel m (unfold_iter body i)), run_bind.
  unfold then_run. destruct (out_status (run fuel (body i) m)) as [[i'|r] n|c|];
    try reflexivity.
  now rewrite run_tau_pred.
Qed.

Lemma run_forever R T (t : prog R) fuel m :
  run fuel (ITree.forever t : prog T) m =
  then_run (run fuel t m) (fun _ n m' => run (pred n) (ITree.forever t) m').
Proof.
  rewrite (run_eq_itree fuel m (unfold_forever t)), run_bind.
  unfold then_run. destruct (out_status (run fuel t m)) as [r n|c|]; try reflexivity.
  now rewrite run_tau_pred.
Qed.

End RunFacts.

(** ** Programs and monitors *)

Section MonitorFacts.

Variable St : Type.
Variable next : St -> event -> option St.
Variable waits : St -> call -> Prop.

Local Abbreviation mon := (mon next).
Local Abbreviation follows := (follows next waits).

Lemma mon_app s tr1 tr2 :
  mon s (tr1 ++ tr2) =
  match mon s tr1 with
  | Some s' => mon s' tr2
  | None => None
  end.
Proof.
  revert s. induction tr1 as [|ev tr1 IH]; intros s; cbn; [reflexivity|].
  destruct (next s ev); [apply IH|reflexivity].
Qed.

Lemma follows_eq_itree R (t1 t2 : prog R) s f :
  t1 ≅ t2 -> follows t1 s f -> follows t2 s f.
Proof.
  intros H F Env respond fuel m. rewrite <- (run_eq_itree respond fuel m H).
  apply F.
Qed.

Lemma follows_ext R (t : prog R) s f g :
  (forall r, f r = g r) -> follows t s f -> follows t s g.
Proof.
  intros H F Env respond fuel m. destruct (F Env respond fuel m) as [s' [Hm Hs]].
  exists s'. split; [assumption|].
  destruct (out_status (run respond fuel t m)); [now rewrite <- H|assumption..].
Qed.

Lemma follows_ret R (r : R) (f : R -> St) : follows (Ret r) (f r) f.
Proof.
  intros Env respond [|n] m; cbn; eexists; split; reflexivity || exact I.
Qed.

(** A single call: every answer is allowed and decides the next state. *)
Lemma follows_call (c : call) s (f : Z -> St) :
  (forall z, next s (c, z) = Some (f z)) -> waits s c ->
  follows (do_call c) s f.
Proof.
  intros Hn Hw Env respond [|n] m; cbn; [now exists s|].
  destruct (perform respond m c) as [[z m']|]; cbn.
  - rewrite Hn. destruct n; cbn; eexists; split; reflexivity || exact I.
  - now exists s.
Qed.

Lemma follows_bind R T (t : prog R) (k : R -> prog T) s f g :
  follows t s f -> (forall r, follows (k r) (f r) g) ->
  follows (ITree.bind t k) s g.
Proof.
  intros Ft Fk Env respond fuel m. rewrite run_bind. unfold then_run.
  destruct (Ft Env respond fuel m) as [s1 [Hm1 Hs1]].
  destruct (out_status (run respond fuel t m)) as [r n|c|]; cbn.
  - subst s1. destruct (Fk r Env respond n (out_machine (run respond fuel t m)))
      as [s2 [Hm2 Hs2]].
    exists s2. rewrite mon_app, Hm1. now split.
  - now exists s1.
  - now exists s1.
Qed.

(** A loop whose body keeps the monitor in the states [J]. *)
Lemma follows_iter A R (body : A -> prog (A + R)) (J : A -> St) (g : R -> St) :
  (forall i, follows (body i) (J i)
               (fun lr => match lr with inl i' => J i' | inr r => g r end)) ->
  forall i, follows (ITree.iter body i) (J i) g.
Proof.
  intros Fb i Env respond fuel. revert i.
  induction fuel as [fuel IH] using lt_wf_ind. intros i m.
  rewrite run_iter. unfold then_run.
  destruct (Fb i Env respond fuel m) as [s1 [Hm1 Hs1]].
  destruct (out_status (run respond fuel (body i) m)) as [[i'|r] n|c|] eqn:Hst; cbn.
  - apply run_spare in Hst. subst s1.
    destruct (IH (pred n) ltac:(lia) i' (out_machine (run respond fuel (body i) m)))
      as [s2 [Hm2 Hs2]].
    exists s2. rewrite mon_app, Hm1. now split.
  - subst s1. apply run_spare in Hst. destruct n as [|n]; [lia|]. cbn.
    exists (g r). rewrite app_nil_r. now split.
  - now exists s1.
  - now exists s1.
Qed.

(** A loop that never exits, around a body that comes back to where it
    started. *)
Lemma follows_forever R T (t : prog R) s (g : T -> St) :
  follows t s (fun _ => s) -> follows (ITree.forever t) s g.
Proof.
  intros Ft Env respond fuel.
  induction fuel as [fuel IH] using lt_wf_ind. intros m.
  rewrite run_forever. unfold then_run.
  destruct (Ft Env respond fuel m) as [s1 [Hm1 Hs1]].
  destruct (out_status (run respond fuel t m)) as [r n|c|] eqn:Hst; cbn.
  - apply run_spare in Hst. subst s1.
    destruct (IH (pred n) ltac:(lia) (out_machine (run respond fuel t m)))
      as [s2 [Hm2 Hs2]].
    exists s2. rewrite mon_app, Hm1. now split.
  - now exists s1.
  - now exists s1.
Qed.

End MonitorFacts.

(** ** The echo loop *)

Lemma to_uint8_idem z : Int.to_uint8 (Int.to_uint8 z) = Int.to_uint8 z.
Proof. unfold Int.to_uint8. apply Z.mod_mod. lia. Qed.

Lemma follows_ret_eq St (next : St -> event -> option St) waits R (r : R) s f :
  s = f r -> follows next waits (Ret r) s f.
Proof. intros ->. apply follows_ret. Qed.

(** [loop] moves between its three control points as [echo_next] says. *)
Lemma loop_follows (g : unit -> echo_point) :
  follows echo_next echo_waits loop AtPoll g.
Proof.
  unfold loop. apply follows_forever.
  eapply follows_bind with (f := fun e => if e =? 0 then AtRead else AtPoll).
  - now apply follows_call.
  - intros e. destruct (e =? 0); [|now apply follows_ret_eq].
    apply follows_iter with (J := fun _ : unit => AtRead). intros [].
    eapply follows_bind with (f := fun c => if c =? -1 then AtPoll else AtXmit c).
    + now apply follows_call.
    + intros c. destruct (c =? -1) eqn:Hc; cbn [negb]; [now apply follows_ret_eq|].
      eapply follows_bind with (f := fun _ => AtRead).
      * apply follows_call; [|cbn; now rewrite to_uint8_idem].
        intros z. cbn. now rewrite to_uint8_idem, Z.eqb_refl.
      * intros _. now apply follows_ret_eq.
Qed.

Lemma mon_cons St (next : St -> event -> option St) s ev tr s' :
  mon next s (ev :: tr) = Some s' ->
  exists s1, next s ev = Some s1 /\ mon next s1 tr = Some s'.
Proof. cbn. destruct (next s ev) as [s1|]; [eauto|discriminate]. Qed.

Lemma mon_split St (next : St -> event -> option St) s tr1 tr2 s' :
  mon next s (tr1 ++ tr2) = Some s' ->
  exists s1, mon next s tr1 = Some s1 /\ mon next s1 tr2 = Some s'.
Proof. rewrite mon_app. destruct (mon next s tr1) as [s1|]; [eauto|discriminate]. Qed.

(** The steps of the echo monitor, by cases. *)
Lemma echo_next_inv p ev p' :
  echo_next p ev = Some p' ->
  (exists e, p = AtPoll /\ ev = (CEmpty, e) /\ p' = if e =? 0 then AtRead else AtPoll)
  \/ (exists c, p = AtRead /\ ev = (CRead, c) /\ p' = if c =? -1 then AtPoll else AtXmit c)
  \/ (exists c z, p = AtXmit c /\ ev = (CXmit (Int.to_uint8 c), z) /\ p' = AtRead).
Proof.
  destruct p as [| |c], ev as [[] z]; cbn; try discriminate.
  - intros [= <-]. left. eauto.
  - intros [= <-]. right. left. eauto.
  - destruct (c0 =? Int.to_uint8 c) eqn:E; [|discriminate].
    apply Z.eqb_eq in E. subst c0. intros [= <-]. right. right. eauto.
Qed.

(** What has been read, less what is still held, is what has been passed on. *)
Lemma echo_balance tr :
  forall p p', mon echo_next p tr = Some p' ->
    echo_pending p ++ List.map Int.to_uint8 (delivered tr) =
    xmitted tr ++ echo_pending p'.
Proof.
  induction tr as [|ev tr IH]; intros p p' H.
  - cbn in H. injection H as <-. cbn. now rewrite app_nil_r.
  - apply mon_cons in H. destruct H as [p1 [Hn Hm]]. apply IH in Hm.
    apply echo_next_inv in Hn.
    destruct Hn as [[e [-> [-> ->]]] | [[c [-> [-> ->]]] | [c [z [-> [-> ->]]]]]]; cbn.
    + destruct (e =? 0); exact Hm.
    + destruct (c =? -1); cbn in *; [exact Hm|]. now rewrite <- Hm.
    + cbn in Hm. now rewrite <- Hm.
Qed.

(** The loop holds a byte only right after the read that delivered it. *)
Lemma echo_at_xmit tr :
  forall p c, mon echo_next p tr = Some (AtXmit c) ->
    (tr = [] /\ p = AtXmit c) \/ exists tr', tr = tr' ++ [(CRead, c)] /\ c <> -1.
Proof.
  induction tr as [|ev tr IH]; intros p c H.
  - cbn in H. injection H as ->. now left.
  - right. apply mon_cons in H. destruct H as [p1 [Hn Hm]].
    destruct (IH _ _ Hm) as [[-> ->] | [tr' [-> Hc]]].
    + exists []. apply echo_next_inv in Hn.
      destruct Hn as [[e [_ [_ He]]] | [[c' [_ [-> Hc']]] | [c' [z [_ [_ Hc']]]]]].
      * now destruct (e =? 0).
      * destruct (c' =? -1) eqn:E; [discriminate|]. injection Hc' as ->.
        apply Z.eqb_neq in E. now split.
      * discriminate.
    + exists (ev :: tr'). now split.
Qed.

Lemma mon_at St (next : St -> event -> option St) s pre ev post s' :
  mon next s (pre ++ ev :: post) = Some s' ->
  exists s1 s2,
    mon next s pre = Some s1 /\ next s1 ev = Some s2 /\ mon next s2 post = Some s'.
Proof.
  intros H. apply mon_split in H. destruct H as [s1 [H1 H2]].
  apply mon_cons in H2. destruct H2 as [s2 [H2 H3]]. eauto.
Qed.

(** Whenever the loop is inside the drain, the last poll answered "not
    empty" and nothing but reads of bytes and their transmissions came
    since. *)
Lemma echo_draining tr :
  forall p p', mon echo_next p tr = Some p' -> p' <> AtPoll ->
    (p <> AtPoll /\ Forall in_drain tr)
    \/ exists tr1 tr2, tr = tr1 ++ (CEmpty, 0) :: tr2 /\ Forall in_drain tr2.
Proof.
  induction tr as [|ev tr IH]; intros p p' H Hp'.
  - cbn in H. injection H as <-. left. now split.
  - apply mon_cons in H. destruct H as [p1 [Hn Hm]].
    destruct (IH _ _ Hm Hp') as [[Hp1 Hall] | [tr1 [tr2 [-> Hall]]]].
    + apply echo_next_inv in Hn.
      destruct Hn as [[e [-> [-> ->]]] | [[c [-> [-> ->]]] | [c [z [-> [-> ->]]]]]].
      * destruct (e =? 0) eqn:E; [|contradiction]. apply Z.eqb_eq in E. subst e.
        right. exists [], tr. now split.
      * destruct (c =? -1) eqn:E; [contradiction|]. apply Z.eqb_neq in E.
        left. split; [discriminate|]. constructor; [|assumption].
        split; [discriminate|]. intros [=]. contradiction.
      * left. split; [discriminate|]. constructor; [|assumption].
        split; discriminate.
    + right. exists (ev :: tr1), tr2. now split.
Qed.

(** After a transmit the loop reads again, whatever the transmit returned. *)
Lemma echo_after_xmit p tr p' pre b z ev post :
  mon echo_next p tr = Some p' ->
  tr = pre ++ (CXmit b, z) :: ev :: post -> fst ev = CRead.
Proof.
  intros Hm E. rewrite E in Hm. apply mon_at in Hm.
  destruct Hm as [p1 [p2 [_ [H2 H3]]]]. apply mon_cons in H3.
  destruct H3 as [p3 [H3 _]]. apply echo_next_inv in H2.
  destruct H2 as [[e [_ [[=] _]]] | [[c' [_ [[=] _]]] | [c' [z' [_ [_ ->]]]]]].
  apply echo_next_inv in H3.
  now destruct H3 as [[e [[=] _]] | [[c'' [_ [-> _]]] | [c'' [z'' [[=] _]]]]].
Qed.

(** C2: in [loop], [SoftSerial_read] is called only after [SoftSerial_empty]
    has reported data present, the drain goes on after every byte and stops
    exactly when the sentinel -1 comes back, and what is passed to
    [SoftSerial_xmit] is always a byte just read, never the sentinel.  For
    every prefix [tr] of every execution:
    - before each read there is a poll that answered 0 (not empty), with only
      reads of bytes and their transmissions since;
    - after a read of -1 the next call is the poll again; after a read of a
      byte [c] the next call is [SoftSerial_xmit(c)], and after that
      transmission the next call is a read again;
    - each transmission comes right after a read whose value was not -1 and
      carries that value. *)
Theorem loop_read_protocol :
  forall (Env : Type) (respond : Env -> call -> option (Z * Env))
         (fuel : nat) (m : machine Env),
    let tr := out_trace (run respond fuel loop m) in
    (forall pre c post, tr = pre ++ (CRead, c) :: post ->
       exists pre1 pre2,
         pre = pre1 ++ (CEmpty, 0) :: pre2 /\ Forall in_drain pre2)
    /\ (forall pre c ev post, tr = pre ++ (CRead, c) :: ev :: post ->
          fst ev = if c =? -1 then CEmpty else CXmit (Int.to_uint8 c))
    /\ (forall pre b z ev post, tr = pre ++ (CXmit b, z) :: ev :: post ->
          fst ev = CRead)
    /\ (forall pre b z post, tr = pre ++ (CXmit b, z) :: post ->
          exists pre' c,
            pre = pre' ++ [(CRead, c)] /\ c <> -1 /\ b = Int.to_uint8 c).
Proof.
  intros Env respond fuel m tr.
  destruct (loop_follows (fun _ => AtPoll) respond fuel m) as [p [Hm _]].
  fold tr in Hm. repeat split.
  - intros pre c post E. rewrite E in Hm. apply mon_at in Hm.
    destruct Hm as [p1 [p2 [H1 [H2 _]]]]. apply echo_next_inv in H2.
    destruct H2 as [[e [_ [[=] _]]] | [[c' [-> _]] | [c' [z [_ [[=] _]]]]]].
    destruct (echo_draining _ _ H1) as [[Hp _] | Hex]; [discriminate| |exact Hex].
    contradiction.
  - intros pre c ev post E. rewrite E in Hm. apply mon_at in Hm.
    destruct Hm as [p1 [p2 [_ [H2 H3]]]]. apply mon_cons in H3.
    destruct H3 as [p3 [H3 _]]. apply echo_next_inv in H2.
    destruct H2 as [[e [_ [[=] _]]] | [[c' [-> [[= <-] ->]]] | [c' [z [_ [[=] _]]]]]].
    apply echo_next_inv in H3. destruct (c =? -1).
    + now destruct H3 as [[e [_ [-> _]]] | [[c' [[=] _]] | [c' [z [[=] _]]]]].
    + now destruct H3 as [[e [[=] _]] | [[c' [[=] _]] | [c' [z [[= <-] [-> _]]]]]].
  - intros pre b z ev post E. eapply echo_after_xmit; eassumption.
  - intros pre b z post E. rewrite E in Hm. apply mon_at in Hm.
    destruct Hm as [p1 [p2 [H1 [H2 _]]]]. apply echo_next_inv in H2.
    destruct H2 as [[e [_ [[=] _]]] | [[c' [_ [[=] _]]] | [c' [z' [-> [[= -> _] _]]]]]].
    destruct (echo_at_xmit _ _ H1) as [[_ [=]] | [pre' [-> Hc]]].
    now exists pre', c'.
Qed.

(** ** Pace of loops *)

Lemma paced_eq_itree R (t1 t2 : prog R) a :
  t1 ≅ t2 -> paced a t1 -> paced a t2.
Proof.
  intros H P Env respond fuel m. rewrite <- (run_eq_itree respond fuel m H).
  apply P.
Qed.

Lemma paced_weaken R (t : prog R) (a b : R -> nat) :
  (forall r, (b r <= a r)%nat) -> paced a t -> paced b t.
Proof.
  intros H P Env respond fuel m. specialize (P Env respond fuel m). cbn in *.
  destruct (out_status (run respond fuel t m)) as [r n|c|]; try assumption.
  specialize (H r). lia.
Qed.

Lemma paced_ret R (r : R) : paced (fun _ => 0%nat) (Ret r).
Proof. intros Env respond [|n] m; cbn -[Nat.mul Nat.sub]; lia. Qed.

Lemma paced_call (c : call) : paced (fun _ => 1%nat) (do_call c).
Proof.
  intros Env respond [|n] m; cbn -[Nat.mul Nat.sub]; [lia|].
  destruct (perform respond m c) as [[z m']|]; cbn -[Nat.mul Nat.sub]; [|exact I].
  destruct n; cbn -[Nat.mul Nat.sub]; lia.
Qed.

Lemma paced_bind R T (t : prog R) (k : R -> prog T) (a : R -> nat) (b : T -> nat) :
  paced a t -> (forall r, paced (fun x => b x - a r)%nat (k r)) ->
  paced b (ITree.bind t k).
Proof.
  intros Pt Pk Env respond fuel m. cbn. rewrite run_bind. unfold then_run.
  specialize (Pt Env respond fuel m). cbn in Pt.
  destruct (out_status (run respond fuel t m)) as [r n|c|] eqn:Hst; cbn;
    [|exact I|assumption].
  apply run_spare in Hst.
  specialize (Pk r Env respond n (out_machine (run respond fuel t m))). cbn in Pk.
  rewrite length_app.
  destruct (out_status (run respond n (k r) _)) as [r' n'|c|] eqn:Hst';
    [|exact I|lia].
  apply run_spare in Hst'. lia.
Qed.

(** A loop whose body has a step in hand whenever it goes round again. *)
Lemma paced_iter A R (body : A -> prog (A + R)) (a : R -> nat) :
  (forall i, paced (fun lr => match lr with inl _ => 1 | inr r => a r end)%nat
               (body i)) ->
  forall i, paced a (ITree.iter body i).
Proof.
  intros Pb i Env respond fuel. revert i.
  induction fuel as [fuel IH] using lt_wf_ind. intros i m. cbn.
  rewrite run_iter. unfold then_run.
  specialize (Pb i Env respond fuel m). cbn in Pb.
  destruct (out_status (run respond fuel (body i) m)) as [[i'|r] n|c|] eqn:Hst; cbn;
    [| |exact I|assumption].
  - apply run_spare in Hst.
    specialize (IH (pred n) ltac:(lia) i' (out_machine (run respond fuel (body i) m))).
    cbn in IH. rewrite length_app.
    destruct (out_status (run respond (pred n) _ _)) as [r' n'|c|] eqn:Hst';
      [|exact I|lia].
    apply run_spare in Hst'. lia.
  - apply run_spare in Hst. destruct n as [|n]; [lia|]. cbn.
    rewrite app_nil_r. lia.
Qed.

Lemma paced_forever R T (t : prog R) (a : T -> nat) :
  paced (fun _ => 1%nat) t -> paced a (ITree.forever t).
Proof.
  intros Pt Env respond fuel.
  induction fuel as [fuel IH] using lt_wf_ind. intros m. cbn.
  rewrite run_forever. unfold then_run.
  specialize (Pt Env respond fuel m). cbn in Pt.
  destruct (out_status (run respond fuel t m)) as [r n|c|] eqn:Hst; cbn;
    [|exact I|assumption].
  apply run_spare in Hst.
  specialize (IH (pred n) ltac:(lia) (out_machine (run respond fuel t m))).
  cbn in IH. rewrite length_app.
  destruct (out_status (run respond (pred n) _ _)) as [r' n'|c|] eqn:Hst';
    [|exact I|lia].
  apply run_spare in Hst'. lia.
Qed.

Lemma paced_ret_at R (r : R) (a : R -> nat) : a r = 0%nat -> paced a (Ret r).
Proof.
  intros H Env respond [|n] m; cbn -[Nat.mul Nat.sub]; [lia|]. rewrite H. lia.
Qed.

Lemma loop_paced (a : unit -> nat) : paced a loop.
Proof.
  unfold loop. apply paced_forever.
  apply paced_bind with (a := fun _ => 1%nat); [apply paced_call|].
  intros e. cbn. destruct (e =? 0); [|now apply paced_ret_at].
  apply paced_iter. intros [].
  apply paced_bind with (a := fun _ => 1%nat); [apply paced_call|].
  intros c. destruct (c =? -1); cbn [negb]; [now apply paced_ret_at|].
  apply paced_bind with (a := fun _ => 1%nat); [apply paced_call|].
  intros _. now apply paced_ret_at.
Qed.

Lemma to_uint16_idem z : Int.to_uint16 (Int.to_uint16 z) = Int.to_uint16 z.
Proof. unfold Int.to_uint16. apply Z.mod_mod. lia. Qed.

(** [loop_nc] moves between its control points as [nc_next] says. *)
Lemma loop_nc_follows (g : unit -> nc_point) :
  follows nc_next nc_waits loop_nc NcPoll g.
Proof.
  unfold loop_nc. apply follows_forever.
  eapply follows_bind with
    (f := fun n => if Int.to_uint16 n =? 0 then NcPoll else NcRead (Int.to_uint16 n)).
  - now apply follows_call.
  - intros n. destruct (Int.to_uint16 n =? 0) eqn:E; cbn [negb];
      [now apply follows_ret_eq|].
    apply follows_iter with (J := NcRead). intros cnt.
    eapply follows_bind with (f := fun c => NcXmit (Int.to_uint8 c) cnt).
    + now apply follows_call.
    + intros c. eapply follows_bind with (f := fun _ => nc_after cnt).
      * apply follows_call; [|cbn; now rewrite to_uint8_idem].
        intros z. cbn. now rewrite to_uint8_idem, Z.eqb_refl.
      * intros _. unfold nc_after.
        destruct (Int.to_uint16 (cnt - 1) =? 0); now apply follows_ret_eq.
Qed.

Lemma loop_nc_paced (a : unit -> nat) : paced a loop_nc.
Proof.
  unfold loop_nc. apply paced_forever.
  apply paced_bind with (a := fun _ => 1%nat); [apply paced_call|].
  intros n. cbn. destruct (Int.to_uint16 n =? 0); cbn [negb];
    [now apply paced_ret_at|].
  apply paced_iter. intros cnt.
  apply paced_bind with (a := fun _ => 1%nat); [apply paced_call|].
  intros c. apply paced_bind with (a := fun _ => 1%nat); [apply paced_call|].
  intros _. destruct (Int.to_uint16 (cnt - 1) =? 0); now apply paced_ret_at.
Qed.

Lemma echo_alphabet tr :
  forall p p', mon echo_next p tr = Some p' ->
    Forall (fun ev => echo_call (fst ev)) tr.
Proof.
  induction tr as [|ev tr IH]; intros p p' H; [constructor|].
  apply mon_cons in H. destruct H as [p1 [Hn Hm]].
  constructor; [|now apply IH in Hm].
  apply echo_next_inv in Hn.
  now destruct Hn as [[e [_ [-> _]]] | [[c [_ [-> _]]] | [c [z [_ [-> _]]]]]].
Qed.

Lemma nc_alphabet tr :
  forall p p', mon nc_next p tr = Some p' ->
    Forall (fun ev => nc_call (fst ev)) tr.
Proof.
  induction tr as [|ev tr IH]; intros p p' H; [constructor|].
  apply mon_cons in H. destruct H as [p1 [Hn Hm]].
  constructor; [|now apply IH in Hm].
  destruct p, ev as [[] z]; cbn in Hn; try discriminate; exact I.
Qed.

(** C7: [loop] never blocks waiting on the interrupt handlers.  In both
    variants of the loop every call it makes is a queue poll
    ([SoftSerial_empty], [SoftSerial_available]), a read or a transmit: no
    interrupt is ever disabled or enabled, no register is touched.  The loop
    never returns, it can only be held up inside one of those three calls,
    and while it runs it makes a call at least every second step: it has no
    waiting loop of its own. *)
Theorem loop_polls_without_blocking :
  forall (Env : Type) (respond : Env -> call -> option (Z * Env))
         (fuel : nat) (m : machine Env),
    (let o := run respond fuel loop m in
     Forall (fun ev => echo_call (fst ev)) (out_trace o)
     /\ ~ In CDisableInterrupt (List.map fst (out_trace o))
     /\ (forall r n, out_status o <> Done r n)
     /\ (forall c, out_status o = Stuck c -> echo_call c)
     /\ (out_status o = OutOfFuel -> (fuel <= 2 * List.length (out_trace o))%nat))
    /\
    (let o := run respond fuel loop_nc m in
     Forall (fun ev => nc_call (fst ev)) (out_trace o)
     /\ ~ In CDisableInterrupt (List.map fst (out_trace o))
     /\ (forall r n, out_status o <> Done r n)
     /\ (forall c, out_status o = Stuck c -> nc_call c)
     /\ (out_status o = OutOfFuel -> (fuel <= 2 * List.length (out_trace o))%nat)).
Proof.
  intros Env respond fuel m. split.
  - intros o.
    destruct (loop_follows (fun _ => AtPoll) respond fuel m) as [p [Hm Hs]].
    destruct (loop_follows (fun _ => AtRead) respond fuel m) as [p' [Hm' Hs']].
    pose proof (loop_paced (fun _ => 0%nat) respond fuel m) as Hp.
    fold o in Hm, Hs, Hm', Hs', Hp. cbn in Hp.
    pose proof (echo_alphabet _ _ Hm) as Ha.
    repeat split.
    + exact Ha.
    + intros Hin. apply in_map_iff in Hin. destruct Hin as [ev [E Hin]].
      rewrite Forall_forall in Ha. specialize (Ha ev Hin). now rewrite E in Ha.
    + intros r n E. rewrite E in Hs, Hs'. congruence.
    + intros c E. rewrite E in Hs. now destruct p; cbn in Hs; subst c.
    + intros E. now rewrite E in Hp.
  - intros o.
    destruct (loop_nc_follows (fun _ => NcPoll) respond fuel m) as [p [Hm Hs]].
    destruct (loop_nc_follows (fun _ => NcRead 0) respond fuel m) as [p' [Hm' Hs']].
    pose proof (loop_nc_paced (fun _ => 0%nat) respond fuel m) as Hp.
    fold o in Hm, Hs, Hm', Hs', Hp. cbn in Hp.
    pose proof (nc_alphabet _ _ Hm) as Ha.
    repeat split.
    + exact Ha.
    + intros Hin. apply in_map_iff in Hin. destruct Hin as [ev [E Hin]].
      rewrite Forall_forall in Ha. specialize (Ha ev Hin). now rewrite E in Ha.
    + intros r n E. rewrite E in Hs, Hs'. congruence.
    + intros c E. rewrite E in Hs. now destruct p; cbn in Hs; subst c.
    + intros E. now rewrite E in Hp.
Qed.

(** ** Straight-line output *)

(** A monitor can be read through another one that allows at least the
    same steps. *)
Lemma follows_sim St1 St2 (next1 : St1 -> event -> option St1) waits1
      (next2 : St2 -> event -> option St2) waits2 (h : St1 -> St2)
      R (t : prog R) s f :
  (forall s ev s', next1 s ev = Some s' -> next2 (h s) ev = Some (h s')) ->
  (forall s c, waits1 s c -> waits2 (h s) c) ->
  follows next1 waits1 t s f ->
  follows next2 waits2 t (h s) (fun r => h (f r)).
Proof.
  intros Hn Hw F Env respond fuel m. destruct (F Env respond fuel m) as [s' [Hm Hs]].
  exists (h s'). split.
  - clear Hs F. revert s Hm. generalize (out_trace (run respond fuel t m)) as l.
    induction l as [|ev l IH]; intros s Hm.
    + cbn in *. now injection Hm as <-.
    + apply mon_cons in Hm. destruct Hm as [s1 [H1 H2]].
      cbn. rewrite (Hn _ _ _ H1). now apply IH.
  - destruct (out_status (run respond fuel t m)); [now subst|now apply Hw|exact I].
Qed.

(** A run is stuck only on a call the environment has no answer to. *)
Lemma run_stuck Env (respond : Env -> call -> option (Z * Env)) R fuel :
  forall (t : prog R) m c,
    out_status (run respond fuel t m) = Stuck c ->
    perform respond (out_machine (run respond fuel t m)) c = None.
Proof.
  induction fuel as [|n IH]; intros t m c; [discriminate|].
  rewrite run_S. destruct (observe t) as [r|t'|X e k]; [discriminate|apply IH|].
  destruct e as [c']. destruct (perform respond m c') as [[z m']|] eqn:E.
  - cbn. apply IH.
  - cbn. now intros [= <-].
Qed.

Lemma expect_calls tr :
  forall l l', mon expect_next l tr = Some l' -> l = calls tr ++ l'.
Proof.
  induction tr as [|ev tr IH]; intros l l' H.
  - cbn in H. now injection H as <-.
  - apply mon_cons in H. destruct H as [l1 [Hn Hm]]. apply IH in Hm.
    destruct l as [|c l]; [discriminate|]. cbn in Hn.
    destruct (call_eq_dec c (fst ev)) as [->|]; [|discriminate].
    injection Hn as <-. unfold calls in *. cbn. now rewrite <- Hm.
Qed.

Lemma follows_expect_call (c : call) (rest : list call) :
  follows expect_next expect_waits (do_call c) (c :: rest) (fun _ => rest).
Proof.
  apply follows_call; [|reflexivity].
  intros z. cbn. now destruct (call_eq_dec c c).
Qed.

Lemma putchar_follows c rest :
  follows expect_next expect_waits (putchar c)
    (CXmit (Int.to_uint8 c) :: rest) (fun _ => rest).
Proof.
  unfold putchar. eapply follows_bind; [apply follows_expect_call|].
  intros ?. now apply follows_ret_eq.
Qed.

Lemma print_hexb_follows c rest :
  follows expect_next expect_waits (print_hexb c)
    (CXmit (nth (Z.to_nat (Z.shiftr (Int.to_uint8 c) 4)) hextbl 0)
       :: CXmit (nth (Z.to_nat (Z.land (Int.to_uint8 c) 0x0F)) hextbl 0) :: rest)
    (fun _ => rest).
Proof.
  assert (Hd : forall n, (n < 17)%nat ->
             Int.to_uint8 (nth n hextbl 0) = nth n hextbl 0).
  { intros n Hn. do 17 (destruct n as [|n]; [reflexivity|]). lia. }
  assert (Hhi : (Z.to_nat (Z.shiftr (Int.to_uint8 c) 4) < 17)%nat).
  { rewrite Z.shiftr_div_pow2 by lia. unfold Int.to_uint8.
    pose proof (Z.mod_pos_bound c 256 ltac:(lia)).
    assert (c mod 256 / 2 ^ 4 < 16) by (apply Z.div_lt_upper_bound; lia).
    assert (0 <= c mod 256 / 2 ^ 4) by (apply Z.div_pos; lia). lia. }
  assert (Hlo : (Z.to_nat (Z.land (Int.to_uint8 c) 0x0F) < 17)%nat).
  { change 0x0F with (Z.ones 4). rewrite Z.land_ones by lia.
    pose proof (Z.mod_pos_bound (Int.to_uint8 c) (2 ^ 4) ltac:(lia)). lia. }
  unfold print_hexb, SoftSerial_xmit. rewrite (Hd _ Hhi), (Hd _ Hlo).
  eapply follows_bind; [apply follows_expect_call|]. intros ?.
  eapply follows_bind; [apply follows_expect_call|]. intros ?.
  now apply follows_ret_eq.
Qed.

(** [print] from a first character [c], over characters without NUL up to
    the next NUL. *)
Lemma print_follows chars :
  forall c after rest, Forall (fun x => x <> 0) chars ->
    follows expect_next expect_waits (print (c :: chars ++ 0 :: after))
      (List.map CXmit (List.map Int.to_uint8 (c :: chars)) ++ rest) (fun _ => rest).
Proof.
  induction chars as [|c' chars IH]; intros c after rest Hnz.
  - cbn. eapply follows_bind; [apply follows_expect_call|].
    intros ?. now apply follows_ret_eq.
  - inversion Hnz as [|? ? Hc' Hnz']; subst.
    cbn [print app List.map]. eapply follows_bind; [apply follows_expect_call|].
    intros ?. apply Z.eqb_neq in Hc'. rewrite Hc'. now apply IH.
Qed.

Lemma putchar_paced c : paced (fun _ => 1%nat) (putchar c).
Proof.
  unfold putchar. apply paced_bind with (a := fun _ => 1%nat); [apply paced_call|].
  intros ?. now apply paced_ret_at.
Qed.

Lemma print_hexb_paced c : paced (fun _ => 1%nat) (print_hexb c).
Proof.
  unfold print_hexb.
  apply paced_bind with (a := fun _ => 1%nat); [apply paced_call|]. intros ?.
  apply paced_weaken with (a := fun _ => 1%nat); [intros; lia|].
  apply paced_bind with (a := fun _ => 1%nat); [apply paced_call|].
  intros ?. now apply paced_ret_at.
Qed.

Lemma paced_spin R (a : R -> nat) : paced a (ITree.bind (do_call CFault) (fun _ => ITree.spin)).
Proof.
  intros Env respond [|n] m; cbn -[Nat.mul Nat.sub]; [lia|exact I].
Qed.

Lemma print_paced s : paced (fun _ => 1%nat) (print s).
Proof.
  induction s as [|c s IH]; [apply paced_spin|].
  cbn [print]. apply paced_bind with (a := fun _ => 1%nat); [apply paced_call|].
  intros ?. destruct s as [|c' s']; [apply paced_spin|].
  destruct (c' =? 0); [now apply paced_ret_at|].
  apply paced_weaken with (a := fun _ => 1%nat); [intros; lia|exact IH].
Qed.

Lemma xmitted_calls tr bs : calls tr = List.map CXmit bs -> xmitted tr = bs.
Proof.
  revert bs. induction tr as [|[c z] tr IH]; intros [|b bs]; cbn; try discriminate.
  - reflexivity.
  - intros [= -> H]. now rewrite (IH _ H).
Qed.

(** A program that only transmits and is known to make the calls [l] runs
    to its end once it has more than two steps for each of them, when the
    environment answers every transmit. *)
Lemma expect_completes R (t : prog R) (l : list call) (a : R -> nat) :
  follows expect_next expect_waits t l (fun _ => []) -> paced a t ->
  Forall (fun c => exists b, c = CXmit b) l ->
  forall Env (respond : Env -> call -> option (Z * Env)) fuel m,
    (forall e b, respond e (CXmit b) <> None) ->
    (2 * List.length l < fuel)%nat ->
    exists r n, out_status (run respond fuel t m) = Done r n.
Proof.
  intros F P Hx Env respond fuel m Hans Hfuel.
  destruct (F Env respond fuel m) as [l' [Hm Hs]]. specialize (P Env respond fuel m).
  cbn in P. apply expect_calls in Hm.
  assert (Hlen : (List.length (out_trace (run respond fuel t m)) <= List.length l)%nat).
  { rewrite Hm. unfold calls. rewrite length_app, length_map. apply Nat.le_add_r. }
  destruct (out_status (run respond fuel t m)) as [r n|c|] eqn:Hst.
  - eauto.
  - exfalso. apply run_stuck in Hst. destruct l' as [|c0 l']; [contradiction|].
    cbn in Hs. subst c0. rewrite Forall_forall in Hx.
    destruct (Hx c) as [b ->]; [rewrite Hm; apply in_or_app; right; now left|].
    cbn in Hst. specialize (Hans (env (out_machine (run respond fuel t m))) b).
    now destruct (respond _ (CXmit b)) as [[z e']|].
  - lia.
Qed.

(** ** Hexadecimal output *)

Lemma hexval_hextbl_nat k :
  (k < 16)%nat ->
  hexval (nth k hextbl 0) = Some (Z.of_nat k)
  /\ In (nth k hextbl 0) (firstn 16 hextbl).
Proof.
  intros Hk.
  do 16 (destruct k as [|k]; [split; [reflexivity|cbn; tauto]|]).
  lia.
Qed.

Lemma hexval_hextbl n :
  0 <= n < 16 ->
  hexval (nth (Z.to_nat n) hextbl 0) = Some n
  /\ In (nth (Z.to_nat n) hextbl 0) (firstn 16 hextbl).
Proof.
  intros Hn. destruct (@hexval_hextbl_nat (Z.to_nat n) ltac:(lia)) as [Hv Hi].
  split; [|exact Hi]. rewrite Hv. f_equal. lia.
Qed.

Lemma nibbles c :
  0 <= c < 256 ->
  0 <= Z.shiftr c 4 < 16 /\ 0 <= Z.land c 0x0F < 16
  /\ 16 * Z.shiftr c 4 + Z.land c 0x0F = c.
Proof.
  intros Hc. rewrite Z.shiftr_div_pow2 by lia.
  change 0x0F with (Z.ones 4). rewrite Z.land_ones by lia.
  change (2 ^ 4) with 16.
  pose proof (Z.div_mod c 16 ltac:(lia)). pose proof (Z.mod_pos_bound c 16 ltac:(lia)).
  assert (c / 16 < 16) by (apply Z.div_lt_upper_bound; lia).
  assert (0 <= c / 16) by (apply Z.div_pos; lia). lia.
Qed.

(** C9: for every byte [c], [print_hexb(c)] transmits two characters of
    "0123456789ABCDEF": the digit of the high nibble [c >> 4], then the digit
    of the low nibble [c & 0x0F].  Read back as hexadecimal they give [c], so
    two bytes with the same output are equal.  The two calls are all the
    function does, in every environment, and it returns as soon as both are
    answered. *)
Theorem print_hexb_roundtrip :
  forall c, 0 <= c < 256 ->
    let hi := nth (Z.to_nat (Z.shiftr c 4)) hextbl 0 in
    let lo := nth (Z.to_nat (Z.land c 0x0F)) hextbl 0 in
    In hi (firstn 16 hextbl) /\ In lo (firstn 16 hextbl)
    /\ unhex2 hi lo = Some c
    /\ (forall c', 0 <= c' < 256 ->
          nth (Z.to_nat (Z.shiftr c' 4)) hextbl 0 = hi ->
          nth (Z.to_nat (Z.land c' 0x0F)) hextbl 0 = lo -> c' = c)
    /\ forall (Env : Type) (respond : Env -> call -> option (Z * Env))
              (fuel : nat) (m : machine Env),
        let o := run respond fuel (print_hexb c) m in
        (exists rest, [CXmit hi; CXmit lo] = calls (out_trace o) ++ rest)
        /\ (forall r n, out_status o = Done r n -> xmitted (out_trace o) = [hi; lo])
        /\ ((forall e b, respond e (CXmit b) <> None) -> (4 < fuel)%nat ->
            exists r n, out_status o = Done r n).
Proof.
  intros c Hc hi lo.
  destruct (nibbles Hc) as [Hh [Hl Hsum]].
  destruct (hexval_hextbl Hh) as [Vh Ih], (hexval_hextbl Hl) as [Vl Il].
  assert (Hrt : unhex2 hi lo = Some c).
  { unfold unhex2, hi, lo. rewrite Vh, Vl. now rewrite Hsum. }
  split; [exact Ih|]. split; [exact Il|]. split; [exact Hrt|]. split.
  - intros c' Hc' Ehi Elo.
    destruct (nibbles Hc') as [Hh' [Hl' Hsum']].
    destruct (hexval_hextbl Hh') as [Vh' _], (hexval_hextbl Hl') as [Vl' _].
    assert (Hrt' : unhex2 hi lo = Some c').
    { unfold unhex2. rewrite <- Ehi, <- Elo, Vh', Vl'. now rewrite Hsum'. }
    congruence.
  - intros Env respond fuel m o.
    pose proof (print_hexb_follows c []) as F.
    assert (E8 : Int.to_uint8 c = c) by (unfold Int.to_uint8; apply Z.mod_small; lia).
    rewrite E8 in F. fold hi lo in F.
    destruct (F Env respond fuel m) as [l' [Hm Hs]]. fold o in Hm, Hs.
    apply expect_calls in Hm. repeat split.
    + now exists l'.
    + intros r n E. rewrite E in Hs. subst l'. rewrite app_nil_r in Hm.
      now apply (xmitted_calls _ [hi; lo]).
    + intros Hans Hfuel.
      apply (expect_completes F (print_hexb_paced c)); try assumption.
      repeat constructor; eauto.
Qed.

(** The byte 0xA7 is printed as "A7". *)
Lemma print_hexb_roundtrip_witness :
  unhex2 65 55 = Some 0xA7
  /\ xmitted (out_trace (run (always 0) 5 (print_hexb 0xA7) (Machine regs0 tt)))
     = [65; 55].
Proof.
  pose proof (@print_hexb_roundtrip 0xA7 ltac:(lia)) as H. cbv zeta in H.
  destruct H as [_ [_ [Hrt [_ Hrun]]]]. split; [exact Hrt|].
  destruct (Hrun unit (always 0) 5%nat (Machine regs0 tt)) as [_ [Hd Hfin]].
  destruct Hfin as [r [n Hst]]; [discriminate|lia|].
  exact (Hd r n Hst).
Defined.

(** ** Strings *)

Lemma all_xmit bs : Forall (fun c => exists b, c = CXmit b) (List.map CXmit bs).
Proof. induction bs; constructor; eauto. Qed.

(** X10: [print(s)] transmits the character [c] it finds at [s]
    unconditionally, and then every following character [chars] up to, and
    without, the next NUL, whatever the memory holds after that NUL.  For a
    non-empty NUL-terminated string ([c] is not NUL) these are exactly the
    characters of the string, in order.  It makes no other call, and returns
    when the environment has answered the transmits. *)
Theorem print_transmits :
  forall (c : Z) (chars after : list Z),
    Forall (fun x => x <> 0) chars ->
    forall (Env : Type) (respond : Env -> call -> option (Z * Env))
           (fuel : nat) (m : machine Env),
      let o := run respond fuel (print (c :: chars ++ 0 :: after)) m in
      let bytes := List.map Int.to_uint8 (c :: chars) in
      (exists rest, List.map CXmit bytes = calls (out_trace o) ++ rest)
      /\ (forall r n, out_status o = Done r n -> xmitted (out_trace o) = bytes)
      /\ ((forall e b, respond e (CXmit b) <> None) ->
          (2 * List.length bytes < fuel)%nat ->
          exists r n, out_status o = Done r n).
Proof.
  intros c chars after Hnz Env respond fuel m o bytes.
  pose proof (print_follows c after [] Hnz) as F. rewrite app_nil_r in F.
  fold bytes in F.
  destruct (F Env respond fuel m) as [l' [Hm Hs]]. fold o in Hm, Hs.
  apply expect_calls in Hm. repeat split.
  - now exists l'.
  - intros r n E. rewrite E in Hs. subst l'. rewrite app_nil_r in Hm.
    now apply xmitted_calls.
  - intros Hans Hfuel.
    apply (expect_completes F (print_paced _) (all_xmit bytes)); [assumption|].
    now rewrite length_map.
Qed.

(** The string "Hi" is transmitted as its two characters. *)
Lemma print_transmits_witness :
  xmitted (out_trace (run (always 0) 5 (print [72; 105; 0]) (Machine regs0 tt)))
  = [72; 105].
Proof.
  assert (Hnz : Forall (fun x => x <> 0) [105]) by (repeat constructor; lia).
  destruct (@print_transmits 72 [105] [] Hnz unit (always 0) 5%nat (Machine regs0 tt))
    as [_ [Hd Hfin]].
  destruct Hfin as [r [n Hst]]; [discriminate|cbn; lia|].
  exact (Hd r n Hst).
Defined.

(** C8: [print] on the empty string.  main.c documents [print] as "like
    puts() but without a newline", and for the empty string a single 0x00
    byte is what the first, unconditional transmit accounts for.  The code
    does more: with the bytes [0; 65; 0] at [s] the string at [s] is empty,
    and [print] transmits 0x00 and then the 'A' stored after the terminator,
    because the [do ... while] tests [*s] only after [s++] and so never
    looks at the terminator it has just sent.  When the terminator is the
    last byte of its object, the test of the loop reads outside the
    object. *)
Lemma print_empty_string_reads_on :
  xmitted (out_trace (run (always 0) 9 (print [0; 65; 0]) (Machine regs0 tt)))
    = [0; 65]
  /\ out_status (run (always 0) 9 (print [0; 65; 0]) (Machine regs0 tt))
    = Done tt 7
  /\ out_status (run (always 0) 9 (print [0]) (Machine regs0 tt)) = Stuck CFault.
Proof. repeat split; vm_compute; reflexivity. Qed.

(** ** The output paths *)

Lemma putchar_returns_0 Env (respond : Env -> call -> option (Z * Env)) c fuel m r n :
  out_status (run respond fuel (putchar c) m) = Done r n -> r = 0.
Proof.
  destruct fuel as [|k]; [discriminate|]. unfold putchar, SoftSerial_xmit.
  rewrite run_call. destruct (perform respond m _) as [[z m']|]; [|discriminate].
  destruct k; cbn; [discriminate|]. now intros [= <- _].
Qed.

(** ** Start-up *)

Lemma follows_fault St (next : St -> event -> option St) waits R s (f : R -> St) :
  waits s CFault -> follows next waits (fault : prog R) s f.
Proof.
  intros Hw Env respond [|n] m; cbn; exists s; now split.
Qed.

Section Boot.

Variable limit : option nat.

Local Abbreviation boots := (follows (boot_next limit) boot_waits).

(** A list of expected calls is followed in the start-up monitor as well. *)
Lemma boots_expected R (t : prog R) l rest :
  follows expect_next expect_waits t l (fun _ => rest) ->
  boots t (Started l) (fun _ => Started rest).
Proof.
  apply follows_sim with (h := Started) (f := fun _ : R => rest).
  - intros [|c s] ev s'; cbn; [discriminate|].
    destruct (call_eq_dec c (fst ev)); [|discriminate]. now intros [= ->].
  - intros [|c s] c'; cbn; [contradiction|trivial].
Qed.

(** After the banner anything goes, except a second [SoftSerial_init]. *)
Lemma boots_free_call c :
  c <> CInit -> boots (do_call c) (Started []) (fun _ => Started []).
Proof.
  intros Hc. apply follows_call; [|exact Hc].
  intros z. cbn. now destruct c.
Qed.

Lemma boots_free_print s : boots (print s) (Started []) (fun _ => Started []).
Proof.
  induction s as [|c s IH]; [now apply follows_fault|].
  cbn [print]. eapply follows_bind; [now apply boots_free_call|].
  intros ?. destruct s as [|c' s']; [now apply follows_fault|].
  destruct (c' =? 0); [now apply follows_ret_eq|exact IH].
Qed.

Lemma boots_free_print_hexb c :
  boots (print_hexb c) (Started []) (fun _ => Started []).
Proof.
  unfold print_hexb.
  eapply follows_bind; [now apply boots_free_call|]. intros ?.
  eapply follows_bind; [now apply boots_free_call|]. intros ?.
  now apply follows_ret_eq.
Qed.


End Boot.

(** One step of a start-up proof: split a sequence, answer a call, close a
    return. *)
Ltac boot_step :=
  lazymatch goal with
  | |- follows _ _ (ITree.bind _ _) _ _ => eapply follows_bind; [|intros ?]
  | |- follows _ _ (Ret _) _ _ => apply follows_ret_eq; reflexivity
  | |- follows _ _ (if ?b then _ else _) _ _ => destruct b
  | |- follows _ _ (ITree.iter _ _) (Booting ?n) _ =>
      apply follows_iter with (J := fun _ => Booting n) (g := fun _ => Booting n);
      intros ?
  | |- follows _ _ _ (Booting _) _ =>
      apply follows_call; [intros ?; reflexivity|left; reflexivity]
  end.

(** A call that is followed by more. *)
Ltac boot_call :=
  eapply follows_bind;
  [apply follows_call; [intros ?; reflexivity|cbn; auto]|intros ?].

Lemma Set_DCO_boots Delta :
  follows (boot_next None) boot_waits (Set_DCO Delta) (Booting 0)
    (fun _ => Booting 0).
Proof.
  unfold Set_DCO, Set_DCO_body, wait_capture, DCO_slower, DCO_faster.
  repeat boot_step. all: repeat boot_step.
Qed.

Lemma nonzero_forallb l :
  forallb (fun x => negb (x =? 0)) l = true -> Forall (fun x => x <> 0) l.
Proof.
  intros H. apply Forall_forall. intros x Hx.
  rewrite forallb_forall in H. specialize (H x Hx).
  apply negb_true_iff, Z.eqb_neq in H. exact H.
Qed.

(** The first [print] of [setup] makes exactly the calls of the banner. *)
Lemma print_banner_follows (rest : list call) :
  follows expect_next expect_waits
    (print (cstring (CRLF ++ ">>Calibrated DCO values are:" ++ CRLF)%string))
    (List.map CXmit banner ++ rest) (fun _ => rest).
Proof.
  assert (Hnz : Forall (fun x => x <> 0) (tl banner))
    by (apply nonzero_forallb; vm_compute; reflexivity).
  exact (print_follows (hd 0 banner) [] rest Hnz).
Qed.

(** [setup]: register accesses and delays, then [SoftSerial_init], then the
    interrupt enable and the banner, then no further [SoftSerial_init]. *)
Lemma setup_boots cfg :
  follows (boot_next None) boot_waits (setup cfg) (Booting 0)
    (fun _ => Started []).
Proof.
  unfold setup. repeat boot_call.
  eapply follows_bind with (f := fun _ => Booting 0).
  - destruct (CALIBRATE_DCO cfg); [apply Set_DCO_boots|].
    repeat boot_call. now apply follows_ret_eq.
  - intros ?.
      eapply follows_bind with (f := fun _ => Started after_init);
        [apply follows_call; [intros ?; reflexivity|now right]|intros ?].
      eapply follows_bind with (f := fun _ => Started (List.map CXmit banner ++ []));
        [apply follows_call; [intros ?; reflexivity|reflexivity]|intros ?].
      eapply follows_bind;
        [apply boots_expected, print_banner_follows|intros ?].
      eapply follows_bind; [apply boots_free_print|intros ?].
      eapply follows_bind; [now apply boots_free_call|intros ?].
      eapply follows_bind; [apply boots_free_print_hexb|intros ?].
      eapply follows_bind; [apply boots_free_print|intros ?].
      eapply follows_bind; [apply boots_free_print|intros ?].
      eapply follows_bind; [now apply boots_free_call|intros ?].
      eapply follows_bind; [apply boots_free_print_hexb|intros ?].
      apply boots_free_print.
Qed.

(** In the build with constants the start-up is fifteen register accesses
    and delays long. *)
Lemma setup_boots_constants cfg :
  CALIBRATE_DCO cfg = false ->
  follows (boot_next (Some 15%nat)) boot_waits (setup cfg) (Booting 0)
    (fun _ => Started []).
Proof.
  intros Hcfg. unfold setup. rewrite Hcfg. repeat boot_call.
  eapply follows_bind with (f := fun _ => Booting 15).
  - repeat boot_call. now apply follows_ret_eq.
  - intros ?.
    eapply follows_bind with (f := fun _ => Started after_init);
      [apply follows_call; [intros ?; reflexivity|now right]|intros ?].
    eapply follows_bind with (f := fun _ => Started (List.map CXmit banner ++ []));
      [apply follows_call; [intros ?; reflexivity|reflexivity]|intros ?].
    eapply follows_bind;
      [apply boots_expected, print_banner_follows|intros ?].
    eapply follows_bind; [apply boots_free_print|intros ?].
    eapply follows_bind; [now apply boots_free_call|intros ?].
    eapply follows_bind; [apply boots_free_print_hexb|intros ?].
    eapply follows_bind; [apply boots_free_print|intros ?].
    eapply follows_bind; [apply boots_free_print|intros ?].
    eapply follows_bind; [now apply boots_free_call|intros ?].
    eapply follows_bind; [apply boots_free_print_hexb|intros ?].
    apply boots_free_print.
Qed.




(** *** Reading the start-up monitor *)

Lemma after_init_no_init : ~ In CInit after_init.
Proof.
  unfold after_init. intros [H|H]; [discriminate|].
  apply in_map_iff in H. now destruct H as [b [H _]].
Qed.

Section BootFacts.

Variable limit : option nat.

Local Abbreviation next := (boot_next limit).

Lemma boot_next_booting n ev p :
  next (Booting n) ev = Some p ->
  (fst ev = CInit /\ p = Started after_init)
  \/ (hw_call (fst ev) = true /\ exists k, p = Booting k /\
      match limit with Some b => k = S n /\ (k <= b)%nat | None => k = n end).
Proof.
  destruct ev as [c z]. destruct c; cbn -[Nat.ltb]; intros H; try discriminate.
  all: try (injection H as <-; now left).
  all: right; split; [reflexivity|]; destruct limit as [b|].
  all: try (destruct (n <? b)%nat eqn:E; [|discriminate]; apply Nat.ltb_lt in E).
  all: injection H as <-; eexists; split; [reflexivity|].
  all: first [split; [reflexivity|lia] | reflexivity].
Qed.

Lemma boot_next_started l ev p :
  next (Started l) ev = Some p -> init_free (Started l) ->
  fst ev <> CInit /\ exists l', p = Started l' /\ init_free (Started l').
Proof.
  destruct ev as [c z]. destruct l as [|c0 l]; cbn.
  - destruct c; try discriminate; intros [= <-] _; (split; [discriminate|]);
      exists []; now split.
  - destruct (call_eq_dec c0 c) as [->|]; [|discriminate]. intros [= <-] Hf.
    split; [intros ->; apply Hf; now left|].
    exists l; split; [reflexivity|]. intros Hin. apply Hf. now right.
Qed.

(** Once started, the program never calls [SoftSerial_init] again. *)
Lemma started_no_init tr :
  forall l p, mon next (Started l) tr = Some p -> init_free (Started l) ->
    ~ In CInit (calls tr) /\ exists l', p = Started l'.
Proof.
  induction tr as [|ev tr IH]; intros l p H Hf.
  - cbn in H. injection H as <-. split; [now intros []|now exists l].
  - apply mon_cons in H. destruct H as [p1 [Hn Hm]].
    destruct (@boot_next_started _ _ _ Hn Hf) as [Hev [l' [-> Hf']]].
    destruct (IH _ _ Hm Hf') as [Hno Hex]. split; [|exact Hex].
    intros [E|Hin]; [now apply Hev|now apply Hno].
Qed.

(** While booting, only register accesses and delays have happened. *)
Lemma booting_only_hw tr :
  forall n k, mon next (Booting n) tr = Some (Booting k) ->
    Forall (fun ev => hw_call (fst ev) = true) tr
    /\ match limit with
       | Some b => k = (n + List.length tr)%nat /\ (tr <> [] -> k <= b)%nat
       | None => True
       end.
Proof.
  induction tr as [|ev tr IH]; intros n k H.
  - cbn in H. injection H as <-. split; [constructor|].
    destruct limit; [|exact I]. split; [cbn; lia|congruence].
  - apply mon_cons in H. destruct H as [p1 [Hn Hm]].
    destruct (@boot_next_booting _ _ _ Hn) as [[_ ->] | [Hhw [k1 [-> Hk1]]]].
    + apply started_no_init in Hm; [|exact after_init_no_init].
      now destruct Hm as [_ [l' [=]]].
    + destruct (IH _ _ Hm) as [Hall Hlen]. split; [now constructor|].
      destruct limit as [b|]; [|exact I]. destruct Hk1 as [-> Hb], Hlen as [-> Hle].
      split; [cbn; lia|]. intros _. destruct tr; [cbn; lia|]. apply Hle. discriminate.
Qed.

(** To be started is to have called [SoftSerial_init]. *)
Lemma started_has_init tr :
  forall n l, mon next (Booting n) tr = Some (Started l) -> In CInit (calls tr).
Proof.
  induction tr as [|ev tr IH]; intros n l H; [discriminate|].
  apply mon_cons in H. destruct H as [p1 [Hn Hm]].
  destruct (@boot_next_booting _ _ _ Hn) as [[E _] | [_ [k1 [-> _]]]].
  - now left.
  - right. now apply IH in Hm.
Qed.

Lemma boot_reach tr :
  forall n p, mon next (Booting n) tr = Some p -> init_free p.
Proof.
  induction tr as [|ev tr IH]; intros n p H.
  - cbn in H. now injection H as <-.
  - apply mon_cons in H. destruct H as [p1 [Hn Hm]].
    destruct (@boot_next_booting _ _ _ Hn) as [[_ ->] | [_ [k1 [-> _]]]].
    + destruct (@started_no_init _ _ _ Hm after_init_no_init) as [_ [l' ->]].
      clear IH Hn. revert Hm. generalize after_init_no_init.
      generalize after_init as l. revert l'.
      induction tr as [|ev' tr IH']; intros l' l Hf Hm.
      * cbn in Hm. now injection Hm as <-.
      * apply mon_cons in Hm. destruct Hm as [p2 [Hn2 Hm2]].
        destruct (@boot_next_started _ _ _ Hn2 Hf) as [_ [l2 [-> Hf2]]].
        now apply (IH' _ _ Hf2 Hm2).
    + now apply IH in Hm.
Qed.


End BootFacts.

(** An environment that answers every call leaves a run stuck nowhere but
    at a fault. *)
Lemma perform_answers Env (respond : Env -> call -> option (Z * Env)) m c :
  (forall e c, c <> CFault -> respond e c <> None) -> c <> CFault ->
  perform respond m c <> None.
Proof.
  intros Hans Hc. destruct c; cbn; try contradiction;
    try (specialize (Hans (env m) _ Hc);
         now destruct (respond (env m) _) as [[z e']|]).
  - destruct (hw_driven r); [|discriminate].
    specialize (Hans (env m) _ Hc). now destruct (respond (env m) _) as [[z e']|].
Qed.


Lemma started_calls limit tr :
  forall l p, mon (boot_next limit) (Started l) tr = Some p ->
    (exists rest, l = calls tr ++ rest) \/ (exists more, calls tr = l ++ more).
Proof.
  induction tr as [|ev tr IH]; intros l p H.
  - left. now exists l.
  - destruct l as [|c l]; [right; now exists (calls (ev :: tr))|].
    apply mon_cons in H. destruct H as [p1 [Hn Hm]]. cbn in Hn.
    destruct (call_eq_dec c (fst ev)) as [->|]; [|discriminate].
    injection Hn as <-. destruct (IH _ _ Hm) as [[rest ->] | [more E]].
    + left. now exists rest.
    + right. exists more. unfold calls in *. cbn. now rewrite E.
Qed.

(** C5, as first stated, fails: [setup] does not observe a result of
    [SoftSerial_init].  When the call returns -1 the run of [setup] makes the
    very same calls as when it returns 0: it goes on to transmit the banner
    and runs to its end. *)
Lemma setup_ignores_init_failure :
  let tr r :=
    out_trace (run (init_answers r) 200 (setup constants_build) (Machine regs0 tt)) in
  In (CInit, -1) (tr (-1))
  /\ calls (tr (-1)) = calls (tr 0)
  /\ firstn 32 (xmitted (tr (-1))) = banner
  /\ List.length (xmitted (tr (-1))) = 62%nat.
Proof.
  cbv zeta. split; [|split; [|split]].
  - vm_compute. do 15 right. now left.
  - vm_compute. reflexivity.
  - vm_compute. reflexivity.
  - vm_compute. reflexivity.
Qed.

(** ** The unchecked read *)

(** The trace of a run is what the environment answered, and leads to the
    machine the run ends in. *)
Lemma run_replay Env (respond : Env -> call -> option (Z * Env)) R fuel :
  forall (t : prog R) m,
    replay respond m (out_trace (run respond fuel t m))
    = Some (out_machine (run respond fuel t m)).
Proof.
  induction fuel as [|n IH]; intros t m; [reflexivity|].
  rewrite run_S. destruct (observe t) as [r|t'|X e k]; [reflexivity|apply IH|].
  destruct e as [c]. destruct (perform respond m c) as [[z m']|] eqn:E;
    [|reflexivity].
  cbn. rewrite E, Z.eqb_refl. apply IH.
Qed.

Lemma to_uint16_range z : 0 <= Int.to_uint16 z <= 65535.
Proof. unfold Int.to_uint16. pose proof (Z.mod_pos_bound z 65536). lia. Qed.

Lemma nc_next_inv p ev p' :
  nc_next p ev = Some p' ->
  (exists n, p = NcPoll /\ ev = (CAvailable, n)
             /\ p' = if Int.to_uint16 n =? 0 then NcPoll
                     else NcRead (Int.to_uint16 n))
  \/ (exists cnt c, p = NcRead cnt /\ ev = (CReadNc, c)
                    /\ p' = NcXmit (Int.to_uint8 c) cnt)
  \/ (exists c cnt z, p = NcXmit c cnt /\ ev = (CXmit c, z) /\ p' = nc_after cnt).
Proof.
  destruct p as [|cnt|c cnt], ev as [[] z]; cbn; try discriminate.
  - intros [= <-]. left. eauto.
  - intros [= <-]. right. left. eauto.
  - destruct (c0 =? c) eqn:E; [|discriminate]. apply Z.eqb_eq in E. subst c0.
    intros [= <-]. right. right. eauto 6.
Qed.

Lemma nc_next_wf p ev p' : nc_next p ev = Some p' -> nc_wf p -> nc_wf p'.
Proof.
  intros H Hwf. apply nc_next_inv in H.
  destruct H as [[n [-> [-> ->]]] | [[cnt [c [-> [-> ->]]]] | [c [cnt [z [-> [-> ->]]]]]]].
  - pose proof (to_uint16_range n).
    destruct (Int.to_uint16 n =? 0) eqn:E; [exact I|]. apply Z.eqb_neq in E. cbn. lia.
  - exact Hwf.
  - unfold nc_after. pose proof (to_uint16_range (cnt - 1)).
    destruct (Int.to_uint16 (cnt - 1) =? 0) eqn:E; [exact I|].
    apply Z.eqb_neq in E. cbn. lia.
Qed.

Lemma nc_mon_wf tr :
  forall p p', mon nc_next p tr = Some p' -> nc_wf p -> nc_wf p'.
Proof.
  induction tr as [|ev tr IH]; intros p p' H Hwf.
  - cbn in H. now injection H as <-.
  - apply mon_cons in H. destruct H as [p1 [Hn Hm]].
    apply (IH _ _ Hm). now apply (@nc_next_wf _ _ _ Hn).
Qed.

Lemma reads_nc_cons c z tr :
  reads_nc ((c, z) :: tr) = (if call_eq_dec c CReadNc then 1 else 0) + reads_nc tr.
Proof.
  unfold reads_nc, calls. cbn. destruct (call_eq_dec c CReadNc); lia.
Qed.

(** Between two polls: the reads done and the reads still to do add up to
    the count the poll returned. *)
Lemma nc_burst tr :
  forall p p', mon nc_next p tr = Some p' -> nc_wf p ->
    ~ In CAvailable (calls tr) ->
    nc_remaining p = reads_nc tr + nc_remaining p'.
Proof.
  induction tr as [|ev tr IH]; intros p p' H Hwf Hno.
  - cbn in H. injection H as <-. unfold reads_nc. cbn. lia.
  - apply mon_cons in H. destruct H as [p1 [Hn Hm]].
    pose proof (@nc_next_wf _ _ _ Hn Hwf) as Hwf1.
    assert (Hno' : ~ In CAvailable (calls tr)) by (intros Hin; apply Hno; now right).
    specialize (IH _ _ Hm Hwf1 Hno'). apply nc_next_inv in Hn.
    destruct Hn as [[n [-> [-> ->]]] | [[cnt [c [-> [-> ->]]]] | [c [cnt [z [-> [-> ->]]]]]]].
    + exfalso. apply Hno. now left.
    + rewrite reads_nc_cons. destruct (call_eq_dec CReadNc CReadNc); [|contradiction].
      cbn [nc_remaining] in *. lia.
    + rewrite reads_nc_cons. destruct (call_eq_dec (CXmit c) CReadNc); [discriminate|].
      cbn in Hwf. unfold nc_after in IH.
      assert (E : Int.to_uint16 (cnt - 1) = cnt - 1)
        by (unfold Int.to_uint16; apply Z.mod_small; lia).
      rewrite E in IH.
      destruct (cnt - 1 =? 0) eqn:E0; cbn [nc_remaining] in *; [|lia].
      apply Z.eqb_eq in E0. lia.
Qed.

(** The receive interrupt only ever adds to the queue. *)
Lemma rx_push_length capacity q b :
  (List.length q <= List.length (rx_push capacity q b))%nat.
Proof.
  unfold rx_push. destruct (List.length q <? capacity)%nat; [|lia].
  rewrite length_app. cbn. lia.
Qed.

Lemma rx_isr_length capacity s :
  (List.length (rx_buffer s) <= List.length (rx_buffer (rx_isr capacity s)))%nat.
Proof.
  unfold rx_isr. destruct (rx_arrivals s) as [|bs rest]; [lia|]. cbn.
  generalize (rx_buffer s) as q. induction bs as [|b bs IH]; intros q; cbn; [lia|].
  pose proof (rx_push_length capacity q b). specialize (IH (rx_push capacity q b)). lia.
Qed.

(** Every step of [loop_nc] against the queue keeps the counted bytes
    buffered. *)
Lemma nc_covered_step capacity p c z p' s s' :
  nc_next p (c, z) = Some p' -> rx_driver capacity s c = Some (z, s') ->
  nc_covered p s -> nc_covered p' s'.
Proof.
  intros Hn Hr Hc. pose proof (rx_isr_length capacity s) as Hlen.
  apply nc_next_inv in Hn.
  destruct Hn as [[n [-> [[= -> ->] ->]]] | [[cnt [b [-> [[= -> ->] ->]]]]
                 | [b [cnt [z' [-> [[= -> ->] ->]]]]]]]; cbn in Hr.
  - injection Hr as <- <-. pose proof (to_uint16_range (Z.of_nat (List.length (rx_buffer (rx_isr capacity s))))) as Hrange.
    destruct (Int.to_uint16 _ =? 0) eqn:E; [exact I|]. apply Z.eqb_neq in E. cbn.
    unfold Int.to_uint16 in *.
    pose proof (Z.mod_le (Z.of_nat (List.length (rx_buffer (rx_isr capacity s)))) 65536
                  ltac:(lia) ltac:(lia)). lia.
  - cbn in Hc. destruct (rx_buffer (rx_isr capacity s)) as [|b' q] eqn:Eq;
      [discriminate|]. injection Hr as <- <-. cbn in *. lia.
  - injection Hr as _ <-. cbn in Hc. unfold nc_after.
    pose proof (to_uint16_range (cnt - 1)) as Hrange.
    destruct (Int.to_uint16 (cnt - 1) =? 0) eqn:E; [exact I|]. apply Z.eqb_neq in E.
    cbn. unfold Int.to_uint16 in *.
    pose proof (Z.mod_le (cnt - 1) 65536 ltac:(lia) ltac:(lia)). lia.
Qed.

Lemma nc_covered_replay capacity tr :
  forall p p' m m',
    mon nc_next p tr = Some p' -> replay (rx_driver capacity) m tr = Some m' ->
    nc_covered p (env m) -> nc_covered p' (env m').
Proof.
  induction tr as [|[c z] tr IH]; intros p p' m m' Hm Hr Hc.
  - cbn in Hm, Hr. injection Hm as <-. now injection Hr as <-.
  - apply mon_cons in Hm. destruct Hm as [p1 [Hn Hm]]. cbn [replay] in Hr.
    destruct (perform (rx_driver capacity) m c) as [[z' m1]|] eqn:Ep; [|discriminate].
    destruct (z' =? z) eqn:Ez; [|discriminate]. apply Z.eqb_eq in Ez. subst z'.
    apply (IH _ _ _ _ Hm Hr).
    apply (@nc_covered_step capacity p c z p1 (env m) (env m1) Hn); [|exact Hc].
    pose proof Hn as Hn'. apply nc_next_inv in Hn'.
    destruct Hn' as [[n [_ [[= -> _] _]]] | [[cnt [b [_ [[= -> _] _]]]]
                    | [b [cnt [z' [_ [[= -> _] _]]]]]]]; cbn [perform] in Ep;
      destruct (rx_driver capacity (env m) _) as [[z1 e1]|]; try discriminate;
      injection Ep as <- <-; reflexivity.
Qed.

Lemma nc_after_poll n :
  nc_remaining (if Int.to_uint16 n =? 0 then NcPoll else NcRead (Int.to_uint16 n))
  = Int.to_uint16 n.
Proof.
  destruct (Int.to_uint16 n =? 0) eqn:E; [|reflexivity].
  apply Z.eqb_eq in E. now rewrite E.
Qed.

(** What the monitor says about the reads that follow a poll. *)
Lemma nc_reads_after_poll pre n mid p :
  mon nc_next NcPoll (pre ++ (CAvailable, n) :: mid) = Some p ->
  ~ In CAvailable (calls mid) ->
  Int.to_uint16 n = reads_nc mid + nc_remaining p /\ 0 <= nc_remaining p.
Proof.
  intros Hm Hno. apply mon_at in Hm. destruct Hm as [p1 [p2 [H1 [H2 H3]]]].
  pose proof (@nc_mon_wf _ _ _ H1 I) as Hwf1.
  pose proof (@nc_next_wf _ _ _ H2 Hwf1) as Hwf2.
  pose proof (@nc_burst _ _ _ H3 Hwf2 Hno) as Hb.
  pose proof (@nc_mon_wf _ _ _ H3 Hwf2) as Hwf3.
  apply nc_next_inv in H2.
  destruct H2 as [[n' [-> [[= <-] ->]]] | [[cnt [c [_ [[=] _]]]]
                 | [c [cnt [z [_ [[=] _]]]]]]].
  rewrite nc_after_poll in Hb. split; [exact Hb|].
  destruct p; cbn in *; lia.
Qed.

Lemma reads_nc_nonneg tr : 0 <= reads_nc tr.
Proof. unfold reads_nc. lia. Qed.

(** C3: in the unchecked-read variant of the loop, [available() > 0] holds
    at every call of [SoftSerial_read_nc()].
    In every environment, between one call of [SoftSerial_available()] that
    returned [n] and the next, [SoftSerial_read_nc()] is called exactly
    [cnt = (unsigned) n] times (not at all when [cnt] is zero), and never
    more than [cnt] times in a prefix that stops before the next poll; before
    each such call there is a poll.
    Against the receive queue, whatever the interrupt delivers and whenever,
    no call of [SoftSerial_read_nc()] finds the queue empty: the run is never
    stuck, it is only ever cut short by the step budget. *)
Theorem read_nc_precondition_holds :
  (forall (Env : Type) (respond : Env -> call -> option (Z * Env))
          (fuel : nat) (m : machine Env),
     let tr := out_trace (run respond fuel loop_nc m) in
     (forall pre n mid, tr = pre ++ (CAvailable, n) :: mid ->
        ~ In CAvailable (calls mid) -> 0 <= reads_nc mid <= Int.to_uint16 n)
     /\ (forall pre n mid n' post,
           tr = pre ++ (CAvailable, n) :: mid ++ (CAvailable, n') :: post ->
           ~ In CAvailable (calls mid) -> reads_nc mid = Int.to_uint16 n)
     /\ (forall pre z post, tr = pre ++ (CReadNc, z) :: post ->
           In CAvailable (calls pre)))
  /\ (forall (capacity : nat) (s : rx_state) (rf : regfile) (fuel : nat),
        out_status (run (rx_driver capacity) fuel loop_nc (Machine rf s))
        = OutOfFuel).
Proof.
  split.
  - intros Env respond fuel m tr.
    destruct (@loop_nc_follows (fun _ => NcPoll) Env respond fuel m) as [p [Hm _]].
    fold tr in Hm. split; [|split].
    + intros pre n mid E Hno. rewrite E in Hm.
      destruct (nc_reads_after_poll _ _ _ Hm Hno) as [Hsum Hrem].
      pose proof (reads_nc_nonneg mid). lia.
    + intros pre n mid n' post E Hno. rewrite E in Hm.
      change (pre ++ (CAvailable, n) :: mid ++ (CAvailable, n') :: post)
        with (pre ++ ((CAvailable, n) :: mid) ++ (CAvailable, n') :: post) in Hm.
      rewrite app_assoc in Hm. apply mon_at in Hm.
      destruct Hm as [p1 [p2 [H1 [H2 _]]]].
      destruct (nc_reads_after_poll _ _ _ H1 Hno) as [Hsum _].
      apply nc_next_inv in H2.
      destruct H2 as [[n1 [-> _]] | [[cnt [c [_ [[=] _]]]]
                     | [c [cnt [z [_ [[=] _]]]]]]].
      cbn in Hsum. lia.
    + intros pre z post E. rewrite E in Hm.
      apply mon_at in Hm. destruct Hm as [p1 [p2 [H1 [H2 _]]]].
      apply nc_next_inv in H2.
      destruct H2 as [[n' [_ [[=] _]]] | [[cnt [c [-> _]]]
                     | [c [cnt [z' [_ [[=] _]]]]]]].
      destruct pre as [|ev pre]; [discriminate|].
      apply mon_cons in H1. destruct H1 as [q [Hn _]]. apply nc_next_inv in Hn.
      destruct Hn as [[n [_ [-> _]]] | [[cnt' [c' [[=] _]]]
                     | [c' [cnt' [z0 [[=] _]]]]]].
      now left.
  - intros capacity s rf fuel.
    destruct (@loop_nc_follows (fun _ => NcPoll) _ (rx_driver capacity) fuel
                (Machine rf s)) as [p [Hm Hs]].
    destruct (@loop_nc_follows (fun _ => NcRead 0) _ (rx_driver capacity) fuel
                (Machine rf s)) as [p' [Hm' Hs']].
    pose proof (run_replay (rx_driver capacity) fuel loop_nc (Machine rf s)) as Hr.
    pose proof (@nc_covered_replay capacity _ _ _ _ _ Hm Hr I) as Hcov.
    destruct (out_status (run (rx_driver capacity) fuel loop_nc (Machine rf s)))
      as [r n|call0|] eqn:Hst; [congruence| |reflexivity].
    exfalso. apply run_stuck in Hst.
    set (m' := out_machine (run (rx_driver capacity) fuel loop_nc (Machine rf s))) in *.
    pose proof (rx_isr_length capacity (env m')) as Hlen.
    destruct p as [|cnt|b cnt]; cbn in Hs; subst call0; cbn in Hst, Hcov.
    + discriminate.
    + destruct (rx_buffer (rx_isr capacity (env m'))); [cbn in Hlen; lia|discriminate].
    + discriminate.
Qed.

(** ** The clock calibration *)

Lemma reg_trunc_8 r v :
  reg_width r = 8 -> reg_trunc r v = Int.to_uint8 v.
Proof. intros H. unfold reg_trunc, Int.to_uint8. now rewrite H. Qed.

Lemma to_uint8_range z : 0 <= Int.to_uint8 z < 256.
Proof. unfold Int.to_uint8. apply Z.mod_pos_bound. lia. Qed.

Lemma to_uint8_small z : 0 <= z < 256 -> Int.to_uint8 z = z.
Proof. intros H. unfold Int.to_uint8. now apply Z.mod_small. Qed.

Lemma rsel_mod b : rsel b = b mod 16.
Proof. unfold rsel. change 0x0f with (Z.ones 4). now rewrite Z.land_ones by lia. Qed.

Lemma above_rsel_div b : above_rsel b = b / 16.
Proof. unfold above_rsel. now rewrite Z.shiftr_div_pow2 by lia. Qed.

(** Taking one from a non-zero RSEL, or adding one to an RSEL below 15,
    leaves the bits above it alone. *)
Lemma rsel_down b :
  0 <= b < 256 -> rsel b <> 0 ->
  0 <= b - 1 < 256 /\ above_rsel (b - 1) = above_rsel b /\ rsel (b - 1) = rsel b - 1.
Proof.
  rewrite !rsel_mod, !above_rsel_div. intros Hb Hr.
  repeat split; Z.div_mod_to_equations; lia.
Qed.

Lemma rsel_up b :
  0 <= b < 256 -> rsel b <> 0x0f ->
  0 <= b + 1 < 256 /\ above_rsel (b + 1) = above_rsel b /\ rsel (b + 1) = rsel b + 1.
Proof.
  rewrite !rsel_mod, !above_rsel_div. intros Hb Hr.
  repeat split; Z.div_mod_to_equations; lia.
Qed.

Section Calibration.

Context {Env : Type}.
Variable respond : Env -> call -> option (Z * Env).

Local Abbreviation run := (run respond).

Lemma run_load_own r R (k : Z -> prog R) n m :
  hw_driven r = false ->
  run (S n) (ITree.bind (load r) k) m
  = with_event (CLoad r, reg_get m r) (run n (k (reg_get m r)) m).
Proof. intros H. unfold load. rewrite run_call. cbn. now rewrite H. Qed.

Lemma run_store r v R (k : Z -> prog R) n m :
  run (S n) (ITree.bind (store r v) k) m
  = with_event (CStore r v, 0)
      (run n (k 0) (Machine (reg_set (regs m) r v) (env m))).
Proof. unfold store. now rewrite run_call. Qed.

Lemma reg_get_set_same (rf : regfile) (e : Env) r v :
  reg_get (Machine (reg_set rf r v) e) r = reg_trunc r v.
Proof.
  unfold reg_get, reg_set. cbn. replace (reg_eqb r r) with true by now destruct r.
  unfold reg_trunc. apply Z.mod_mod. now destruct r.
Qed.

Lemma reg_get_set_other (rf : regfile) (e : Env) r r' v :
  reg_eqb r r' = false ->
  reg_get (Machine (reg_set rf r v) e) r' = reg_trunc r' (rf r').
Proof. intros H. unfold reg_get, reg_set. cbn. now rewrite H. Qed.

Lemma reg_get_range m r : reg_width r = 8 -> 0 <= reg_get (Env := Env) m r < 256.
Proof.
  intros H. unfold reg_get. rewrite reg_trunc_8 by exact H. apply to_uint8_range.
Qed.

Lemma adjusted_with_event (m : machine Env) d' b' ev (o : outcome Env unit) :
  captures [ev] = [] -> adjusted m d' b' o -> adjusted m d' b' (with_event ev o).
Proof.
  intros Hev [He [Hc [Ha Hd]]]. repeat split; cbn; try assumption.
  - destruct ev as [[] z]; try exact Hc. destruct r; try exact Hc. discriminate.
  - now apply Hd in H.
  - now apply Hd in H.
Qed.

(** [DCO_slower], at any point of its run. *)
Lemma DCO_slower_run fuel m :
  let d' := Int.to_uint8 (reg_get m DCOCTL - 1) in
  let b := reg_get m BCSCTL1 in
  adjusted m d' (if (d' =? 0xFF) && negb (rsel b =? 0) then b - 1 else b)
    (run fuel DCO_slower m).
Proof.
  intros d' b. unfold DCO_slower.
  pose proof (reg_get_range m BCSCTL1 eq_refl) as Hb. fold b in Hb.
  destruct fuel as [|fuel]; [now repeat split|].
  rewrite run_load_own by reflexivity. apply adjusted_with_event; [reflexivity|].
  destruct fuel as [|fuel]; [now repeat split|].
  rewrite run_store. apply adjusted_with_event; [reflexivity|].
  set (m1 := Machine _ _).
  assert (Hd1 : reg_get m1 DCOCTL = d').
  { unfold m1. rewrite reg_get_set_same, reg_trunc_8 by reflexivity.
    apply to_uint8_idem. }
  assert (Hb1 : reg_get m1 BCSCTL1 = b)
    by (unfold m1; now rewrite reg_get_set_other by reflexivity).
  destruct fuel as [|fuel]; [repeat split; cbn; now rewrite ?Hb1|].
  rewrite run_load_own by reflexivity. apply adjusted_with_event; [reflexivity|].
  rewrite Hd1. destruct (d' =? 0xFF) eqn:Ed; cbn [andb].
  - destruct fuel as [|fuel]; [repeat split; cbn; now rewrite ?Hb1|].
    rewrite run_load_own by reflexivity. apply adjusted_with_event; [reflexivity|].
    rewrite Hb1. fold (rsel b). destruct (rsel b =? 0) eqn:Er; cbn [negb].
    + destruct fuel as [|fuel]; repeat split; cbn; rewrite ?Hb1; try reflexivity;
        try discriminate; intros; assumption.
    + apply Z.eqb_neq in Er. destruct (rsel_down Hb Er) as [Hr1 [Ha1 _]].
      destruct fuel as [|fuel]; [repeat split; cbn; now rewrite ?Hb1|].
      rewrite run_load_own by reflexivity. apply adjusted_with_event; [reflexivity|].
      destruct fuel as [|fuel]; [repeat split; cbn; now rewrite ?Hb1|].
      rewrite run_store. apply adjusted_with_event; [reflexivity|].
      rewrite Hb1. set (m2 := Machine _ _).
      assert (Hb2 : reg_get m2 BCSCTL1 = b - 1).
      { unfold m2. rewrite reg_get_set_same, reg_trunc_8 by reflexivity.
        rewrite to_uint8_idem. now apply to_uint8_small. }
      assert (Hd2 : reg_get m2 DCOCTL = d')
        by (unfold m2; rewrite reg_get_set_other by reflexivity; exact Hd1).
      destruct fuel as [|fuel]; repeat split; cbn; rewrite ?Hb2; try assumption;
        try reflexivity; try discriminate.
  - destruct fuel as [|fuel]; repeat split; cbn; rewrite ?Hb1; try reflexivity;
      try discriminate; intros; assumption.
Qed.

(** [DCO_faster], at any point of its run. *)
Lemma DCO_faster_run fuel m :
  let d' := Int.to_uint8 (reg_get m DCOCTL + 1) in
  let b := reg_get m BCSCTL1 in
  adjusted m d' (if (d' =? 0x00) && negb (rsel b =? 0x0f) then b + 1 else b)
    (run fuel DCO_faster m).
Proof.
  intros d' b. unfold DCO_faster.
  pose proof (reg_get_range m BCSCTL1 eq_refl) as Hb. fold b in Hb.
  destruct fuel as [|fuel]; [now repeat split|].
  rewrite run_load_own by reflexivity. apply adjusted_with_event; [reflexivity|].
  destruct fuel as [|fuel]; [now repeat split|].
  rewrite run_store. apply adjusted_with_event; [reflexivity|].
  set (m1 := Machine _ _).
  assert (Hd1 : reg_get m1 DCOCTL = d').
  { unfold m1. rewrite reg_get_set_same, reg_trunc_8 by reflexivity.
    apply to_uint8_idem. }
  assert (Hb1 : reg_get m1 BCSCTL1 = b)
    by (unfold m1; now rewrite reg_get_set_other by reflexivity).
  destruct fuel as [|fuel]; [repeat split; cbn; now rewrite ?Hb1|].
  rewrite run_load_own by reflexivity. apply adjusted_with_event; [reflexivity|].
  rewrite Hd1. destruct (d' =? 0x00) eqn:Ed; cbn [andb].
  - destruct fuel as [|fuel]; [repeat split; cbn; now rewrite ?Hb1|].
    rewrite run_load_own by reflexivity. apply adjusted_with_event; [reflexivity|].
    rewrite Hb1. fold (rsel b). destruct (rsel b =? 0x0f) eqn:Er; cbn [negb].
    + destruct fuel as [|fuel]; repeat split; cbn; rewrite ?Hb1; try reflexivity;
        try discriminate; intros; assumption.
    + apply Z.eqb_neq in Er. destruct (rsel_up Hb Er) as [Hr1 [Ha1 _]].
      destruct fuel as [|fuel]; [repeat split; cbn; now rewrite ?Hb1|].
      rewrite run_load_own by reflexivity. apply adjusted_with_event; [reflexivity|].
      destruct fuel as [|fuel]; [repeat split; cbn; now rewrite ?Hb1|].
      rewrite run_store. apply adjusted_with_event; [reflexivity|].
      rewrite Hb1. set (m2 := Machine _ _).
      assert (Hb2 : reg_get m2 BCSCTL1 = b + 1).
      { unfold m2. rewrite reg_get_set_same, reg_trunc_8 by reflexivity.
        rewrite to_uint8_idem. now apply to_uint8_small. }
      assert (Hd2 : reg_get m2 DCOCTL = d')
        by (unfold m2; rewrite reg_get_set_other by reflexivity; exact Hd1).
      destruct fuel as [|fuel]; repeat split; cbn; rewrite ?Hb2; try assumption;
        try reflexivity; try discriminate.
  - destruct fuel as [|fuel]; repeat split; cbn; rewrite ?Hb1; try reflexivity;
      try discriminate; intros; assumption.
Qed.

Lemma captures_app tr1 tr2 : captures (tr1 ++ tr2) = captures tr1 ++ captures tr2.
Proof.
  induction tr1 as [|[c z] tr1 IH]; [reflexivity|].
  destruct c; cbn; try exact IH. destruct r; cbn; try exact IH. now rewrite IH.
Qed.

(** Waiting for a capture reads TACCTL0 and nothing else: the registers the
    program owns keep their values. *)
Lemma poll_capture_run fuel m :
  let o := run fuel (f <- load TACCTL0 ;;
                     if Z.land Hw.CCIFG f =? 0 then Ret (inl tt) else Ret (inr tt)) m in
  regs (out_machine o) = regs m /\ captures (out_trace o) = [].
Proof.
  destruct fuel as [|fuel]; [now split|].
  unfold load. rewrite run_call. cbn [perform hw_driven].
  destruct (respond (env m) (CLoad TACCTL0)) as [[z e']|]; [|now split].
  destruct (Z.land Hw.CCIFG (reg_trunc TACCTL0 z) =? 0);
    destruct fuel as [|fuel]; now split.
Qed.

Lemma wait_capture_run fuel :
  forall m,
    regs (out_machine (run fuel wait_capture m)) = regs m
    /\ captures (out_trace (run fuel wait_capture m)) = [].
Proof.
  induction fuel as [fuel IH] using lt_wf_ind. intros m.
  unfold wait_capture. rewrite run_iter. fold wait_capture.
  pose proof (poll_capture_run fuel m) as Hp. cbv zeta in Hp.
  destruct Hp as [Hr Hc]. unfold then_run.
  destruct (out_status (run fuel _ m)) as [[[]|[]] n|c|] eqn:Hst;
    cbn [out_machine out_trace]; try now split.
  - apply run_spare in Hst. fold wait_capture.
    destruct (IH (pred n) ltac:(lia) (out_machine (run fuel
               (f <- load TACCTL0 ;;
                if Z.land Hw.CCIFG f =? 0 then Ret (inl tt) else Ret (inr tt)) m)))
      as [Hr' Hc'].
    rewrite captures_app, Hc, Hc', Hr', Hr. now split.
  - destruct n as [|n]; cbn; rewrite ?app_nil_r; now split.
Qed.

Lemma round_done_partial (m : machine Env) Delta Old caps (o : outcome Env (Z + unit)) :
  above_rsel (reg_get (out_machine o) BCSCTL1) = above_rsel (reg_get m BCSCTL1) ->
  (forall r n, out_status o <> Done r n) ->
  round_done m Delta Old caps o.
Proof. intros Ha Hn. split; [exact Ha|]. intros r n H. now apply Hn in H. Qed.

Lemma round_done_event (m : machine Env) Delta Old caps ev (o : outcome Env (Z + unit)) :
  round_done m Delta Old (caps ++ captures [ev]) o ->
  round_done m Delta Old caps (with_event ev o).
Proof.
  intros [Ha Hd]. split; [exact Ha|]. intros r n H. cbn in H.
  destruct (Hd r n H) as [c1 [c2 [Hc Hrest]]]. exists c1, c2. split; [|exact Hrest].
  rewrite <- Hc, <- app_assoc. f_equal.
  change (out_trace (with_event ev o)) with ([ev] ++ out_trace o).
  apply captures_app.
Qed.

(** One round of the calibration loop, at any point of its run. *)
(** A round that stops early has not touched the bits above RSEL. *)
Ltac round_stop E :=
  apply round_done_partial;
  [unfold reg_get; cbn [out_machine run regs]; rewrite E; reflexivity
  |cbn [out_status run]; discriminate].

(** One round of the calibration loop, at any point of its run. *)
Lemma Set_DCO_body_run Delta Old fuel m :
  round_done m Delta Old [] (run fuel (Set_DCO_body Delta Old) m).
Proof.
  unfold Set_DCO_body. rewrite run_bind. unfold then_run.
  destruct (wait_capture_run fuel m) as [Hr Hc].
  destruct (out_status (run fuel wait_capture m)) as [[] n|c|] eqn:Hst;
    [|round_stop Hr..].
  set (m1 := out_machine (run fuel wait_capture m)) in *. clear Hst.
  assert (Hgoal : round_done m Delta Old []
            (run n (f <- load TACCTL0 ;;
                    store TACCTL0 (Z.land f (Z.lnot Hw.CCIFG)) ;;
                    Compare <- load TACCR0 ;;
                    (let Compare0 := Int.to_uint16 (Compare - Old) in
                     Oldcapture <- load TACCR0 ;;
                     (if Delta =? Compare0 then Ret (inr tt)
                      else if Delta <? Compare0
                           then DCO_slower ;; Ret (inl Oldcapture)
                           else DCO_faster ;; Ret (inl Oldcapture)))) m1)).
  2:{ destruct Hgoal as [Ha Hd]. split; [exact Ha|]. cbn [out_status out_trace out_machine].
      intros r k H. destruct (Hd r k H) as [c1 [c2 [Hcc Hrest]]].
      exists c1, c2. split; [|exact Hrest]. cbn in Hcc |- *.
      now rewrite captures_app, Hc. }
  assert (Hb1 : regs m1 BCSCTL1 = regs m BCSCTL1) by now rewrite Hr.
  assert (Hd1 : regs m1 DCOCTL = regs m DCOCTL) by now rewrite Hr.
  clearbody m1. clear Hr Hc fuel.
  (* TACCTL0 is read and its flag cleared *)
  destruct n as [|n]; [round_stop Hb1|].
  unfold load at 1. rewrite run_call. cbn [perform hw_driven].
  destruct (respond (env m1) (CLoad TACCTL0)) as [[z e2]|]; [|round_stop Hb1].
  apply round_done_event. cbn [captures app].
  destruct n as [|n]; [round_stop Hb1|].
  rewrite run_store. apply round_done_event. cbn [captures app regs env].
  set (m2 := Machine _ _).
  assert (Hb2 : regs m2 BCSCTL1 = regs m BCSCTL1) by exact Hb1.
  assert (Hd2 : regs m2 DCOCTL = regs m DCOCTL) by exact Hd1.
  clearbody m2. clear Hb1 Hd1 m1.
  (* the two reads of TACCR0 *)
  destruct n as [|n]; [round_stop Hb2|].
  unfold load at 1. rewrite run_call. cbn [perform hw_driven].
  destruct (respond (env m2) (CLoad TACCR0)) as [[z1 e3]|]; [|round_stop Hb2].
  apply round_done_event. cbn [captures app]. cbv zeta.
  set (c1 := reg_trunc TACCR0 z1).
  destruct n as [|n]; [round_stop Hb2|].
  unfold load at 1. rewrite run_call. cbn [perform hw_driven regs env].
  destruct (respond e3 (CLoad TACCR0)) as [[z2 e4]|]; [|round_stop Hb2].
  apply round_done_event. cbn [captures app].
  set (c2 := reg_trunc TACCR0 z2). set (m4 := Machine (regs m2) e4).
  assert (Hb4 : reg_get m4 BCSCTL1 = reg_get m BCSCTL1)
    by (unfold reg_get; cbn [regs m4]; now rewrite Hb2).
  assert (Hd4 : reg_get m4 DCOCTL = reg_get m DCOCTL)
    by (unfold reg_get; cbn [regs m4]; now rewrite Hd2).
  clearbody m4. clear Hb2 Hd2 m2.
  set (cmp := Int.to_uint16 (c1 - Old)).
  (* the decision *)
  destruct (Delta =? cmp) eqn:Eeq.
  - destruct n as [|n];
      [apply round_done_partial; [cbn; now rewrite Hb4|discriminate]|].
    split; [cbn; now rewrite Hb4|]. cbn. intros r k [= <- _]. exists c1, c2.
    fold cmp. unfold dco_after, rsel_after. rewrite Eeq. now repeat split.
  - destruct (Delta <? cmp) eqn:Elt.
    + rewrite run_bind. unfold then_run.
      destruct (DCO_slower_run n m4) as [He [Hcap [Ha Hdone]]].
      destruct (out_status (run n DCO_slower m4)) as [[] k|c|] eqn:Hst;
        [|apply round_done_partial;
          [cbn [out_machine]; now rewrite Ha, Hb4|discriminate]..].
      destruct (Hdone tt k eq_refl) as [Hd' Hb'].
      apply run_spare in Hst. destruct k as [|k]; [lia|].
      rewrite run_ret. unfold round_done. cbn [out_machine out_status out_trace].
      split; [now rewrite Ha, Hb4|]. intros r k' [= <- _]. exists c1, c2.
      fold cmp. unfold dco_after, rsel_after. rewrite Eeq, Elt, app_nil_r, Hcap.
      repeat split; [now rewrite Hd', Hd4|]. rewrite Hb', Hb4.
      now rewrite Hd', Hd4.
    + rewrite run_bind. unfold then_run.
      destruct (DCO_faster_run n m4) as [He [Hcap [Ha Hdone]]].
      destruct (out_status (run n DCO_faster m4)) as [[] k|c|] eqn:Hst;
        [|apply round_done_partial;
          [cbn [out_machine]; now rewrite Ha, Hb4|discriminate]..].
      destruct (Hdone tt k eq_refl) as [Hd' Hb'].
      apply run_spare in Hst. destruct k as [|k]; [lia|].
      rewrite run_ret. unfold round_done. cbn [out_machine out_status out_trace].
      split; [now rewrite Ha, Hb4|]. intros r k' [= <- _]. exists c1, c2.
      fold cmp. unfold dco_after, rsel_after. rewrite Eeq, Elt, app_nil_r, Hcap.
      repeat split; [now rewrite Hd', Hd4|]. rewrite Hb', Hb4.
      now rewrite Hd', Hd4.
Qed.

(** The calibration loop, at any point of its run. *)
Lemma Set_DCO_loop_run Delta fuel :
  forall Old m,
    let o := run fuel (ITree.iter (Set_DCO_body Delta) Old) m in
    above_rsel (reg_get (out_machine o) BCSCTL1) = above_rsel (reg_get m BCSCTL1)
    /\ (forall r n, out_status o = Done r n ->
          exists ds, differences Old (captures (out_trace o)) = ds ++ [Delta]
                     /\ Forall (fun d => d <> Delta) ds).
Proof.
  induction fuel as [fuel IH] using lt_wf_ind. intros Old m. cbv zeta.
  rewrite run_iter. unfold then_run.
  destruct (Set_DCO_body_run Delta Old fuel m) as [Ha Hd].
  destruct (out_status (run fuel (Set_DCO_body Delta Old) m)) as [[old|[]] n|c|] eqn:Hst;
    cbn [out_machine out_status out_trace]; try (split; [exact Ha|discriminate]).
  - destruct (Hd _ _ eq_refl) as [c1 [c2 [Hcap [Hres _]]]]. cbn [app] in Hcap.
    destruct (Delta =? Int.to_uint16 (c1 - Old)) eqn:E; [discriminate|].
    injection Hres as ->. apply Z.eqb_neq in E. apply run_spare in Hst.
    destruct (IH (pred n) ltac:(lia) c2
                (out_machine (run fuel (Set_DCO_body Delta Old) m))) as [Ha' Hd'].
    split; [now rewrite Ha'|]. intros r k H. destruct (Hd' r k H) as [ds [Hds Hall]].
    exists (Int.to_uint16 (c1 - Old) :: ds).
    rewrite captures_app, Hcap. cbn [app differences]. rewrite Hds.
    split; [reflexivity|]. constructor; [congruence|exact Hall].
  - destruct (Hd _ _ eq_refl) as [c1 [c2 [Hcap [Hres _]]]]. cbn [app] in Hcap.
    destruct (Delta =? Int.to_uint16 (c1 - Old)) eqn:E; [|discriminate].
    apply Z.eqb_eq in E. apply run_spare in Hst. destruct n as [|n]; [lia|].
    rewrite run_ret. cbn [out_machine out_status out_trace].
    split; [exact Ha|]. intros r k _. exists []. rewrite app_nil_r, Hcap. cbn.
    split; [now rewrite E|constructor].
Qed.

End Calibration.

(** C10: throughout the calibration loop of [Set_DCO] the RSEL field, the
    low nibble of BCSCTL1, changes only in a round where DCOCTL wraps around,
    by one and without leaving its four bits; and the loop ends only on a
    measured capture difference equal to [Delta].
    One round, entered with [Oldcapture] and run to its end, has read two
    captures [c1] and [c2] and measured [cmp = c1 - Oldcapture] (mod 2^16):
    - it leaves the loop exactly when [Delta = cmp], and carries [c2] over
      otherwise;
    - BCSCTL1 changes only by a decrement, when [Delta < cmp], DCOCTL went
      down to 0xFF and RSEL was not 0, or by an increment, when [Delta > cmp],
      DCOCTL went up to 0x00 and RSEL was not 0x0F; RSEL then moves by one;
    - the bits of BCSCTL1 above RSEL keep their value.
    At every point of every run of the loop the bits above RSEL are those
    the loop started with; and when the loop has ended, the last difference
    measured is [Delta] and none before it was. *)
Theorem calibration_rsel_and_exit :
  forall (Env : Type) (respond : Env -> call -> option (Z * Env)) (Delta : Z),
    (forall (Oldcapture : Z) (fuel : nat) (m : machine Env) r n,
       let o := run respond fuel (Set_DCO_body Delta Oldcapture) m in
       out_status o = Done r n ->
       exists c1 c2,
         captures (out_trace o) = [c1; c2]
         /\ let cmp := Int.to_uint16 (c1 - Oldcapture) in
            let b := reg_get m BCSCTL1 in
            let b' := reg_get (out_machine o) BCSCTL1 in
            let d' := reg_get (out_machine o) DCOCTL in
            (r = inr tt <-> Delta = cmp)
            /\ (Delta <> cmp -> r = inl c2)
            /\ d' = dco_after Delta cmp (reg_get m DCOCTL)
            /\ b' = rsel_after Delta cmp d' b
            /\ (b' <> b ->
                (Delta < cmp /\ d' = 0xFF /\ rsel b <> 0
                 /\ b' = b - 1 /\ rsel b' = rsel b - 1)
                \/ (cmp < Delta /\ d' = 0x00 /\ rsel b <> 0x0f
                    /\ b' = b + 1 /\ rsel b' = rsel b + 1))
            /\ above_rsel b' = above_rsel b)
    /\ (forall (Oldcapture : Z) (fuel : nat) (m : machine Env),
          let o := run respond fuel (ITree.iter (Set_DCO_body Delta) Oldcapture) m in
          above_rsel (reg_get (out_machine o) BCSCTL1)
          = above_rsel (reg_get m BCSCTL1)
          /\ (forall r n, out_status o = Done r n ->
                exists ds,
                  differences Oldcapture (captures (out_trace o)) = ds ++ [Delta]
                  /\ Forall (fun d => d <> Delta) ds)).
Proof.
  intros Env respond Delta. split; [|intros Old fuel m; apply Set_DCO_loop_run].
  intros Old fuel m r n o Hst.
  destruct (Set_DCO_body_run respond Delta Old fuel m) as [Ha Hd]. fold o in Ha, Hd.
  destruct (Hd r n Hst) as [c1 [c2 [Hcap [Hres [Hdco Hb]]]]]. cbn [app] in Hcap.
  exists c1, c2. split; [exact Hcap|]. cbv zeta.
  set (cmp := Int.to_uint16 (c1 - Old)) in *.
  set (b := reg_get m BCSCTL1) in *. set (b' := reg_get (out_machine o) BCSCTL1) in *.
  set (d' := reg_get (out_machine o) DCOCTL) in *.
  pose proof (reg_get_range m BCSCTL1 eq_refl) as Hrange. fold b in Hrange.
  repeat split.
  - intros ->. destruct (Delta =? cmp) eqn:E; [now apply Z.eqb_eq|discriminate].
  - intros E. apply Z.eqb_eq in E. now rewrite E in Hres.
  - intros E. apply Z.eqb_neq in E. now rewrite E in Hres.
  - exact Hdco.
  - exact Hb.
  - intros Hne. unfold rsel_after in Hb.
    destruct (Delta =? cmp) eqn:Eeq; [congruence|].
    destruct (Delta <? cmp) eqn:Elt.
    + destruct (d' =? 0xFF) eqn:Ed; cbn [andb] in Hb; [|congruence].
      destruct (rsel b =? 0) eqn:Er; cbn [negb] in Hb; [congruence|].
      apply Z.ltb_lt in Elt. apply Z.eqb_eq in Ed. apply Z.eqb_neq in Er.
      destruct (rsel_down Hrange Er) as [_ [_ Hr]].
      left. rewrite Hb. now repeat split.
    + destruct (d' =? 0x00) eqn:Ed; cbn [andb] in Hb; [|congruence].
      destruct (rsel b =? 0x0f) eqn:Er; cbn [negb] in Hb; [congruence|].
      apply Z.ltb_ge in Elt. apply Z.eqb_neq in Eeq. apply Z.eqb_eq in Ed.
      apply Z.eqb_neq in Er. destruct (rsel_up Hrange Er) as [_ [_ Hr]].
      right. rewrite Hb. repeat split; try assumption. lia.
  - exact Ha.
Qed.

Lemma ensures_weaken R (t : prog R) (Q Q' : regfile -> R -> trace -> regfile -> Prop) :
  ensures t Q -> (forall rf r tr rf', Q rf r tr rf' -> Q' rf r tr rf') -> ensures t Q'.
Proof. intros H HQ Env respond fuel m r n o Hst. apply HQ. now apply (H Env respond fuel m r n). Qed.

Lemma ensures_ret R (r : R) :
  ensures (Ret r) (fun rf r' tr rf' => r' = r /\ tr = [] /\ rf' = rf).
Proof.
  intros Env respond [|fuel] m r' n; cbn; [discriminate|].
  intros [= -> _]. now repeat split.
Qed.

Lemma run_do_call Env (respond : Env -> call -> option (Z * Env)) c fuel m :
  run respond (S fuel) (do_call c) m =
  match perform respond m c with
  | Some (z, m') => with_event (c, z) (run respond fuel (Ret z) m')
  | None => Outcome [] m (Stuck c)
  end.
Proof. reflexivity. Qed.

(** A call that is not a store leaves the registers alone. *)
Lemma ensures_call c :
  (forall r v, c <> CStore r v) ->
  ensures (do_call c) (fun rf z tr rf' => tr = [(c, z)] /\ rf' = rf).
Proof.
  intros Hc Env respond [|fuel] m z n; [discriminate|].
  rewrite run_do_call. destruct (perform respond m c) as [[z' m']|] eqn:E; [|discriminate].
  destruct fuel as [|fuel]; [discriminate|]. cbn. intros [= -> _]. split; [reflexivity|].
  destruct c; cbn in E; try congruence;
    try (destruct (respond (env m) _) as [[? ?]|]; [|discriminate];
         now injection E as _ <-).
  - destruct (hw_driven r).
    + destruct (respond (env m) _) as [[? ?]|]; [|discriminate]. now injection E as _ <-.
    + now injection E as _ <-.
  - now contradiction (Hc r v).
Qed.

Lemma ensures_load r :
  hw_driven r = false ->
  ensures (load r)
    (fun rf z tr rf' => z = reg_trunc r (rf r) /\ tr = [(CLoad r, z)] /\ rf' = rf).
Proof.
  intros Hr Env respond [|fuel] m z n; [discriminate|].
  unfold load. rewrite run_do_call. cbn [perform]. rewrite Hr.
  destruct fuel as [|fuel]; [discriminate|]. cbn. intros [= <- _]. now repeat split.
Qed.

Lemma ensures_store r v :
  ensures (store r v)
    (fun rf z tr rf' => tr = [(CStore r v, 0)] /\ rf' = reg_set rf r v).
Proof.
  intros Env respond [|fuel] m z n; [discriminate|].
  unfold store. rewrite run_do_call. cbn [perform].
  destruct fuel as [|fuel]; [discriminate|]. cbn. intros [= <- _]. now repeat split.
Qed.

Lemma ensures_bind R T (t : prog R) (k : R -> prog T)
      (Q1 : regfile -> R -> trace -> regfile -> Prop)
      (Q2 : R -> regfile -> T -> trace -> regfile -> Prop) :
  ensures t Q1 -> (forall r, ensures (k r) (Q2 r)) ->
  ensures (ITree.bind t k)
    (fun rf r tr rf' =>
       exists r1 tr1 rf1 tr2,
         tr = tr1 ++ tr2 /\ Q1 rf r1 tr1 rf1 /\ Q2 r1 rf1 r tr2 rf').
Proof.
  intros H1 H2 Env respond fuel m r n. cbv zeta. rewrite run_bind. unfold then_run.
  specialize (H1 Env respond fuel m).
  destruct (out_status (run respond fuel t m)) as [r1 n1|c|] eqn:Hst; try discriminate.
  cbn [out_status out_trace out_machine]. intros Hk.
  exists r1, (out_trace (run respond fuel t m)),
    (regs (out_machine (run respond fuel t m))),
    (out_trace (run respond n1 (k r1) (out_machine (run respond fuel t m)))).
  split; [reflexivity|]. split; [now apply (H1 r1 n1)|].
  now apply (H2 r1 Env respond n1 _ r n).
Qed.

Lemma within_weaken R (t : prog R) a b : within a t -> (a <= b)%nat -> within b t.
Proof.
  intros H Hab Env respond fuel m Hans Hf.
  destruct (H Env respond fuel m Hans ltac:(lia)) as [r [n [Hst Hn]]].
  exists r, n. split; [exact Hst|lia].
Qed.

Lemma within_ret R (r : R) : within 0 (Ret r).
Proof.
  intros Env respond [|fuel] m _ Hf; [lia|]. exists r, (S fuel). split; [reflexivity|lia].
Qed.

Lemma perform_answers' Env (respond : Env -> call -> option (Z * Env)) m c :
  answers respond -> c <> CFault -> perform respond m c <> None.
Proof.
  intros Hans Hc. specialize (Hans (env m) c Hc).
  destruct c; cbn; try congruence;
    try (destruct (respond (env m) _) as [[? ?]|]; congruence).
  destruct (hw_driven r); [|congruence].
  destruct (respond (env m) _) as [[? ?]|]; congruence.
Qed.

Lemma within_call c : c <> CFault -> within 1 (do_call c).
Proof.
  intros Hc Env respond fuel m Hans Hf.
  destruct fuel as [|[|fuel]]; try lia. rewrite run_do_call.
  pose proof (perform_answers' m Hans Hc) as Hp.
  destruct (perform respond m c) as [[z m']|]; [|congruence].
  exists z, (S fuel). split; [reflexivity|lia].
Qed.

Lemma within_bind R T (t : prog R) (k : R -> prog T) a b :
  within a t -> (forall r, within b (k r)) -> within (a + b) (ITree.bind t k).
Proof.
  intros H1 H2 Env respond fuel m Hans Hf.
  destruct (H1 Env respond fuel m Hans ltac:(lia)) as [r [n [Hst Hn]]].
  destruct (H2 r Env respond n (out_machine (run respond fuel t m)) Hans ltac:(lia))
    as [r' [n' [Hst' Hn']]].
  exists r', n'. rewrite run_bind. unfold then_run. rewrite Hst. cbn [out_status].
  split; [exact Hst'|lia].
Qed.

(** *** Printing *)

Lemma ensures_print chars :
  forall c after, Forall (fun x => x <> 0) chars ->
    ensures (print (c :: chars ++ 0 :: after))
      (fun rf _ tr rf' =>
         xmitted tr = List.map Int.to_uint8 (c :: chars) /\ rf' = rf).
Proof.
  induction chars as [|c' chars IH]; intros c after Hnz.
  - cbn [print app]. change (0 =? 0) with true. cbv iota.
    eapply ensures_weaken.
    + eapply ensures_bind; [apply ensures_call; discriminate|intros ?; apply ensures_ret].
    + cbn beta. intros rf r tr rf' [z [tr1 [rf1 [tr2 [-> [[-> ->] [_ [-> ->]]]]]]]].
      now split.
  - inversion Hnz as [|? ? Hc' Hnz']; subst. apply Z.eqb_neq in Hc'.
    cbn [print app]. rewrite Hc'. eapply ensures_weaken.
    + eapply ensures_bind; [apply ensures_call; discriminate|intros ?; now apply IH].
    + cbn beta. intros rf r tr rf' [z [tr1 [rf1 [tr2 [-> [[-> ->] [Hx ->]]]]]]].
      split; [|reflexivity]. cbn [app xmitted List.map] in *. now rewrite Hx.
Qed.

(** A string literal without NUL in it, printed from its first character. *)
Lemma ensures_print_text (s : string) :
  match text s with
  | [] => False
  | c :: chars =>
      forallb (fun x => negb (x =? 0)) chars = true
      /\ List.map Int.to_uint8 (c :: chars) = c :: chars
  end ->
  ensures (print (cstring s))
    (fun rf _ tr rf' => xmitted tr = text s /\ rf' = rf).
Proof.
  unfold cstring. fold (text s). destruct (text s) as [|c chars]; [contradiction|].
  intros [Hnz Hb]. apply nonzero_forallb in Hnz.
  eapply ensures_weaken; [exact (ensures_print c [] Hnz)|].
  cbn beta. intros rf r tr rf' [Hx ->]. now rewrite Hx, Hb.
Qed.

Lemma hextbl_bytes n : Int.to_uint8 (nth n hextbl 0) = nth n hextbl 0.
Proof. do 17 (destruct n as [|n]; [reflexivity|]). now destruct n. Qed.

Lemma ensures_print_hexb c :
  ensures (print_hexb c)
    (fun rf _ tr rf' => xmitted tr = hex_digits (Int.to_uint8 c) /\ rf' = rf).
Proof.
  unfold print_hexb, SoftSerial_xmit. cbv zeta. rewrite !hextbl_bytes.
  eapply ensures_weaken.
  - eapply ensures_bind; [apply ensures_call; discriminate|intros ?].
    eapply ensures_bind; [apply ensures_call; discriminate|intros ?; apply ensures_ret].
  - cbn beta. intros rf r tr rf' H.
    destruct H as [z1 [tr1 [rf1 [tr2 [-> [[-> ->] H]]]]]].
    destruct H as [z2 [tr3 [rf2 [tr4 [-> [[-> ->] [_ [-> ->]]]]]]]].
    now split.
Qed.

(** *** [setup] *)

Lemma xmitted_app tr1 tr2 : xmitted (tr1 ++ tr2) = xmitted tr1 ++ xmitted tr2.
Proof.
  induction tr1 as [|[c z] tr1 IH]; [reflexivity|].
  destruct c; cbn; try exact IH. now rewrite IH.
Qed.

(** One step of a proof about [ensures]: split a sequence, or close a call,
    a print or a return. *)
Ltac ensures_step :=
  lazymatch goal with
  | |- ensures (ITree.bind _ _) _ => eapply ensures_bind; [|intros ?]
  | |- ensures (Ret _) _ => apply ensures_ret
  | |- ensures (store _ _) _ => apply ensures_store
  | |- ensures (load _) _ => apply ensures_load; reflexivity
  | |- ensures (print_hexb _) _ => apply ensures_print_hexb
  | |- ensures (print (cstring _)) _ =>
      apply ensures_print_text; vm_compute; split; reflexivity
  | |- ensures _ _ => apply ensures_call; discriminate
  end.

(** Take a postcondition built by [ensures_bind] apart. *)
Ltac ensures_open :=
  repeat match goal with
         | H : exists _, _ |- _ => destruct H
         | H : _ /\ _ |- _ => destruct H
         end; subst.

(** *** Footprints *)

Lemma only_forall allowed tr :
  forall s s', mon (only_next allowed) s tr = Some s' ->
    Forall (fun ev => allowed (fst ev) = true) tr.
Proof.
  induction tr as [|ev tr IH]; intros s s' H; [constructor|].
  apply mon_cons in H. destruct H as [s1 [Hn Hm]]. unfold only_next in Hn.
  destruct (allowed (fst ev)) eqn:E; [|discriminate].
  constructor; [exact E|now apply (IH _ _ Hm)].
Qed.

(** One step of a footprint proof. *)
Ltac only_step :=
  lazymatch goal with
  | |- follows _ _ (ITree.bind _ _) _ _ => eapply follows_bind; [|intros ?]
  | |- follows _ _ (Ret _) _ _ => apply follows_ret_eq; reflexivity
  | |- follows _ _ (if ?b then _ else _) _ _ => destruct b
  | |- follows _ _ (ITree.iter _ _) _ _ =>
      apply follows_iter with (J := fun _ => tt) (g := fun _ => tt); intros ?
  | |- follows _ _ _ _ _ =>
      apply follows_call; [intros ?; reflexivity|reflexivity]
  end.

Lemma Set_DCO_only Delta :
  follows (only_next clock_call) (only_waits clock_call) (Set_DCO Delta) tt
    (fun _ => tt).
Proof.
  unfold Set_DCO, Set_DCO_body, wait_capture, DCO_slower, DCO_faster.
  repeat only_step. all: repeat only_step.
Qed.

Lemma clock_call_silent tr :
  Forall (fun ev => clock_call (fst ev) = true) tr ->
  xmitted tr = [] /\ ~ In CInit (calls tr)
  /\ Forall (fun ev => hw_call (fst ev) = true) tr.
Proof.
  induction 1 as [|[c z] tr Hc _ [IH1 [IH2 IH3]]]; [repeat split; auto|].
  cbn in Hc. repeat split.
  - destruct c; try discriminate; exact IH1.
  - intros [E|Hin]; [cbn in E; subst c; discriminate|now apply IH2].
  - constructor; [|exact IH3]. now destruct c.
Qed.

Lemma follows_ensures St (next : St -> event -> option St) waits R (t : prog R) s f :
  follows next waits t s f ->
  ensures t (fun _ r tr _ => mon next s tr = Some (f r)).
Proof.
  intros F Env respond fuel m r n o Hst.
  destruct (F Env respond fuel m) as [s' [Hm Hs]]. fold o in Hm, Hs.
  rewrite Hst in Hs. now subst s'.
Qed.

Lemma to_uint8_land z : Int.to_uint8 z = Z.land z (Z.ones 8).
Proof. unfold Int.to_uint8. now rewrite Z.land_ones by lia. Qed.

(** Setting bits of a byte, or clearing some, gives a byte. *)
Lemma to_uint8_lor a b :
  Int.to_uint8 (Z.lor (Int.to_uint8 a) (Int.to_uint8 b))
  = Z.lor (Int.to_uint8 a) (Int.to_uint8 b).
Proof.
  rewrite !to_uint8_land, Z.land_lor_distr_l, <- !Z.land_assoc.
  now rewrite Z.land_diag.
Qed.

Lemma to_uint8_land_l a b :
  Int.to_uint8 (Z.land (Int.to_uint8 a) b) = Z.land (Int.to_uint8 a) b.
Proof.
  rewrite !to_uint8_land, <- !Z.land_assoc, (Z.land_comm b),
    !Z.land_assoc, <- (Z.land_assoc a). now rewrite Z.land_diag.
Qed.

(** [setup], when it returns: what it has transmitted, and in the build
    with constants the registers it leaves. *)
Lemma setup_ensures cfg :
  ensures (setup cfg)
    (fun rf _ tr rf' =>
       xmitted tr
       = dco_report (reg_trunc BCSCTL1 (rf' BCSCTL1)) (reg_trunc DCOCTL (rf' DCOCTL))
       /\ (CALIBRATE_DCO cfg = false ->
           rf' WDTCTL = 0x5A80
           /\ rf' P1DIR = Z.lor (Int.to_uint8 (rf P1DIR)) 0x11
           /\ rf' P1SEL = Z.lor (Int.to_uint8 (rf P1SEL)) 0x11
           /\ rf' BCSCTL3 = Z.land (Int.to_uint8 (rf BCSCTL3)) (Z.lnot Hw.XCAP_3)
           /\ rf' BCSCTL1 = 0x8F /\ rf' DCOCTL = 0x7E
           /\ forall r, hw_driven r = true -> rf' r = rf r)).
Proof.
  unfold setup.
  eapply ensures_weaken.
  - do 12 (eapply ensures_bind; [ensures_step|intros ?]).
    eapply ensures_bind
      with (Q1 := fun rf _ tr rf' =>
                    xmitted tr = []
                    /\ (CALIBRATE_DCO cfg = false ->
                        rf' = reg_set (reg_set (reg_set rf DCOCTL 0x00) BCSCTL1 0x8F)
                                DCOCTL 0x7E)).
    + destruct (CALIBRATE_DCO cfg).
      * eapply ensures_weaken; [apply (follows_ensures (Set_DCO_only _))|].
        cbn beta. intros rfa ra tra rfb Hm. apply only_forall, clock_call_silent in Hm.
        split; [apply Hm|discriminate].
      * eapply ensures_weaken; [repeat ensures_step|].
        cbn beta. intros rfa ra tra rfb H. ensures_open. now split.
    + intros ?. repeat ensures_step.
  - cbn beta. intros rf r tr rf' H. ensures_open.
    rewrite !xmitted_app. cbn [xmitted app]. split.
    + repeat match goal with H : xmitted _ = _ |- _ => rewrite H; clear H end.
      rewrite !reg_trunc_8 by reflexivity. rewrite !to_uint8_idem. reflexivity.
    + intros Hcfg.
      match goal with H : CALIBRATE_DCO cfg = false -> _ |- _ => specialize (H Hcfg); subst end.
      unfold reg_set. cbn [reg_eqb].
      change Hw.BIT0 with (Int.to_uint8 0x01). change Hw.BIT4 with (Int.to_uint8 0x10).
      repeat split; try reflexivity.
      * rewrite !(@reg_trunc_8 P1DIR) by reflexivity.
        now rewrite !to_uint8_idem, !to_uint8_lor, <- !Z.lor_assoc.
      * rewrite !(@reg_trunc_8 P1SEL) by reflexivity.
        now rewrite !to_uint8_idem, !to_uint8_lor, <- !Z.lor_assoc.
      * rewrite !(@reg_trunc_8 BCSCTL3) by reflexivity.
        now rewrite Z.lor_0_r, !to_uint8_land_l.
      * intros r0 Hr0. now destruct r0.
Qed.


Lemma within_print chars :
  forall c after, Forall (fun x => x <> 0) chars ->
    within (S (List.length chars)) (print (c :: chars ++ 0 :: after)).
Proof.
  induction chars as [|c' chars IH]; intros c after Hnz.
  - cbn [print app]. change (0 =? 0) with true. cbv iota.
    apply (@within_bind _ _ _ _ 1%nat 0%nat);
      [now apply within_call|intros ?; apply within_ret].
  - inversion Hnz as [|? ? Hc' Hnz']; subst. apply Z.eqb_neq in Hc'.
    cbn [print app]. rewrite Hc'.
    apply (@within_bind _ _ _ _ 1%nat (S (List.length chars)));
      [now apply within_call|intros ?; now apply IH].
Qed.

Lemma within_print_text (s : string) :
  match text s with
  | [] => False
  | c :: chars => forallb (fun x => negb (x =? 0)) chars = true
  end ->
  within (List.length (text s)) (print (cstring s)).
Proof.
  unfold cstring. fold (text s). destruct (text s) as [|c chars]; [contradiction|].
  intros Hnz. apply nonzero_forallb in Hnz. exact (within_print c [] Hnz).
Qed.

Lemma within_print_hexb c : within 2 (print_hexb c).
Proof.
  unfold print_hexb. cbv zeta.
  apply (@within_bind _ _ _ _ 1%nat 1%nat); [now apply within_call|intros ?].
  apply (@within_bind _ _ _ _ 1%nat 0%nat);
    [now apply within_call|intros ?; apply within_ret].
Qed.

(** One step of a proof about [within]. *)
Ltac within_step :=
  lazymatch goal with
  | |- within _ (ITree.bind _ _) => eapply within_bind; [|intros ?]
  | |- within _ (Ret _) => apply within_ret
  | |- within _ (print_hexb _) => apply within_print_hexb
  | |- within _ (print (cstring _)) =>
      apply within_print_text; vm_compute; reflexivity
  | |- within _ _ => apply within_call; discriminate
  end.

(** In the build with constants [setup] is 81 calls long. *)
Lemma setup_within f : within 81 (setup (Config false f)).
Proof.
  unfold setup. cbn [CALIBRATE_DCO].
  eapply within_weaken; [repeat within_step|]. vm_compute. lia.
Qed.

(** X1: in the build that sets the DCO from constants, [setup], when it
    returns, has stopped the watchdog (WDTCTL holds the password and the
    hold bit), has set bits 0 and 4 of P1DIR and of P1SEL and cleared the
    XCAP bits of BCSCTL3 without changing any other bit of these registers,
    and has left 0x8F in BCSCTL1 and 0x7E in DCOCTL; the timer registers
    are as they were.  It does return, within 81 steps, whenever the
    environment answers the calls. *)
Theorem setup_constants_registers :
  forall (f : Z) (Env : Type) (respond : Env -> call -> option (Z * Env))
         (fuel : nat) (m : machine Env),
    let o := run respond fuel (setup (Config false f)) m in
    (forall r n, out_status o = Done r n ->
       let m' := out_machine o in
       reg_get m' WDTCTL = 0x5A80
       /\ reg_get m' P1DIR = Z.lor (reg_get m P1DIR) 0x11
       /\ reg_get m' P1SEL = Z.lor (reg_get m P1SEL) 0x11
       /\ reg_get m' BCSCTL3 = Z.land (reg_get m BCSCTL3) (Z.lnot Hw.XCAP_3)
       /\ reg_get m' BCSCTL1 = 0x8F
       /\ reg_get m' DCOCTL = 0x7E
       /\ (forall r', hw_driven r' = true -> regs m' r' = regs m r'))
    /\ (answers respond -> (81 < fuel)%nat -> exists r n, out_status o = Done r n).
Proof.
  intros f Env respond fuel m o. split.
  - intros r n Hst m'.
    destruct (@setup_ensures (Config false f) Env respond fuel m r n Hst)
      as [_ Hregs].
    destruct (Hregs eq_refl) as [Hw [Hd [Hs [H3 [H1 [Hdco Hhw]]]]]].
    fold o in Hw, Hd, Hs, H3, H1, Hdco, Hhw. fold m' in Hw, Hd, Hs, H3, H1, Hdco, Hhw.
    unfold reg_get. rewrite Hw, Hd, Hs, H3, H1, Hdco.
    change 0x11 with (Int.to_uint8 0x11).
    repeat split; try reflexivity; try exact Hhw.
    + rewrite !(@reg_trunc_8 P1DIR) by reflexivity. apply to_uint8_lor.
    + rewrite !(@reg_trunc_8 P1SEL) by reflexivity. apply to_uint8_lor.
    + rewrite !(@reg_trunc_8 BCSCTL3) by reflexivity. apply to_uint8_land_l.
  - intros Hans Hfuel.
    destruct (@setup_within f Env respond fuel m Hans Hfuel) as [r [n [Hst _]]].
    now exists r, n.
Qed.

(** *** [main] *)

Lemma forever_never_returns Env (respond : Env -> call -> option (Z * Env))
      R T (t : prog R) fuel :
  forall m r n, out_status (run respond fuel (ITree.forever t : prog T) m) <> Done r n.
Proof.
  induction fuel as [fuel IH] using lt_wf_ind. intros m r n.
  rewrite run_forever. unfold then_run.
  destruct (out_status (run respond fuel t m)) as [r1 n1|c|] eqn:Hst;
    cbn [out_status]; try discriminate.
  apply run_spare in Hst. apply IH. lia.
Qed.

(** Around a body that never returns, [while (1)] adds nothing. *)
Lemma forever_once Env (respond : Env -> call -> option (Z * Env))
      (t : prog unit) fuel m :
  (forall r n, out_status (run respond fuel t m) <> Done r n) ->
  run respond fuel (ITree.forever t : prog unit) m = run respond fuel t m.
Proof.
  rewrite run_forever. unfold then_run.
  generalize (run respond fuel t m). intros [tr m' st] Hn.
  cbn [out_status out_trace out_machine] in *.
  destruct st as [r n|c|]; try reflexivity. now contradiction (Hn r n).
Qed.

(** X3: [main] never returns, in either build and whatever the environment
    does; and since [loop()] itself never returns, the [while (1)] around
    its call in [main] never comes round: a run of [main] is a run of
    [setup()] followed by a single call of [loop()]. *)
Theorem main_never_returns :
  forall (cfg : config) (Env : Type) (respond : Env -> call -> option (Z * Env))
         (fuel : nat) (m : machine Env),
    (forall r n, out_status (run respond fuel (main cfg) m) <> Done r n)
    /\ run respond fuel (main cfg) m
       = run respond fuel (setup cfg ;; loop) m.
Proof.
  intros cfg Env respond fuel m. unfold main. rewrite !run_bind. unfold then_run.
  destruct (out_status (run respond fuel (setup cfg) m)) as [r1 n1|c|];
    cbn [out_status]; try (split; [discriminate|reflexivity]).
  split; [apply forever_never_returns|].
  rewrite forever_once; [reflexivity|]. unfold loop. apply forever_never_returns.
Qed.

(** *** The unchecked-read loop as an echo *)

Lemma nc_balance tr :
  forall p p', mon nc_next p tr = Some p' ->
    nc_pending p ++ List.map Int.to_uint8 (delivered_nc tr)
    = xmitted tr ++ nc_pending p'.
Proof.
  induction tr as [|ev tr IH]; intros p p' H.
  - cbn in H. injection H as <-. cbn. now rewrite app_nil_r.
  - apply mon_cons in H. destruct H as [p1 [Hn Hm]]. apply IH in Hm.
    apply nc_next_inv in Hn.
    destruct Hn as [[n [-> [-> ->]]] | [[cnt [c [-> [-> ->]]]] | [c [cnt [z [-> [-> ->]]]]]]];
      cbn [nc_pending delivered_nc xmitted List.map app].
    + destruct (Int.to_uint16 n =? 0); exact Hm.
    + cbn [nc_pending app] in Hm. exact Hm.
    + unfold nc_after in Hm.
      destruct (Int.to_uint16 (cnt - 1) =? 0); cbn [nc_pending app] in Hm;
        now rewrite <- Hm.
Qed.

Lemma nc_at_xmit tr :
  forall p b cnt, mon nc_next p tr = Some (NcXmit b cnt) ->
    (tr = [] /\ p = NcXmit b cnt)
    \/ exists tr' c, tr = tr' ++ [(CReadNc, c)] /\ b = Int.to_uint8 c.
Proof.
  induction tr as [|ev tr IH]; intros p b cnt H.
  - cbn in H. injection H as ->. now left.
  - right. apply mon_cons in H. destruct H as [p1 [Hn Hm]].
    destruct (IH _ _ _ Hm) as [[-> ->] | [tr' [c [-> Hb]]]].
    + apply nc_next_inv in Hn.
      destruct Hn as [[n [_ [_ Hp]]] | [[cnt' [c [_ [-> Hp]]]] | [c [cnt' [z [_ [_ Hp]]]]]]].
      * now destruct (Int.to_uint16 n =? 0).
      * injection Hp as -> _. now exists [], c.
      * unfold nc_after in Hp. now destruct (Int.to_uint16 (cnt' - 1) =? 0).
    + exists (ev :: tr'), c. now split.
Qed.

(** *** The result of [Set_DCO] *)







(** *** What [Set_DCO] leaves alone *)

(** A register keeps its value as long as nothing is stored to it. *)
Lemma replay_keeps Env (respond : Env -> call -> option (Z * Env)) r tr :
  forall m m', replay respond m tr = Some m' ->
    Forall (fun ev => forall v, fst ev <> CStore r v) tr ->
    regs m' r = regs m r.
Proof.
  induction tr as [|[c z] tr IH]; intros m m' H Hall.
  - cbn in H. now injection H as <-.
  - inversion Hall as [|? ? Hc Hall']; subst. cbn [replay] in H.
    destruct (perform respond m c) as [[z' m1]|] eqn:E; [|discriminate].
    destruct (z' =? z); [|discriminate]. rewrite (IH _ _ H Hall').
    destruct c; cbn in E;
      try (destruct (respond (env m) _) as [[? ?]|]; [|discriminate];
           now injection E as _ <-).
    + destruct (hw_driven r0).
      * destruct (respond (env m) _) as [[? ?]|]; [|discriminate].
        now injection E as _ <-.
      * now injection E as _ <-.
    + injection E as _ <-. cbn. unfold reg_set.
      destruct (reg_eqb r0 r) eqn:Er; [|reflexivity].
      exfalso. apply (Hc v). cbn. f_equal. now destruct r0, r.
    + discriminate.
Qed.

(** X7: [Set_DCO] touches the clock and the timer and nothing else.  At
    every point of every run it has only read BCSCTL1, DCOCTL, TACCTL0 and
    TACCR0 and written BCSCTL1, DCOCTL, TACCTL0 and TACTL: it calls no
    function of the driver, and WDTCTL, P1DIR, P1SEL and BCSCTL3 hold what
    they held on entry.  It can only be held up in a read of TACCTL0 or
    TACCR0. *)
Theorem Set_DCO_footprint :
  forall (Env : Type) (respond : Env -> call -> option (Z * Env)) (Delta : Z)
         (fuel : nat) (m : machine Env),
    let o := run respond fuel (Set_DCO Delta) m in
    Forall (fun ev => clock_call (fst ev) = true) (out_trace o)
    /\ Forall (fun ev => driver_call (fst ev) = false /\ fst ev <> CInit) (out_trace o)
    /\ (forall r, In r [WDTCTL; P1DIR; P1SEL; BCSCTL3] ->
          regs (out_machine o) r = regs m r)
    /\ (forall c, out_status o = Stuck c -> c = CLoad TACCTL0 \/ c = CLoad TACCR0).
Proof.
  intros Env respond Delta fuel m o.
  destruct (Set_DCO_only Delta respond fuel m) as [s' [Hm Hs]]. fold o in Hm, Hs.
  pose proof Hm as Hall. apply only_forall in Hall.
  split; [exact Hall|]. split; [|split].
  - eapply Forall_impl; [|exact Hall]. intros [c z] Hc. cbn in *.
    destruct c; try discriminate; now split.
  - intros r Hr. apply (@replay_keeps _ respond r (out_trace o) m); [apply run_replay|].
    eapply Forall_impl; [|exact Hall]. intros [c z] Hc v E. cbn in *. subst c.
    cbn in Hr. destruct Hr as [<-|[<-|[<-|[<-|[]]]]]; discriminate.
  - intros c Hst. rewrite Hst in Hs. unfold only_waits in Hs.
    apply run_stuck in Hst. destruct c; try discriminate.
    destruct r; try discriminate; auto.
Qed.

(** *** Steps on the frequency ladder *)

Lemma DCO_slower_returns Env (respond : Env -> call -> option (Z * Env)) fuel m :
  (8 <= fuel)%nat ->
  exists n, out_status (run respond fuel DCO_slower m) = Done tt n
            /\ (fuel <= n + 6)%nat.
Proof.
  intros Hf. do 8 (destruct fuel as [|fuel]; [lia|]). clear Hf. unfold DCO_slower.
  rewrite run_load_own, run_store, run_load_own by reflexivity.
  cbn [out_status with_event]. destruct (_ =? 0xFF).
  - rewrite run_load_own by reflexivity. cbn [out_status with_event].
    destruct (negb _).
    + rewrite run_load_own, run_store by reflexivity. cbn [out_status with_event].
      rewrite run_ret. cbn [out_status]. eexists. split; [reflexivity|lia].
    + rewrite run_ret. cbn [out_status]. eexists. split; [reflexivity|lia].
  - rewrite run_ret. cbn [out_status]. eexists. split; [reflexivity|lia].
Qed.

Lemma DCO_faster_returns Env (respond : Env -> call -> option (Z * Env)) fuel m :
  (8 <= fuel)%nat ->
  exists n, out_status (run respond fuel DCO_faster m) = Done tt n
            /\ (fuel <= n + 6)%nat.
Proof.
  intros Hf. do 8 (destruct fuel as [|fuel]; [lia|]). clear Hf. unfold DCO_faster.
  rewrite run_load_own, run_store, run_load_own by reflexivity.
  cbn [out_status with_event]. destruct (_ =? 0x00).
  - rewrite run_load_own by reflexivity. cbn [out_status with_event].
    destruct (negb _).
    + rewrite run_load_own, run_store by reflexivity. cbn [out_status with_event].
      rewrite run_ret. cbn [out_status]. eexists. split; [reflexivity|lia].
    + rewrite run_ret. cbn [out_status]. eexists. split; [reflexivity|lia].
  - rewrite run_ret. cbn [out_status]. eexists. split; [reflexivity|lia].
Qed.

Lemma rsel_range b : 0 <= rsel b < 16.
Proof. rewrite rsel_mod. apply Z.mod_pos_bound. lia. Qed.

Lemma step_down d b :
  0 <= d < 256 -> 0 <= b < 256 ->
  let d' := Int.to_uint8 (d - 1) in
  let b' := if (d' =? 0xFF) && negb (rsel b =? 0) then b - 1 else b in
  256 * rsel b' + d'
  = if 256 * rsel b + d =? 0 then 255 else 256 * rsel b + d - 1.
Proof.
  intros Hd Hb d' b'. pose proof (rsel_range b) as Hr. subst d' b'.
  destruct (Z.eq_dec d 0) as [->|Hd0].
  - change (Int.to_uint8 (0 - 1)) with 255. cbn [Z.eqb Pos.eqb andb].
    destruct (rsel b =? 0) eqn:Er; cbn [negb].
    + apply Z.eqb_eq in Er. rewrite Er. reflexivity.
    + apply Z.eqb_neq in Er. destruct (rsel_down Hb Er) as [_ [_ ->]].
      destruct (256 * rsel b + 0 =? 0) eqn:E; [apply Z.eqb_eq in E|]; lia.
  - rewrite to_uint8_small by lia.
    destruct (d - 1 =? 255) eqn:E; [apply Z.eqb_eq in E; lia|]. cbn [andb].
    destruct (256 * rsel b + d =? 0) eqn:E0; [apply Z.eqb_eq in E0|]; lia.
Qed.

Lemma step_up d b :
  0 <= d < 256 -> 0 <= b < 256 ->
  let d' := Int.to_uint8 (d + 1) in
  let b' := if (d' =? 0x00) && negb (rsel b =? 0x0f) then b + 1 else b in
  256 * rsel b' + d'
  = if 256 * rsel b + d =? 4095 then 3840 else 256 * rsel b + d + 1.
Proof.
  intros Hd Hb d' b'. pose proof (rsel_range b) as Hr. subst d' b'.
  destruct (Z.eq_dec d 255) as [->|Hd0].
  - change (Int.to_uint8 (255 + 1)) with 0. cbn [Z.eqb andb].
    destruct (rsel b =? 0x0f) eqn:Er; cbn [negb].
    + apply Z.eqb_eq in Er. rewrite Er. reflexivity.
    + apply Z.eqb_neq in Er. destruct (rsel_up Hb Er) as [_ [_ ->]].
      destruct (256 * rsel b + 255 =? 4095) eqn:E; [apply Z.eqb_eq in E|]; lia.
  - rewrite to_uint8_small by lia.
    destruct (d + 1 =? 0) eqn:E; [apply Z.eqb_eq in E; lia|]. cbn [andb].
    destruct (256 * rsel b + d =? 4095) eqn:E0; [apply Z.eqb_eq in E0|]; lia.
Qed.

Lemma DCO_slower_position Env (respond : Env -> call -> option (Z * Env)) fuel m n :
  out_status (run respond fuel DCO_slower m) = Done tt n ->
  dco_position (out_machine (run respond fuel DCO_slower m))
  = if dco_position m =? 0 then 255 else dco_position m - 1.
Proof.
  intros Hst.
  pose proof (@reg_get_range Env m DCOCTL eq_refl) as Hd.
  pose proof (@reg_get_range Env m BCSCTL1 eq_refl) as Hb.
  destruct (DCO_slower_run respond fuel m) as [_ [_ [_ Hdone]]].
  destruct (Hdone tt n Hst) as [Hd' Hb'].
  unfold dco_position. rewrite Hd', Hb'. now apply step_down.
Qed.

Lemma DCO_faster_position Env (respond : Env -> call -> option (Z * Env)) fuel m n :
  out_status (run respond fuel DCO_faster m) = Done tt n ->
  dco_position (out_machine (run respond fuel DCO_faster m))
  = if dco_position m =? 4095 then 3840 else dco_position m + 1.
Proof.
  intros Hst.
  pose proof (@reg_get_range Env m DCOCTL eq_refl) as Hd.
  pose proof (@reg_get_range Env m BCSCTL1 eq_refl) as Hb.
  destruct (DCO_faster_run respond fuel m) as [_ [_ [_ Hdone]]].
  destruct (Hdone tt n Hst) as [Hd' Hb'].
  unfold dco_position. rewrite Hd', Hb'. now apply step_up.
Qed.

Lemma dco_position_range Env (m : machine Env) : 0 <= dco_position m < 4096.
Proof.
  unfold dco_position.
  pose proof (@reg_get_range Env m DCOCTL eq_refl).
  pose proof (rsel_range (reg_get m BCSCTL1)). lia.
Qed.

(** X8: the two adjustments of [Set_DCO] treat RSEL and DCOCTL as one
    12-bit setting.  "DCO is too fast" takes one step down and "DCO is too
    slow" one step up, carrying between DCOCTL and RSEL; they always return.
    At the two ends there is no carry and DCOCTL alone wraps around: from
    the lowest setting (RSEL 0, DCOCTL 0x00) slowing down leaves RSEL 0 with
    DCOCTL 0xFF, and from the highest (RSEL 15, DCOCTL 0xFF) speeding up
    leaves RSEL 15 with DCOCTL 0x00. *)
Theorem DCO_steps_on_ladder :
  forall (Env : Type) (respond : Env -> call -> option (Z * Env))
         (k : nat) (m : machine Env),
    let p := dco_position m in
    (let o := run respond (8 + k) DCO_slower m in
     (exists n, out_status o = Done tt n)
     /\ dco_position (out_machine o) = if p =? 0 then 255 else p - 1)
    /\ (let o := run respond (8 + k) DCO_faster m in
        (exists n, out_status o = Done tt n)
        /\ dco_position (out_machine o) = if p =? 4095 then 3840 else p + 1).
Proof.
  intros Env respond k m p. split; intros o.
  - destruct (@DCO_slower_returns _ respond (8 + k)%nat m ltac:(lia)) as [n [Hst _]].
    fold o in Hst. split; [eauto|]. exact (DCO_slower_position _ _ _ Hst).
  - destruct (@DCO_faster_returns _ respond (8 + k)%nat m ltac:(lia)) as [n [Hst _]].
    fold o in Hst. split; [eauto|]. exact (DCO_faster_position _ _ _ Hst).
Qed.

(** X9: the two adjustments undo each other, except at the ends of the
    range.  Slowing down and then speeding up gives the setting back, unless
    it was the lowest: then DCOCTL wrapped to 0xFF and back to 0x00, and the
    carry of the way back raises RSEL from 0 to 1.  Speeding up and then
    slowing down gives the setting back, unless it was the highest: then
    RSEL ends at 14 with DCOCTL 0xFF. *)
Theorem DCO_adjustments_round_trip :
  forall (Env : Type) (respond : Env -> call -> option (Z * Env))
         (k : nat) (m : machine Env),
    let p := dco_position m in
    (let o := run respond (16 + k) (DCO_slower ;; DCO_faster) m in
     (exists n, out_status o = Done tt n)
     /\ dco_position (out_machine o) = if p =? 0 then 256 else p)
    /\ (let o := run respond (16 + k) (DCO_faster ;; DCO_slower) m in
        (exists n, out_status o = Done tt n)
        /\ dco_position (out_machine o) = if p =? 4095 then 3839 else p).
Proof.
  intros Env respond k m p. pose proof (dco_position_range m) as Hp. fold p in Hp.
  generalize (16 + k)%nat (Nat.le_add_r 16 k). intros fuel Hfuel.
  split; intros o; subst o; rewrite run_bind; unfold then_run.
  - destruct (@DCO_slower_returns _ respond fuel m ltac:(lia)) as [n [Hst Hn]].
    pose proof (DCO_slower_position _ _ _ Hst) as Hpos. fold p in Hpos.
    rewrite Hst. cbn [out_status out_machine].
    destruct (@DCO_faster_returns _ respond n
                (out_machine (run respond fuel DCO_slower m)) ltac:(lia))
      as [n' [Hst' _]].
    split; [eauto|]. rewrite (DCO_faster_position _ _ _ Hst'), Hpos.
    clear Hst Hst' Hpos. clearbody p.
    destruct (p =? 0) eqn:E0; [reflexivity|]. apply Z.eqb_neq in E0.
    destruct (p - 1 =? 4095) eqn:E; [apply Z.eqb_eq in E|]; lia.
  - destruct (@DCO_faster_returns _ respond fuel m ltac:(lia)) as [n [Hst Hn]].
    pose proof (DCO_faster_position _ _ _ Hst) as Hpos. fold p in Hpos.
    rewrite Hst. cbn [out_status out_machine].
    destruct (@DCO_slower_returns _ respond n
                (out_machine (run respond fuel DCO_faster m)) ltac:(lia))
      as [n' [Hst' _]].
    split; [eauto|]. rewrite (DCO_slower_position _ _ _ Hst'), Hpos.
    clear Hst Hst' Hpos. clearbody p.
    destruct (p =? 4095) eqn:E0; [reflexivity|]. apply Z.eqb_neq in E0.
    destruct (p + 1 =? 0) eqn:E; [apply Z.eqb_eq in E|]; lia.
Qed.

(** ** Results that are not looked at *)

Lemma answered_app sel r tr1 tr2 :
  answered sel r (tr1 ++ tr2) = answered sel r tr1 ++ answered sel r tr2.
Proof. apply map_app. Qed.

Lemma blind_eq_itree R sel (t1 t2 : prog R) :
  t1 ≅ t2 -> blind_to sel t1 -> blind_to sel t2.
Proof.
  intros H B Env respond r fuel m.
  rewrite <- !(run_eq_itree _ fuel m H). apply B.
Qed.

Lemma blind_ret R sel (x : R) : blind_to sel (Ret x).
Proof. intros Env respond r [|fuel] m; now repeat split. Qed.

(** A call that is not selected is answered as before. *)
Lemma perform_returning_other Env (respond : Env -> call -> option (Z * Env))
      sel r m c :
  sel c = false -> perform (returning sel r respond) m c = perform respond m c.
Proof.
  intros Hc. destruct c; cbn; unfold returning; rewrite ?Hc; reflexivity.
Qed.

(** A selected call does to the machine what it did before. *)
Lemma perform_returning_same Env (respond : Env -> call -> option (Z * Env))
      sel r m c :
  hw_call c = false ->
  perform (returning sel r respond) m c =
  match perform respond m c with
  | Some (z, m') => Some (if sel c then r else z, m')
  | None => None
  end.
Proof.
  intros Hc. destruct c; try discriminate; cbn; unfold returning;
    try reflexivity;
    destruct (sel _); destruct (respond (env m) _) as [[z e']|]; reflexivity.
Qed.

Lemma blind_call sel c : sel c = false -> blind_to sel (do_call c).
Proof.
  intros Hc Env respond r [|fuel] m; [now repeat split|].
  rewrite !run_do_call, (perform_returning_other respond sel r m c Hc).
  destruct (perform respond m c) as [[z m']|]; [|now repeat split].
  destruct fuel as [|fuel]; cbn; rewrite Hc; now repeat split.
Qed.

(** A call whose result is dropped: the program goes on the same way
    whatever it returned. *)
Lemma blind_discard R sel c (k : prog R) :
  hw_call c = false -> blind_to sel k ->
  blind_to sel (ITree.bind (do_call c) (fun _ => k)).
Proof.
  intros Hc Bk Env respond r [|fuel] m; [now repeat split|].
  rewrite !run_call, (perform_returning_same respond sel r m c Hc).
  destruct (perform respond m c) as [[z m']|]; [|now repeat split].
  destruct (Bk Env respond r fuel m') as [Ht [Hm Hs]]. cbn in *.
  rewrite Ht, Hm, Hs. repeat split. now destruct (sel c).
Qed.

Lemma blind_bind R T sel (t : prog R) (k : R -> prog T) :
  blind_to sel t -> (forall x, blind_to sel (k x)) -> blind_to sel (ITree.bind t k).
Proof.
  intros Bt Bk Env respond r fuel m. cbv zeta. rewrite !run_bind. unfold then_run.
  destruct (Bt Env respond r fuel m) as [Ht [Hm Hs]]. rewrite Hs, Hm, Ht.
  destruct (out_status (run respond fuel t m)) as [x n|c|];
    cbn [out_trace out_machine out_status]; try now repeat split.
  destruct (Bk x Env respond r n (out_machine (run respond fuel t m))) as [Ht' [Hm' Hs']].
  rewrite Ht', Hm', Hs', answered_app. now repeat split.
Qed.

Lemma blind_iter A R sel (body : A -> prog (A + R)) :
  (forall i, blind_to sel (body i)) -> forall i, blind_to sel (ITree.iter body i).
Proof.
  intros Bb i Env respond r fuel. revert i.
  induction fuel as [fuel IH] using lt_wf_ind. intros i m. cbv zeta.
  rewrite !run_iter. unfold then_run.
  destruct (Bb i Env respond r fuel m) as [Ht [Hm Hs]]. rewrite Hs, Hm, Ht.
  destruct (out_status (run respond fuel (body i) m)) as [[i'|x] n|c|] eqn:Hst;
    cbn [out_trace out_machine out_status]; try now repeat split.
  - apply run_spare in Hst.
    destruct (IH (pred n) ltac:(lia) i' (out_machine (run respond fuel (body i) m)))
      as [Ht' [Hm' Hs']].
    rewrite Ht', Hm', Hs', answered_app. now repeat split.
  - destruct n as [|n]; cbn; rewrite ?answered_app; now repeat split.
Qed.

Lemma blind_forever R T sel (t : prog R) :
  blind_to sel t -> blind_to sel (ITree.forever t : prog T).
Proof.
  intros Bt Env respond r fuel.
  induction fuel as [fuel IH] using lt_wf_ind. intros m. cbv zeta.
  rewrite !run_forever. unfold then_run.
  destruct (Bt Env respond r fuel m) as [Ht [Hm Hs]]. rewrite Hs, Hm, Ht.
  destruct (out_status (run respond fuel t m)) as [x n|c|] eqn:Hst;
    cbn [out_trace out_machine out_status]; try now repeat split.
  apply run_spare in Hst.
  destruct (IH (pred n) ltac:(lia) (out_machine (run respond fuel t m)))
    as [Ht' [Hm' Hs']].
  rewrite Ht', Hm', Hs', answered_app. now repeat split.
Qed.

Lemma blind_fault R sel : blind_to sel (fault : prog R).
Proof. intros Env respond r [|fuel] m; now repeat split. Qed.

(** One step of a proof that a result is not looked at: a call whose result
    is dropped, a call that is not selected, a sequence, a loop. *)
Ltac blind_step :=
  lazymatch goal with
  | |- blind_to _ (Ret _) => apply blind_ret
  | |- blind_to _ (if ?b then _ else _) => destruct b
  | |- blind_to _ (ITree.iter _ _) => apply blind_iter; intros ?
  | |- blind_to _ (ITree.forever _) => apply blind_forever
  | |- blind_to _ (ITree.bind _ _) =>
      first [ apply blind_discard; [reflexivity|]
            | apply blind_bind; [|intros ?] ]
  | |- blind_to _ _ => apply blind_call; reflexivity
  end.

Lemma print_blind sel s : blind_to sel (print s).
Proof.
  induction s as [|c s IH]; [apply blind_fault|].
  cbn [print]. apply blind_discard; [reflexivity|].
  destruct s as [|c' s']; [apply blind_fault|].
  destruct (c' =? 0); [apply blind_ret|exact IH].
Qed.

Lemma putchar_blind c : blind_to is_xmit (putchar c).
Proof. unfold putchar. repeat blind_step. Qed.

Lemma print_hexb_blind sel c : blind_to sel (print_hexb c).
Proof. unfold print_hexb. cbv zeta. repeat blind_step. Qed.

Lemma loop_blind : blind_to is_xmit loop.
Proof. unfold loop. repeat blind_step. Qed.

Lemma loop_nc_blind : blind_to is_xmit loop_nc.
Proof. unfold loop_nc. repeat blind_step. Qed.

Lemma Set_DCO_blind sel Delta :
  (forall r, sel (CLoad r) = false) -> (forall r v, sel (CStore r v) = false) ->
  blind_to sel (Set_DCO Delta).
Proof.
  intros Hl Hs.
  unfold Set_DCO, Set_DCO_body, wait_capture, DCO_slower, DCO_faster, load, store.
  repeat first [ apply blind_call; solve [apply Hl | apply Hs] | blind_step ].
Qed.

Lemma setup_blind cfg : blind_to is_init (setup cfg).
Proof.
  unfold setup.
  do 12 (apply blind_bind; [apply blind_call; reflexivity|intros ?]).
  apply blind_bind.
  - destruct (CALIBRATE_DCO cfg); [now apply Set_DCO_blind|repeat blind_step].
  - intros ?. apply blind_discard; [reflexivity|].
    repeat first [ apply print_blind | apply print_hexb_blind | blind_step ].
Qed.

Lemma main_blind cfg : blind_to is_init (main cfg).
Proof.
  unfold main. apply blind_bind; [apply setup_blind|intros ?].
  apply blind_forever. unfold loop. repeat blind_step.
Qed.

(** ** The start-up with calibration *)

Section Calibrating.

Variable Delta : Z.

Local Abbreviation cals := (follows (cal_next Delta) cal_waits).

(** One step of a proof that the monitor is followed. *)
Ltac cal_step :=
  lazymatch goal with
  | |- follows _ _ (ITree.bind _ _) _ _ => eapply follows_bind; [|intros ?]
  | |- follows _ _ (Ret _) _ _ => apply follows_ret_eq; reflexivity
  | |- follows _ _ (if ?b then _ else _) _ _ => destruct b
  | |- follows _ _ _ _ _ =>
      apply follows_call; [intros ?; reflexivity|cbn; auto]
  end.

Lemma wait_capture_cals old :
  cals wait_capture (CalWait old) (fun _ => CalAck old).
Proof.
  unfold wait_capture.
  apply follows_iter with (J := fun _ : unit => CalWait old) (g := fun _ : unit => CalAck old).
  intros [].
  eapply follows_bind
    with (f := fun f => if Z.land Hw.CCIFG f =? 0 then CalWait old else CalAck old).
  - apply follows_call; [intros ?; reflexivity|reflexivity].
  - intros f. destruct (Z.land Hw.CCIFG f =? 0); now apply follows_ret_eq.
Qed.

Lemma DCO_slower_cals old : cals DCO_slower (CalWait old) (fun _ => CalWait old).
Proof. unfold DCO_slower. repeat cal_step. Qed.

Lemma DCO_faster_cals old : cals DCO_faster (CalWait old) (fun _ => CalWait old).
Proof. unfold DCO_faster. repeat cal_step. Qed.

Lemma Set_DCO_body_cals old :
  cals (Set_DCO_body Delta old) (CalWait old)
    (fun lr => match lr with inl old' => CalWait old' | inr _ => CalEnd 0 end).
Proof.
  unfold Set_DCO_body.
  eapply follows_bind; [apply wait_capture_cals|intros ?].
  eapply follows_bind with (f := fun f => CalClear old f);
    [apply follows_call; [intros ?; reflexivity|reflexivity]|intros f].
  eapply follows_bind with (f := fun _ => CalFirst old);
    [apply follows_call; [|reflexivity]|intros ?].
  { intros ?. cbv beta iota delta [cal_next fst snd]. now rewrite Z.eqb_refl. }
  eapply follows_bind with (f := fun c1 => CalSecond (Int.to_uint16 (c1 - old)));
    [apply follows_call; [intros ?; reflexivity|reflexivity]|intros c1].
  cbv zeta.
  eapply follows_bind
    with (f := fun c2 => if Delta =? Int.to_uint16 (c1 - old) then CalEnd 0 else CalWait c2);
    [apply follows_call; [intros ?; reflexivity|reflexivity]|intros c2].
  destruct (Delta =? Int.to_uint16 (c1 - old)); [now apply follows_ret_eq|].
  destruct (Delta <? Int.to_uint16 (c1 - old)).
  - eapply follows_bind; [apply DCO_slower_cals|intros ?]. now apply follows_ret_eq.
  - eapply follows_bind; [apply DCO_faster_cals|intros ?]. now apply follows_ret_eq.
Qed.

Lemma Set_DCO_cals : cals (Set_DCO Delta) (CalWait 0) (fun _ => CalEnd 4).
Proof.
  unfold Set_DCO.
  do 4 (eapply follows_bind with (f := fun _ => CalWait 0);
        [apply follows_call; [intros ?; reflexivity|reflexivity]|intros ?]).
  eapply follows_bind with (f := fun _ => CalEnd 0).
  - apply follows_iter with (J := CalWait) (g := fun _ : unit => CalEnd 0).
    intros old. eapply follows_ext; [|apply Set_DCO_body_cals]. now intros [|].
  - intros ?. repeat cal_step.
Qed.

(** Once started, anything goes but a second [SoftSerial_init]. *)
Lemma cal_free_call c :
  c <> CInit -> cals (do_call c) CalStarted (fun _ => CalStarted).
Proof.
  intros Hc. apply follows_call; [|exact Hc]. intros z. cbn. now destruct c.
Qed.

Lemma cal_free_print s : cals (print s) CalStarted (fun _ => CalStarted).
Proof.
  induction s as [|c s IH]; [now apply follows_fault|].
  cbn [print]. eapply follows_bind; [now apply cal_free_call|].
  intros ?. destruct s as [|c' s']; [now apply follows_fault|].
  destruct (c' =? 0); [now apply follows_ret_eq|exact IH].
Qed.

Lemma cal_free_print_hexb c : cals (print_hexb c) CalStarted (fun _ => CalStarted).
Proof.
  unfold print_hexb.
  eapply follows_bind; [now apply cal_free_call|]. intros ?.
  eapply follows_bind; [now apply cal_free_call|]. intros ?.
  now apply follows_ret_eq.
Qed.


End Calibrating.

Lemma setup_cals cfg :
  CALIBRATE_DCO cfg = true ->
  follows (cal_next (Int.to_uint16 (Z.quot (F_CPU cfg) 4096))) cal_waits
    (setup cfg) (CalWait 0) (fun _ => CalStarted).
Proof.
  intros Hcfg. unfold setup. rewrite Hcfg.
  do 12 (eapply follows_bind with (f := fun _ => CalWait 0);
         [apply follows_call; [intros ?; reflexivity|reflexivity]|intros ?]).
  eapply follows_bind; [apply Set_DCO_cals|intros ?].
  eapply follows_bind with (f := fun _ => CalStarted);
    [apply follows_call; [intros ?; reflexivity|now right]|intros ?].
  eapply follows_bind; [now apply cal_free_call|intros ?].
  eapply follows_bind; [apply cal_free_print|intros ?].
  eapply follows_bind; [apply cal_free_print|intros ?].
  eapply follows_bind; [now apply cal_free_call|intros ?].
  eapply follows_bind; [apply cal_free_print_hexb|intros ?].
  eapply follows_bind; [apply cal_free_print|intros ?].
  eapply follows_bind; [apply cal_free_print|intros ?].
  eapply follows_bind; [now apply cal_free_call|intros ?].
  eapply follows_bind; [apply cal_free_print_hexb|intros ?].
  apply cal_free_print.
Qed.


(** *** Reading the monitor *)

Section CalFacts.

Variable Delta : Z.

Local Abbreviation next := (cal_next Delta).

Lemma cal_started tr :
  forall p, mon next CalStarted tr = Some p ->
    p = CalStarted /\ ~ In CInit (calls tr).
Proof.
  induction tr as [|ev tr IH]; intros p H.
  - cbn in H. injection H as <-. split; [reflexivity|now intros []].
  - apply mon_cons in H. destruct H as [p1 [Hn Hm]]. cbn in Hn.
    destruct (fst ev) eqn:E; try discriminate; injection Hn as <-;
      destruct (IH _ Hm) as [-> Hno]; (split; [reflexivity|]);
      intros [Hin|Hin]; try congruence; now apply Hno.
Qed.

(** After the loop: at most four register accesses, then the call. *)
Lemma cal_ended tr :
  forall k p, mon next (CalEnd k) tr = Some p ->
    match p with
    | CalEnd k' =>
        captures tr = [] /\ ~ In CInit (calls tr)
        /\ k' = (k + List.length tr)%nat /\ (tr <> [] -> k' <= 4)%nat
    | CalStarted =>
        exists pre z post,
          tr = pre ++ (CInit, z) :: post /\ captures pre = []
          /\ ~ In CInit (calls pre) /\ ~ In CInit (calls post)
          /\ (k + List.length pre = 4)%nat
    | _ => False
    end.
Proof.
  induction tr as [|ev tr IH]; intros k p H.
  - cbn in H. injection H as <-. repeat split; auto; cbn; try lia. congruence.
  - apply mon_cons in H. destruct H as [p1 [Hn Hm]].
    destruct ev as [c z]. cbn -[Nat.ltb] in Hn.
    assert (Hcases : (c = CInit /\ k = 4%nat /\ p1 = CalStarted)
                     \/ (hw_call c = true /\ c <> CLoad TACCR0 /\ (k < 4)%nat
                         /\ p1 = CalEnd (S k))).
    { destruct c; try destruct r;
        cbv beta iota delta [cal_next fst snd own_access hw_driven negb andb] in Hn;
        try discriminate.
      1:{ destruct (k =? 4)%nat eqn:Ek; [|discriminate]. apply Nat.eqb_eq in Ek.
          injection Hn as <-. now left. }
      all: destruct (k <? 4)%nat eqn:Ek; [|discriminate]; apply Nat.ltb_lt in Ek;
        injection Hn as <-; right; repeat split; try discriminate; auto. }
    destruct Hcases as [[-> [-> ->]] | [Hhw [Hc [Hk ->]]]].
    + apply cal_started in Hm. destruct Hm as [-> Hno].
      exists [], z, tr. repeat split; auto.
    + specialize (IH _ _ Hm). destruct p as [| | | | |k'|]; try contradiction.
      * destruct IH as [Hcap [Hno [-> Hle]]]. repeat split.
        -- destruct c; try exact Hcap. destruct r; try exact Hcap. congruence.
        -- intros [E|Hin]; [cbn in E; subst c; discriminate|now apply Hno].
        -- cbn. lia.
        -- intros _. destruct tr as [|ev' tr']; [cbn; lia|].
           specialize (Hle ltac:(discriminate)). cbn in *. lia.
      * destruct IH as [pre [z' [post [-> [Hcap [Hno [Hno' Hle]]]]]]].
        exists ((c, z) :: pre), z', post. repeat split; auto.
        -- destruct c; try exact Hcap. destruct r; try exact Hcap. congruence.
        -- intros [E|Hin]; [cbn in E; subst c; discriminate|now apply Hno].
        -- cbn. lia.
Qed.

(** A register access that is not a read of TACCR0 leaves the reading as it
    is. *)
Lemma cal_reading_cons old caps c z tr p :
  hw_call c = true -> c <> CLoad TACCR0 ->
  cal_reading Delta old caps tr p -> cal_reading Delta old caps ((c, z) :: tr) p.
Proof.
  intros Hhw Hc H.
  assert (Hcap : captures ((c, z) :: tr) = captures tr).
  { destruct c; try reflexivity. destruct r; try reflexivity. congruence. }
  assert (Hno : forall l, ~ In CInit (calls l) -> ~ In CInit (calls ((c, z) :: l))).
  { intros l Hl [E|Hin]; [cbn in E; subst c; discriminate|now apply Hl]. }
  destruct p as [old'|old'|old' f|old'|cmp|k|]; cbn [cal_reading] in *;
    try solve [rewrite Hcap; destruct H; split; auto].
  - destruct H as [Hcal [Hn [Hk Hsplit]]]. unfold calibrated in *. rewrite Hcap.
    repeat split; auto.
    destruct Hsplit as [pre [c' [post [-> Hlen]]]].
    now exists ((c, z) :: pre), c', post.
  - destruct H as [pre [z' [post [-> [Hn [Hn' [Hcal Hsplit]]]]]]].
    exists ((c, z) :: pre), z', post. unfold calibrated in *.
    assert (Hcap' : captures ((c, z) :: pre) = captures pre).
    { destruct c; try reflexivity. destruct r; try reflexivity. congruence. }
    rewrite Hcap'. repeat split; auto.
    destruct Hsplit as [pre' [c' [post' [-> Hlen]]]].
    now exists ((c, z) :: pre'), c', post'.
Qed.

(** The first read of TACCR0 in a round puts the reading of the rest of the
    trace, made with that capture in hand, in front of the whole. *)
Lemma cal_reading_first old z tr p :
  cal_reading Delta old [z] tr p ->
  cal_reading Delta old [] ((CLoad TACCR0, z) :: tr) p.
Proof.
  intros Hr.
  destruct p as [old'|old'|old' f|old'|cmp|k|]; cbn [cal_reading] in *;
    cbn [captures app];
    try solve [destruct Hr as [Hf Hno]; split; [exact Hf|];
               intros [E|Hin]; [discriminate|now apply Hno]].
  - destruct Hr as [Hcal [Hno [Hk Hsplit]]]. unfold calibrated in *.
    cbn [captures app] in *. repeat split; auto.
    + intros [E|Hin]; [discriminate|now apply Hno].
    + destruct Hsplit as [pre [c' [post [-> Hlen]]]].
      now exists ((CLoad TACCR0, z) :: pre), c', post.
  - destruct Hr as [pre [z' [post [-> [Hn [Hn' [Hcal Hsplit]]]]]]].
    exists ((CLoad TACCR0, z) :: pre), z', post. unfold calibrated in *.
    cbn [captures app] in *. repeat split; auto.
    + intros [E|Hin]; [discriminate|now apply Hn].
    + destruct Hsplit as [pre' [c' [post' [-> Hlen]]]].
      now exists ((CLoad TACCR0, z) :: pre'), c', post'.
Qed.

Lemma cal_read tr :
  forall p0 old caps p,
    mon next p0 tr = Some p ->
    ((p0 = CalWait old \/ p0 = CalAck old \/ (exists f, p0 = CalClear old f)
      \/ p0 = CalFirst old) /\ caps = [])
    \/ (exists c1, p0 = CalSecond (Int.to_uint16 (c1 - old)) /\ caps = [c1]) ->
    cal_reading Delta old caps tr p.
Proof.
  induction tr as [|ev tr IH]; intros p0 old caps p H Hstart.
  - cbn in H. injection H as <-.
    destruct Hstart as [[[-> | [-> | [[f ->] | ->]]] ->] | [c1 [-> ->]]]; cbn;
      (split; [constructor|now intros []]).
  - apply mon_cons in H. destruct H as [p1 [Hn Hm]]. destruct ev as [c z].
    destruct Hstart as [[[-> | [-> | [[f ->] | ->]]] ->] | [c1 [-> ->]]].
    + (* waiting *)
      assert (Hc : hw_call c = true /\ c <> CLoad TACCR0
                   /\ (p1 = CalWait old \/ p1 = CalAck old)).
      { destruct c; try destruct r;
          cbv beta iota delta [cal_next fst snd hw_call] in Hn; try discriminate;
          try solve [injection Hn as <-; repeat split; try discriminate; auto].
        destruct (Z.land Hw.CCIFG z =? 0); injection Hn as <-;
          repeat split; try discriminate; auto. }
      destruct Hc as [Hhw [Hne [-> | ->]]]; apply cal_reading_cons; auto;
        apply (IH _ old [] p Hm); left; split; auto.
    + (* the flag is read *)
      destruct c; try destruct r;
        cbv beta iota delta [cal_next fst snd hw_call] in Hn; try discriminate.
      injection Hn as <-. apply cal_reading_cons; auto; try discriminate.
      apply (IH _ old [] p Hm). left. split; eauto.
    + (* the flag is cleared *)
      destruct c; try destruct r;
        cbv beta iota delta [cal_next fst snd hw_call] in Hn; try discriminate.
      destruct (v =? Z.land f (Z.lnot Hw.CCIFG)); [|discriminate].
      injection Hn as <-. apply cal_reading_cons; auto; try discriminate.
      apply (IH _ old [] p Hm). left. split; auto.
    + (* the first capture of a round *)
      destruct c; try destruct r;
        cbv beta iota delta [cal_next fst snd hw_call] in Hn; try discriminate.
      injection Hn as <-. apply cal_reading_first.
      apply (IH _ old [z] p Hm). right. now exists z.
    + (* the second capture of a round *)
      destruct c; try destruct r;
        cbv beta iota delta [cal_next fst snd hw_call] in Hn; try discriminate.
      set (cmp := Int.to_uint16 (c1 - old)) in *.
      assert (Hd : forall l, differences old ([c1] ++ z :: l) = cmp :: differences z l)
        by reflexivity.
      destruct (Delta =? cmp) eqn:E; injection Hn as <-.
      * apply Z.eqb_eq in E. apply cal_ended in Hm.
        destruct p as [old'|old'|old' f|old'|cmp'|k|]; try contradiction;
          cbn [cal_reading].
        -- destruct Hm as [Hcap [Hno [-> Hle]]]. unfold calibrated.
           cbn [captures]. rewrite Hcap, Hd. cbn [differences]. repeat split.
           ++ exists []. split; [now rewrite E|constructor].
           ++ intros [Hin|Hin]; [discriminate|now apply Hno].
           ++ destruct tr; [cbn; lia|]. apply Hle. discriminate.
           ++ now exists [], z, tr.
        -- destruct Hm as [pre [z' [post [-> [Hcap [Hno [Hno' Hle]]]]]]].
           exists ((CLoad TACCR0, z) :: pre), z', post. unfold calibrated.
           cbn [captures]. rewrite Hcap, Hd. cbn [differences]. repeat split; auto.
           ++ intros [Hin|Hin]; [discriminate|now apply Hno].
           ++ exists []. split; [now rewrite E|constructor].
           ++ exists [], z, pre. split; [reflexivity|lia].
      * apply Z.eqb_neq in E.
        pose proof (IH _ z [] p Hm (or_introl (conj (or_introl eq_refl) eq_refl))) as Hr.
        assert (Hne : cmp <> Delta) by congruence.
        destruct p as [old'|old'|old' f|old'|cmp'|k|]; cbn [cal_reading] in *;
          unfold calibrated in *; cbn [captures]; cbn [app] in Hr;
          try solve [destruct Hr as [Hf Hno]; rewrite Hd; split; [now constructor|];
                     intros [Hin|Hin]; [discriminate|now apply Hno]].
        -- destruct Hr as [[ds [Hds Hall]] [Hno [Hk Hsplit]]]. unfold calibrated.
           rewrite Hd. repeat split; auto.
           ++ exists (cmp :: ds). cbn [app] in *. rewrite Hds.
              split; [reflexivity|now constructor].
           ++ intros [Hin|Hin]; [discriminate|now apply Hno].
           ++ destruct Hsplit as [pre [c' [post [-> Hlen]]]].
              now exists ((CLoad TACCR0, z) :: pre), c', post.
        -- destruct Hr as [pre [z' [post [-> [Hn [Hn' [[ds [Hds Hall]] Hsplit]]]]]]].
           exists ((CLoad TACCR0, z) :: pre), z', post. unfold calibrated.
           cbn [captures]. rewrite Hd. repeat split; auto.
           ++ intros [Hin|Hin]; [discriminate|now apply Hn].
           ++ exists (cmp :: ds). cbn [app] in *. rewrite Hds.
              split; [reflexivity|now constructor].
           ++ destruct Hsplit as [pre' [c' [post' [-> Hlen]]]].
              now exists ((CLoad TACCR0, z) :: pre'), c', post'.
Qed.

End CalFacts.



(** ** Pace of the start-up *)

Lemma wait_capture_paced : paced (fun _ => 1%nat) wait_capture.
Proof.
  unfold wait_capture. apply paced_iter. intros [].
  apply paced_bind with (a := fun _ => 1%nat); [apply paced_call|].
  intros f. destruct (Z.land Hw.CCIFG f =? 0); now apply paced_ret_at.
Qed.

(** One step of a proof of pace for straight-line code. *)
Ltac paced_step :=
  lazymatch goal with
  | |- paced _ (ITree.bind _ _) =>
      apply paced_bind with (a := fun _ => 1%nat);
      [try solve [apply paced_call | apply print_paced | apply print_hexb_paced]
      |intros ?]
  | |- paced _ (Ret _) => now apply paced_ret_at
  | |- paced _ (if ?b then _ else _) => destruct b
  | |- paced _ (print _) =>
      apply paced_weaken with (a := fun _ => 1%nat); [intros; lia|apply print_paced]
  | |- paced _ (print_hexb _) =>
      apply paced_weaken with (a := fun _ => 1%nat); [intros; lia|apply print_hexb_paced]
  | |- paced _ _ =>
      apply paced_weaken with (a := fun _ => 1%nat); [intros; lia|apply paced_call]
  end.

Lemma DCO_slower_paced : paced (fun _ => 1%nat) DCO_slower.
Proof. unfold DCO_slower. repeat paced_step. Qed.

Lemma DCO_faster_paced : paced (fun _ => 1%nat) DCO_faster.
Proof. unfold DCO_faster. repeat paced_step. Qed.

Lemma Set_DCO_paced Delta : paced (fun _ => 1%nat) (Set_DCO Delta).
Proof.
  unfold Set_DCO. do 4 paced_step.
  apply paced_bind with (a := fun _ => 1%nat).
  - apply paced_iter. intros old. unfold Set_DCO_body.
    apply paced_bind with (a := fun _ => 1%nat); [apply wait_capture_paced|intros ?].
    do 4 paced_step. cbv zeta.
    destruct (Delta =? _); [now apply paced_ret_at|].
    destruct (Delta <? _).
    + apply paced_bind with (a := fun _ => 1%nat); [apply DCO_slower_paced|intros ?].
      now apply paced_ret_at.
    + apply paced_bind with (a := fun _ => 1%nat); [apply DCO_faster_paced|intros ?].
      now apply paced_ret_at.
  - intros ?. repeat paced_step.
Qed.

Lemma setup_paced cfg : paced (fun _ => 1%nat) (setup cfg).
Proof.
  unfold setup. do 12 paced_step.
  apply paced_bind with (a := fun _ => 1%nat).
  - destruct (CALIBRATE_DCO cfg); [apply Set_DCO_paced|repeat paced_step].
  - intros ?. repeat paced_step.
Qed.


(** ** The time the calibration takes *)

Lemma polls_app tr1 tr2 : polls (tr1 ++ tr2) = (polls tr1 + polls tr2)%nat.
Proof. unfold polls. now rewrite filter_app, length_app. Qed.

Lemma spends_weaken R (t : prog R) a a' (b b' : R -> nat) :
  spends a t b -> (a <= a')%nat -> (forall r, (b' r <= b r)%nat) -> spends a' t b'.
Proof.
  intros H Ha Hb Env respond fuel m o Hno. specialize (H Env respond fuel m Hno).
  fold o in H. destruct (out_status o) as [r n|c|]; [specialize (Hb r)| |]; lia.
Qed.

Lemma spends_ret R (r : R) a (b : R -> nat) : (b r <= a)%nat -> spends a (Ret r) b.
Proof. intros H Env respond [|n] m o _; cbn; lia. Qed.

(** A call costs one; a read of TACCTL0 earns six. *)
Lemma spends_call (c : call) a :
  is_poll c = false -> spends (S a) (do_call c) (fun _ => a).
Proof.
  intros Hc Env respond [|n] m o _; [cbn; lia|]. subst o. rewrite run_do_call.
  destruct (perform respond m c) as [[z m']|]; [|cbn; lia].
  unfold polls. destruct n; cbn; rewrite Hc; cbn; lia.
Qed.

Lemma spends_poll a : spends a (load TACCTL0) (fun _ => (a + 5)%nat).
Proof.
  intros Env respond [|n] m o _; [cbn; lia|]. subst o. unfold load.
  rewrite run_do_call.
  destruct (perform respond m (CLoad TACCTL0)) as [[z m']|]; [|cbn; lia].
  unfold polls. destruct n; cbn; lia.
Qed.

Lemma spends_bind R T (t : prog R) (k : R -> prog T) a (b : R -> nat) (c : T -> nat) :
  spends a t b -> (forall r, spends (b r) (k r) c) -> spends a (ITree.bind t k) c.
Proof.
  intros Ht Hk Env respond fuel m o Hno. subst o. revert Hno.
  rewrite run_bind. unfold then_run.
  specialize (Ht Env respond fuel m). cbn zeta in Ht.
  destruct (out_status (run respond fuel t m)) as [r n|c0|] eqn:Hst;
    cbn [out_trace out_status]; intros Hno.
  - unfold calls in Hno. rewrite map_app, in_app_iff in Hno.
    specialize (Ht ltac:(tauto)).
    specialize (Hk r Env respond n (out_machine (run respond fuel t m))
                  ltac:(unfold calls; tauto)).
    cbn zeta in Hk. rewrite length_app, polls_app. lia.
  - specialize (Ht Hno). lia.
  - specialize (Ht Hno). lia.
Qed.

Lemma spends_iter A R (body : A -> prog (A + R)) (J : A -> nat) (b : R -> nat) :
  (forall i, spends (J i) (body i)
               (fun lr => match lr with inl i' => J i' | inr r => b r end)) ->
  forall i, spends (J i) (ITree.iter body i) b.
Proof.
  intros Hb i Env respond fuel. revert i.
  induction fuel as [fuel IH] using lt_wf_ind. intros i m o Hno. subst o. revert Hno.
  rewrite run_iter. unfold then_run.
  specialize (Hb i Env respond fuel m). cbn zeta in Hb.
  destruct (out_status (run respond fuel (body i) m)) as [[i'|r] n|c0|] eqn:Hst;
    cbn [out_trace out_status]; intros Hno.
  - unfold calls in Hno. rewrite map_app, in_app_iff in Hno.
    specialize (Hb ltac:(tauto)). apply run_spare in Hst.
    specialize (IH (pred n) ltac:(lia) i' (out_machine (run respond fuel (body i) m))
                  ltac:(unfold calls; tauto)).
    cbn zeta in IH. rewrite length_app, polls_app. lia.
  - unfold calls in Hno. rewrite map_app, in_app_iff in Hno.
    specialize (Hb ltac:(tauto)). apply run_spare in Hst.
    destruct n as [|n]; [lia|]. cbn [run out_trace out_status] in *.
    rewrite length_app, polls_app. cbn. lia.
  - specialize (Hb Hno). lia.
  - specialize (Hb Hno). lia.
Qed.

(** What comes once [SoftSerial_init] is called is not counted. *)
Lemma spends_started R (k : Z -> prog R) a (b : R -> nat) :
  spends a (ITree.bind SoftSerial_init k) b.
Proof.
  intros Env respond [|n] m o Hno; [cbn; lia|]. subst o. revert Hno.
  unfold SoftSerial_init. rewrite run_call.
  destruct (perform respond m CInit) as [[z m']|]; [|cbn; lia].
  intros Hno. exfalso. apply Hno. now left.
Qed.


(** One step of a proof of [spends] for straight-line code. *)
Ltac spends_step :=
  lazymatch goal with
  | |- spends _ (ITree.bind _ _) _ =>
      eapply spends_bind; [first [apply spends_poll|now apply spends_call]|intros ?]
  | |- spends _ (Ret _) _ => apply spends_ret; cbn; lia
  | |- spends _ (if ?b then _ else _) _ => destruct b
  end.

Lemma wait_capture_spends a : spends a wait_capture (fun _ => (a + 5)%nat).
Proof.
  unfold wait_capture.
  apply (@spends_iter unit unit _ (fun _ => a) (fun _ => (a + 5)%nat)).
  intros []. eapply spends_bind; [apply spends_poll|intros f].
  destruct (Z.land Hw.CCIFG f =? 0); apply spends_ret; lia.
Qed.

Lemma DCO_slower_spends a : spends (6 + a) DCO_slower (fun _ => a).
Proof. unfold DCO_slower. cbn [Nat.add]. repeat spends_step. Qed.

Lemma DCO_faster_spends a : spends (6 + a) DCO_faster (fun _ => a).
Proof. unfold DCO_faster. cbn [Nat.add]. repeat spends_step. Qed.

Lemma Set_DCO_body_spends Delta old :
  spends 0 (Set_DCO_body Delta old)
    (fun lr => match lr with inl _ => 0 | inr _ => 4 end)%nat.
Proof.
  unfold Set_DCO_body.
  eapply spends_bind; [apply (wait_capture_spends 0)|intros ?].
  cbn [Nat.add]. do 4 spends_step. cbv zeta.
  destruct (Delta =? _); [apply spends_ret; lia|].
  destruct (Delta <? _).
  - eapply spends_bind; [apply (DCO_slower_spends 1)|intros ?]. apply spends_ret; lia.
  - eapply spends_bind; [apply (DCO_faster_spends 1)|intros ?]. apply spends_ret; lia.
Qed.

Lemma Set_DCO_spends Delta : spends 4 (Set_DCO Delta) (fun _ => 0%nat).
Proof.
  unfold Set_DCO. do 4 spends_step.
  eapply spends_bind.
  - apply (@spends_iter Z unit _ (fun _ => 0%nat) (fun _ => 4%nat)).
    intros old. apply Set_DCO_body_spends.
  - intros ?. repeat spends_step.
Qed.

Lemma setup_spends cfg :
  CALIBRATE_DCO cfg = true -> spends 16 (setup cfg) (fun _ => 0%nat).
Proof.
  intros Hcfg. unfold setup. rewrite Hcfg. do 12 spends_step.
  eapply spends_bind; [apply Set_DCO_spends|intros ?]. apply spends_started.
Qed.


(** ** The answer to a capture *)








(** An environment that answers is never the reason a run stops. *)
Lemma answers_not_stuck Env (respond : Env -> call -> option (Z * Env)) R
      (t : prog R) fuel m c :
  answers respond -> out_status (run respond fuel t m) = Stuck c -> c = CFault.
Proof.
  intros Hans Hst. apply run_stuck in Hst.
  destruct (call_eq_dec c CFault) as [E|E]; [exact E|].
  exfalso. revert Hst. now apply perform_answers.
Qed.

(** In the echo loop every call determines, with the word it returned, the
    call that comes next. *)
Lemma echo_successor tr p0 p pre ev ev' post :
  mon echo_next p0 tr = Some p -> tr = pre ++ ev :: ev' :: post ->
  fst ev' = match fst ev with
            | CEmpty => if snd ev =? 0 then CRead else CEmpty
            | CRead => if snd ev =? -1 then CEmpty else CXmit (Int.to_uint8 (snd ev))
            | _ => CRead
            end.
Proof.
  intros Hm ->. apply mon_at in Hm. destruct Hm as [p1 [p2 [_ [H2 H3]]]].
  apply mon_cons in H3. destruct H3 as [p3 [H3 _]].
  apply echo_next_inv in H2, H3.
  destruct H2 as [[e [-> [-> ->]]] | [[c [-> [-> ->]]] | [c [z [-> [-> ->]]]]]];
    cbn [fst snd].
  - destruct (e =? 0);
      destruct H3 as [[e' [E [-> _]]] | [[c' [E [-> _]]] | [c' [z' [E _]]]]];
      try discriminate; reflexivity.
  - destruct (c =? -1);
      destruct H3 as [[e' [E [-> _]]] | [[c' [E [-> _]]] | [c' [z' [E [-> _]]]]]];
      try discriminate; try reflexivity.
    now injection E as <-.
  - destruct H3 as [[e' [E [-> _]]] | [[c' [E [-> _]]] | [c' [z' [E _]]]]];
      try discriminate; reflexivity.
Qed.

(** C1: the echo loop passes to [SoftSerial_xmit] exactly the bytes
    [SoftSerial_read] delivered, in the same order, each converted to
    [uint8_t]; none is skipped, repeated or reordered.  In every prefix of
    every execution:
    - the two sequences are equal, unless the prefix stops right after a read
      that delivered a byte [c]: then [c] alone is still to come, and the
      loop stands at the call [SoftSerial_xmit(c)];
    - the first call is a poll of [SoftSerial_empty]; after a poll that
      answers 0 the next call is [SoftSerial_read], after any other poll it
      is the next poll; the call that follows a read of a byte [c] is
      [SoftSerial_xmit(c)], a read of -1 is followed by a poll, and a
      transmit by the next read;
    - the loop has not returned, it is held up only in a call the
      environment does not answer, and it has made a call at least every
      second step: a byte that was read is not left waiting.
    Against an environment that answers every call the loop is only ever
    cut short by the step budget. *)
Theorem loop_echoes_received_bytes :
  forall (Env : Type) (respond : Env -> call -> option (Z * Env))
         (fuel : nat) (m : machine Env),
    let o := run respond fuel loop m in
    (List.map Int.to_uint8 (delivered (out_trace o)) = xmitted (out_trace o)
     \/ exists tr' c,
         out_trace o = tr' ++ [(CRead, c)] /\ c <> -1 /\
         List.map Int.to_uint8 (delivered (out_trace o)) =
           xmitted (out_trace o) ++ [Int.to_uint8 c] /\
         (out_status o = Stuck (CXmit (Int.to_uint8 c)) \/ out_status o = OutOfFuel))
    /\ ((forall ev post, out_trace o = ev :: post -> fst ev = CEmpty)
        /\ forall pre ev ev' post,
            out_trace o = pre ++ ev :: ev' :: post ->
            fst ev' = match fst ev with
                      | CEmpty => if snd ev =? 0 then CRead else CEmpty
                      | CRead => if snd ev =? -1 then CEmpty
                                 else CXmit (Int.to_uint8 (snd ev))
                      | _ => CRead
                      end)
    /\ (forall r n, out_status o <> Done r n)
    /\ (forall c, out_status o = Stuck c ->
          echo_call c /\ perform respond (out_machine o) c = None)
    /\ (out_status o = OutOfFuel -> (fuel <= 2 * List.length (out_trace o))%nat)
    /\ (answers respond -> out_status o = OutOfFuel).
Proof.
  intros Env respond fuel m o.
  destruct (loop_follows (fun _ => AtPoll) respond fuel m) as [p [Hm Hs]].
  fold o in Hm, Hs.
  assert (Hnever : forall r n, out_status o <> Done r n)
    by (intros r n; apply forever_never_returns).
  assert (Hstuck : forall c, out_status o = Stuck c ->
            echo_call c /\ perform respond (out_machine o) c = None).
  { intros c E. split; [|now apply run_stuck].
    rewrite E in Hs. now destruct p; cbn in Hs; subst c. }
  split; [|split; [|split; [exact Hnever|split; [exact Hstuck|split]]]].
  - pose proof (echo_balance _ _ Hm) as Hb. cbn in Hb.
    destruct p as [| |c]; cbn in Hb.
    + left. now rewrite app_nil_r in Hb.
    + left. now rewrite app_nil_r in Hb.
    + right. destruct (echo_at_xmit _ _ Hm) as [[_ [=]] | [tr' [Htr Hc]]].
      exists tr', c. repeat split; try assumption.
      destruct (out_status o) as [r n|c'|]; [discriminate| |now right].
      cbn in Hs. subst c'. now left.
  - split.
    + intros ev post E. rewrite E in Hm. apply mon_cons in Hm.
      destruct Hm as [p1 [Hn _]]. apply echo_next_inv in Hn.
      now destruct Hn as [[e [_ [-> _]]] | [[c [[=] _]] | [c [z [[=] _]]]]].
    + intros pre ev ev' post E. eapply echo_successor; eassumption.
  - intros E. pose proof (loop_paced (fun _ => 0%nat) respond fuel m) as Hp.
    fold o in Hp. cbn in Hp. now rewrite E in Hp.
  - intros Hans. destruct (out_status o) as [r n|c|] eqn:E; [|exfalso|reflexivity].
    + now contradiction (Hnever r n).
    + destruct (Hstuck c eq_refl) as [Hc _].
      apply answers_not_stuck in E; [|exact Hans]. subst c. exact Hc.
Qed.

(** C6: every byte-output path hands its bytes to [SoftSerial_xmit] and to
    nothing else, one call per byte, and never looks at what the call
    returned.
    - No result is inspected: for [putchar], [print_hexb], [print] and both
      variants of the echo loop, whatever word [SoftSerial_xmit] hands back
      the run makes the same calls with the same arguments and ends the same
      way ([blind_to]).
    - [putchar(c)] makes the single call [SoftSerial_xmit(c)] and returns 0;
      [print_hexb(c)] makes its two transmit calls; [print(s)] makes one
      transmit call per character.  Each returns, all its calls made, as soon
      as the environment has answered them.
    - The echo loop makes no other calls than polls, reads and transmits;
      the call after a transmit is the next read; it never returns and makes
      a call at least every second step. *)
Theorem output_paths_transmit_unconditionally :
  ((forall c, blind_to is_xmit (putchar c))
   /\ (forall c, blind_to is_xmit (print_hexb c))
   /\ (forall s, blind_to is_xmit (print s))
   /\ blind_to is_xmit loop
   /\ blind_to is_xmit loop_nc)
  /\ forall (Env : Type) (respond : Env -> call -> option (Z * Env))
            (fuel : nat) (m : machine Env),
      (forall c,
         let o := run respond fuel (putchar c) m in
         (exists rest, [CXmit (Int.to_uint8 c)] = calls (out_trace o) ++ rest)
         /\ (forall r n, out_status o = Done r n ->
               r = 0 /\ calls (out_trace o) = [CXmit (Int.to_uint8 c)])
         /\ ((forall e b, respond e (CXmit b) <> None) -> (2 < fuel)%nat ->
             exists n, out_status o = Done 0 n))
      /\ (forall c,
            let o := run respond fuel (print_hexb c) m in
            let hi := nth (Z.to_nat (Z.shiftr (Int.to_uint8 c) 4)) hextbl 0 in
            let lo := nth (Z.to_nat (Z.land (Int.to_uint8 c) 0x0F)) hextbl 0 in
            (exists rest, [CXmit hi; CXmit lo] = calls (out_trace o) ++ rest)
            /\ (forall r n, out_status o = Done r n ->
                  calls (out_trace o) = [CXmit hi; CXmit lo])
            /\ ((forall e b, respond e (CXmit b) <> None) -> (4 < fuel)%nat ->
                exists n, out_status o = Done tt n))
      /\ (forall c chars after,
            Forall (fun x => x <> 0) chars ->
            let o := run respond fuel (print (c :: chars ++ 0 :: after)) m in
            let l := List.map CXmit (List.map Int.to_uint8 (c :: chars)) in
            (exists rest, l = calls (out_trace o) ++ rest)
            /\ (forall r n, out_status o = Done r n -> calls (out_trace o) = l)
            /\ ((forall e b, respond e (CXmit b) <> None) ->
                (2 * List.length l < fuel)%nat ->
                exists n, out_status o = Done tt n))
      /\ (let o := run respond fuel loop m in
          Forall (fun ev => fst ev = CEmpty \/ fst ev = CRead
                            \/ exists b, fst ev = CXmit b) (out_trace o)
          /\ (forall pre b z ev post,
                out_trace o = pre ++ (CXmit b, z) :: ev :: post -> fst ev = CRead)
          /\ (forall r n, out_status o <> Done r n)
          /\ (out_status o = OutOfFuel ->
              (fuel <= 2 * List.length (out_trace o))%nat)).
Proof.
  split.
  { split; [|split; [|split; [|split]]].
    - apply putchar_blind.
    - intros c. apply print_hexb_blind.
    - intros s. apply print_blind.
    - apply loop_blind.
    - apply loop_nc_blind. }
  intros Env respond fuel m. repeat apply conj.
  - intros c o.
    destruct (putchar_follows c [] respond fuel m) as [l' [Hm Hs]].
    fold o in Hm, Hs. apply expect_calls in Hm. split; [now exists l'|]. split.
    + intros r n E. split; [now apply putchar_returns_0 in E|].
      rewrite E in Hs. subst l'. now rewrite app_nil_r in Hm.
    + intros Hans Hfuel.
      destruct (@expect_completes _ (putchar c) [CXmit (Int.to_uint8 c)] _
                  (putchar_follows c []) (putchar_paced c)
                  ltac:(repeat constructor; eauto) Env respond fuel m Hans Hfuel)
        as [r [n E]].
      fold o in E. exists n. now rewrite (putchar_returns_0 _ _ _ _ E) in E.
  - intros c o hi lo.
    destruct (print_hexb_follows c [] respond fuel m) as [l' [Hm Hs]].
    fold o hi lo in Hm, Hs. apply expect_calls in Hm. split; [now exists l'|]. split.
    + intros r n E. rewrite E in Hs. subst l'. now rewrite app_nil_r in Hm.
    + intros Hans Hfuel.
      destruct (@expect_completes _ (print_hexb c) [CXmit hi; CXmit lo] _
                  (print_hexb_follows c []) (print_hexb_paced c)
                  ltac:(repeat constructor; eauto) Env respond fuel m Hans Hfuel)
        as [[] [n E]].
      now exists n.
  - intros c chars after Hnz o l.
    pose proof (print_follows c after [] Hnz) as F. rewrite app_nil_r in F.
    destruct (F Env respond fuel m) as [l' [Hm Hs]].
    fold o l in Hm, Hs. apply expect_calls in Hm. split; [now exists l'|]. split.
    + intros r n E. rewrite E in Hs. subst l'. now rewrite app_nil_r in Hm.
    + intros Hans Hfuel.
      destruct (@expect_completes _ _ l _ F (print_paced _) (all_xmit _)
                  Env respond fuel m Hans Hfuel) as [[] [n E]].
      now exists n.
  - destruct (loop_follows (fun _ => AtPoll) respond fuel m) as [p [Hm _]].
    apply echo_alphabet in Hm. revert Hm. apply Forall_impl.
    intros [[] z]; cbn; intros H; try contradiction; eauto.
  - intros pre b z ev post E.
    destruct (loop_follows (fun _ => AtPoll) respond fuel m) as [p [Hm _]].
    eapply echo_after_xmit; eassumption.
  - intros r n. apply forever_never_returns.
  - intros E. pose proof (loop_paced (fun _ => 0%nat) respond fuel m) as Hp.
    cbn in Hp. now rewrite E in Hp.
Qed.

Lemma hw_calls_silent tr :
  Forall (fun ev => hw_call (fst ev) = true) tr -> xmitted tr = [].
Proof.
  induction 1 as [|[c z] tr Hc _ IH]; [reflexivity|].
  cbn in Hc. now destruct c.
Qed.

Lemma setup_within_constants cfg : CALIBRATE_DCO cfg = false -> within 81 (setup cfg).
Proof. destruct cfg as [b f]. cbn. intros ->. apply setup_within. Qed.

(** C5 (amended): [setup()] calls [SoftSerial_init()] before the first
    transmit and does not observe any result of it.
    - Whatever word the call hands back, [setup] makes the same calls with
      the same arguments, reaches the same state and ends the same way
      ([blind_to]): no failure of the configuration is reported to [setup]
      or checked by it.
    - Before the call [setup] has only accessed registers and waited, and
      has transmitted nothing; after it come the global interrupt enable and
      the banner, character by character.
    - When [setup] returns it has made the call and has transmitted the
      start-up report and nothing else.
    - [setup] is held up only in a call the environment does not answer and
      makes a call at least every second step.
    - With [CALIBRATE_DCO] undefined the call is among the first sixteen, and
      [setup] returns within 81 steps when the environment answers.  With
      [CALIBRATE_DCO] defined, until the call is made [setup] has made at
      most sixteen calls beyond six for every read of TACCTL0, and either no
      capture difference it has measured equals [Delta], or the last one
      does and at most four calls have followed that capture. *)
Theorem setup_discards_init_result :
  forall (cfg : config),
    blind_to is_init (setup cfg)
    /\ forall (Env : Type) (respond : Env -> call -> option (Z * Env))
              (fuel : nat) (m : machine Env),
        let o := run respond fuel (setup cfg) m in
        (forall pre r post,
           out_trace o = pre ++ (CInit, r) :: post ->
           ~ In CInit (calls pre)
           /\ Forall (fun ev => hw_call (fst ev) = true) pre
           /\ xmitted pre = []
           /\ ((exists rest, after_init = calls post ++ rest)
               \/ (exists more, calls post = after_init ++ more)))
        /\ (forall r n, out_status o = Done r n ->
              In CInit (calls (out_trace o))
              /\ xmitted (out_trace o)
                 = dco_report (reg_get (out_machine o) BCSCTL1)
                              (reg_get (out_machine o) DCOCTL))
        /\ (forall c, out_status o = Stuck c ->
              perform respond (out_machine o) c = None)
        /\ (out_status o = OutOfFuel -> (fuel <= 2 * List.length (out_trace o))%nat)
        /\ (CALIBRATE_DCO cfg = false ->
            (~ In CInit (calls (out_trace o)) ->
             (List.length (out_trace o) <= 15)%nat)
            /\ (answers respond -> (81 < fuel)%nat ->
                exists n, out_status o = Done tt n))
        /\ (CALIBRATE_DCO cfg = true ->
            ~ In CInit (calls (out_trace o)) ->
            let Delta := Int.to_uint16 (Z.quot (F_CPU cfg) 4096) in
            (List.length (out_trace o) <= 16 + 6 * polls (out_trace o))%nat
            /\ (Forall (fun d => d <> Delta) (differences 0 (captures (out_trace o)))
                \/ (calibrated Delta 0 [] (out_trace o)
                    /\ exists pre c post,
                        out_trace o = pre ++ (CLoad TACCR0, c) :: post
                        /\ (List.length post <= 4)%nat))).
Proof.
  intros cfg. split; [apply setup_blind|]. intros Env respond fuel m o.
  destruct (@setup_boots cfg Env respond fuel m) as [p [Hm Hs]]. fold o in Hm, Hs.
  split; [|split; [|split; [|split; [|split]]]].
  - intros pre r post E.
    rewrite E in Hm. apply mon_at in Hm. destruct Hm as [p1 [p2 [H1 [H2 H3]]]].
    destruct p1 as [k|l].
    + destruct (@booting_only_hw _ _ _ _ H1) as [Hall _].
      destruct (@boot_next_booting _ _ _ _ H2) as [[_ ->] | [Hhw _]]; [|discriminate].
      repeat split.
      * intros Hin. apply in_map_iff in Hin. destruct Hin as [ev [Eev Hin]].
        rewrite Forall_forall in Hall. specialize (Hall ev Hin). now rewrite Eev in Hall.
      * exact Hall.
      * now apply hw_calls_silent.
      * now apply started_calls in H3.
    + exfalso. apply boot_reach in H1.
      now destruct (@boot_next_started _ _ _ _ H2 H1) as [Hne _].
  - intros r n E. rewrite E in Hs. subst p. split.
    + now apply started_has_init in Hm.
    + exact (proj1 (@setup_ensures cfg Env respond fuel m r n E)).
  - intros c E. now apply run_stuck.
  - intros E. pose proof (@setup_paced cfg Env respond fuel m) as Hp.
    fold o in Hp. cbn in Hp. now rewrite E in Hp.
  - intros Hcfg. split.
    + intros Hno.
      destruct (@setup_boots_constants cfg Hcfg Env respond fuel m) as [q [Hq _]].
      fold o in Hq. destruct q as [k|l].
      * destruct (@booting_only_hw _ _ _ _ Hq) as [_ [-> Hle]].
        destruct (out_trace o); [cbn; lia|].
        specialize (Hle ltac:(discriminate)). cbn in *. lia.
      * now apply started_has_init in Hq.
    + intros Hans Hfuel.
      destruct (@setup_within_constants cfg Hcfg Env respond fuel m Hans Hfuel)
        as [[] [n [E _]]].
      now exists n.
  - intros Hcfg Hno Delta. split.
    + pose proof (@setup_spends cfg Hcfg Env respond fuel m Hno) as Hsp.
      cbv zeta in Hsp. fold o in Hsp. destruct (out_status o); lia.
    + destruct (@setup_cals cfg Hcfg Env respond fuel m) as [q [Hq _]].
      fold o in Hq. fold Delta in Hq.
      pose proof (@cal_read Delta _ (CalWait 0) 0 [] q Hq
                    (or_introl (conj (or_introl eq_refl) eq_refl))) as Hr.
      destruct q as [old|old|old f|old|cmp|k|]; cbn [cal_reading app] in Hr;
        try solve [left; apply Hr].
      * right. destruct Hr as [Hcal [_ [Hk [pre [c [post [E Hlen]]]]]]].
        split; [exact Hcal|]. exists pre, c, post. split; [exact E|lia].
      * exfalso. destruct Hr as [pre [z [post [E _]]]]. apply Hno. rewrite E.
        unfold calls. rewrite map_app. apply in_or_app. right. now left.
Qed.

(** With [SoftSerial_init] made to return -1, [setup] runs as it does when
    the call returns 0. *)
Lemma setup_discards_init_result_witness :
  let o := run (always 0) 100 (setup constants_build) (Machine regs0 tt) in
  let o' := run (returning is_init (-1) (always 0)) 100 (setup constants_build)
              (Machine regs0 tt) in
  In (CInit, -1) (out_trace o')
  /\ out_trace o' = answered is_init (-1) (out_trace o)
  /\ out_status o' = out_status o.
Proof.
  intros o o'. split; [vm_compute; do 15 right; now left|].
  destruct (proj1 (setup_discards_init_result constants_build)
              unit (always 0) (-1) 100%nat (Machine regs0 tt)) as [Ht [_ Hs]].
  now split.
Defined.




(** ** More on the start-up report *)

(** X2: when [setup] returns, the bytes it has transmitted are the three
    lines of the start-up report, and the two hexadecimal numbers in it are
    the values BCSCTL1 and DCOCTL hold at that moment, in either build.  In
    the build with constants these are 8F and 7E, and [setup] does return,
    within 81 steps, when the environment answers. *)
Theorem setup_reports_clock_registers :
  forall (cfg : config) (Env : Type) (respond : Env -> call -> option (Z * Env))
         (fuel : nat) (m : machine Env),
    let o := run respond fuel (setup cfg) m in
    (forall r n, out_status o = Done r n ->
       xmitted (out_trace o)
       = dco_report (reg_get (out_machine o) BCSCTL1) (reg_get (out_machine o) DCOCTL)
       /\ (CALIBRATE_DCO cfg = false ->
           xmitted (out_trace o)
           = text (CRLF ++ ">>Calibrated DCO values are:" ++ CRLF
                   ++ "BCSCTL1= 0x8F" ++ CRLF ++ "DCOCTL = 0x7E" ++ CRLF)%string))
    /\ (CALIBRATE_DCO cfg = false -> answers respond -> (81 < fuel)%nat ->
        exists n, out_status o = Done tt n).
Proof.
  intros cfg Env respond fuel m o. split.
  - intros r n Hst.
    destruct (@setup_ensures cfg Env respond fuel m r n Hst) as [Hx Hregs].
    fold o in Hx, Hregs. split; [exact Hx|].
    intros Hcfg. destruct (Hregs Hcfg) as [_ [_ [_ [_ [H1 [Hdco _]]]]]].
    rewrite Hx, H1, Hdco. reflexivity.
  - intros Hcfg Hans Hfuel.
    destruct (@setup_within_constants cfg Hcfg Env respond fuel m Hans Hfuel)
      as [[] [n [E _]]].
    now exists n.
Qed.

(** [setup] against an environment that answers 0 to every call. *)
Lemma setup_reports_clock_registers_witness :
  let o := run (always 0) 100 (setup constants_build) (Machine regs0 tt) in
  xmitted (out_trace o)
  = dco_report (reg_get (out_machine o) BCSCTL1) (reg_get (out_machine o) DCOCTL)
  /\ List.length (xmitted (out_trace o)) = 62%nat.
Proof.
  intros o. split; [|vm_compute; reflexivity].
  assert (Hst : out_status o = Done tt 19) by (vm_compute; reflexivity).
  exact (proj1 (proj1 (@setup_reports_clock_registers constants_build unit (always 0)
                         100%nat (Machine regs0 tt)) tt 19%nat Hst)).
Defined.

(** ** The unchecked-read loop as an echo *)

(** X4: the [#else] variant of [loop] is an echo as well.  In every prefix
    of every execution the bytes passed to [SoftSerial_xmit] are the values
    [SoftSerial_read_nc] returned, each converted to [uint8_t], in the same
    order; only the byte of a read the prefix ends on can still be missing,
    and the loop then stands at the call that transmits it.  The loop never
    returns and makes a call at least every second step; against an
    environment that answers it is only ever cut short by the step budget. *)
Theorem loop_nc_echoes_received_bytes :
  forall (Env : Type) (respond : Env -> call -> option (Z * Env))
         (fuel : nat) (m : machine Env),
    let o := run respond fuel loop_nc m in
    (List.map Int.to_uint8 (delivered_nc (out_trace o)) = xmitted (out_trace o)
     \/ exists tr' c,
         out_trace o = tr' ++ [(CReadNc, c)] /\
         List.map Int.to_uint8 (delivered_nc (out_trace o))
         = xmitted (out_trace o) ++ [Int.to_uint8 c] /\
         (out_status o = Stuck (CXmit (Int.to_uint8 c)) \/ out_status o = OutOfFuel))
    /\ (forall r n, out_status o <> Done r n)
    /\ (out_status o = OutOfFuel -> (fuel <= 2 * List.length (out_trace o))%nat)
    /\ (answers respond -> out_status o = OutOfFuel).
Proof.
  intros Env respond fuel m o.
  destruct (loop_nc_follows (fun _ => NcPoll) respond fuel m) as [p [Hm Hs]].
  fold o in Hm, Hs.
  assert (Hnever : forall r n, out_status o <> Done r n)
    by (intros r n; apply forever_never_returns).
  split; [|split; [exact Hnever|split]].
  - pose proof (nc_balance _ _ Hm) as Hb. cbn [nc_pending app] in Hb.
    destruct p as [|cnt|b cnt]; cbn [nc_pending] in Hb.
    + left. now rewrite app_nil_r in Hb.
    + left. now rewrite app_nil_r in Hb.
    + right. destruct (nc_at_xmit _ _ Hm) as [[_ [=]] | [tr' [c [Htr ->]]]].
      exists tr', c. repeat split; try assumption.
      destruct (out_status o) as [r n|c'|]; [discriminate| |now right].
      cbn in Hs. subst c'. now left.
  - intros E. pose proof (loop_nc_paced (fun _ => 0%nat) respond fuel m) as Hp.
    fold o in Hp. cbn in Hp. now rewrite E in Hp.
  - intros Hans. destruct (out_status o) as [r n|c|] eqn:E; [|exfalso|reflexivity].
    + now contradiction (Hnever r n).
    + pose proof E as E'. apply answers_not_stuck in E'; [|exact Hans]. subst c.
      now destruct p; cbn in Hs.
Qed.

(** ** When [Set_DCO] returns *)







(** ** Runs on concrete inputs *)

(** The echo loop against a script: the queue is polled (0: not empty),
    'A' and 'B' are read and sent, the sentinel ends the drain, a poll finds
    the queue empty (1), the next one does not, and 300 is sent as 44. *)
Example loop_run :
  let o := run scripted 40 loop (Machine regs0 [0; 65; 7; 66; 8; -1; 1; 0; 300; 9]) in
  out_trace o
  = [(CEmpty, 0); (CRead, 65); (CXmit 65, 7); (CRead, 66); (CXmit 66, 8);
     (CRead, -1); (CEmpty, 1); (CEmpty, 0); (CRead, 300); (CXmit 44, 9)]
  /\ delivered (out_trace o) = [65; 66; 300]
  /\ xmitted (out_trace o) = [65; 66; 44]
  /\ out_status o = Stuck CRead.
Proof. repeat split; vm_compute; reflexivity. Qed.

(** The unchecked-read loop against a queue of capacity 4: two bytes arrive
    before the first poll, more during the burst; the six bytes that arrive
    last find room for one. *)
Example loop_nc_run :
  let s := RxState [] [[1; 2]; []; [3]; []; []; [4; 5; 6; 7; 8; 9]] in
  let o := run (rx_driver 4) 22 loop_nc (Machine regs0 s) in
  calls (out_trace o)
  = [CAvailable; CReadNc; CXmit 1; CReadNc; CXmit 2;
     CAvailable; CReadNc; CXmit 3; CReadNc; CXmit 4; CReadNc; CXmit 5;
     CReadNc; CXmit 6; CAvailable]
  /\ out_status o = OutOfFuel.
Proof. repeat split; vm_compute; reflexivity. Qed.

(** [setup] in the build with constants: the whole output. *)
Example setup_run :
  let o := run (always 0) 200 (setup constants_build) (Machine regs0 tt) in
  xmitted (out_trace o)
  = removelast (cstring (CRLF ++ ">>Calibrated DCO values are:" ++ CRLF)%string)
    ++ removelast (cstring "BCSCTL1= 0x8F") ++ removelast (cstring CRLF)
    ++ removelast (cstring "DCOCTL = 0x7E") ++ removelast (cstring CRLF)
  /\ nth_error (calls (out_trace o)) 15 = Some CInit
  /\ nth_error (calls (out_trace o)) 16 = Some CEnableInterrupt.
Proof. repeat split; vm_compute; reflexivity. Qed.

(** One round of the calibration with the DCO too fast: DCOCTL goes from
    0x00 down to 0xFF and RSEL from 15 to 14. *)
Example Set_DCO_body_run_down :
  let m := Machine (reg_set regs0 BCSCTL1 0x8F) [0; 1; 1; 5000; 5001] in
  let o := run scripted 30 (Set_DCO_body 3906 0) m in
  out_status o = Done (inl 5001) 17
  /\ captures (out_trace o) = [5000; 5001]
  /\ reg_get (out_machine o) DCOCTL = 0xFF
  /\ reg_get (out_machine o) BCSCTL1 = 0x8E.
Proof. repeat split; vm_compute; reflexivity. Qed.

(** A calibration that ends in its second round, on a difference of 3906. *)
Example Set_DCO_run :
  let m := Machine (reg_set regs0 BCSCTL1 0x8F) [1; 1; 5000; 5001; 1; 1; 8907; 8908] in
  let o := run scripted 60 (Set_DCO 3906) m in
  out_status o = Done tt 35
  /\ differences 0 (captures (out_trace o)) = [5000; 3906]
  /\ reg_get (out_machine o) BCSCTL1 = 0x8E.
Proof. repeat split; vm_compute; reflexivity. Qed.

(** With [CALIBRATE_DCO] defined, [SoftSerial_init] is called when the
    calibration has ended; while no capture occurs it is not. *)
Example main_calibrating_run :
  let script := [0; 1; 1; 3906; 3907; 0; 0] in
  let o := run scripted 60 (main calibrating_build) (Machine regs0 script) in
  nth_error (calls (out_trace o)) 25 = Some CInit
  /\ nth_error (calls (out_trace o)) 26 = Some CEnableInterrupt
  /\ ~ In CInit
       (calls (out_trace (run (always 0) 200 (main calibrating_build)
                            (Machine regs0 tt)))).
Proof.
  repeat split; try (vm_compute; reflexivity).
  intros H. vm_compute in H. repeat (destruct H as [H|H]; [discriminate|]). exact H.
Qed.
